(** * Yesod: a Lisp-flavoured command runner

    A shallow embedding of the repository:
    - the Peggy grammar [grammar.pegjs] (parser and [buildCommand]),
    - [tokenize] and [resolveCommandArgs] of the parser module,
    - [validateStatements] and [executeStatements] of the runner module,
    - [withDir] and [getCryptoRandomString] of the utilities,
    - [register], [getCommands] and [run] of [createYesod] in [index.ts].

    Modelling conventions.
    - A JavaScript string is a [string]; a character is an [ascii].
    - The code uses plain objects, created as [{}], as dictionaries.  Such
      an object has own properties, kept in creation order (module [Obj]),
      and a prototype, at first [Object.prototype].  A read [o[k]] that
      finds no own property goes on to the prototype; an assignment
      [o[k] = v] to the key [__proto__] reaches the setter inherited from
      [Object.prototype], which creates no property and may replace the
      prototype.  Modules [Bindings] (the binding context) and [Registry]
      (the command map) model both; for the dictionaries that are only
      enumerated ([namedArgs] and the resolved named arguments) the own
      properties are all that is represented.
    - A value an action returns is a [value]: [undefined], [null], a
      boolean, an integral number in the safe range, a string, or a plain
      object holding such values, which is not changed once returned.
      What a read may yield in addition (a built-in function of
      [Object.prototype], or that object itself) is an [any].
    - [throw] is the [Throw] constructor of [result]; a command action is a
      function of its arguments and of the state of the outside world, which
      it may change, and it returns or throws.  The working directory of
      the process is part of that world ([process_cwd], [process_chdir]).
    - What the repository takes from outside and the model cannot compute
      is a parameter: the text an engine prints for a built-in function
      ([nativeSource]), and the message and location Peggy reports for an
      input it rejects ([parseError]).
    - [await] is sequential composition.  Logger calls and wall-clock
      measurements ([performance.now], [executionTimes], [totalTime]) do not
      influence control flow or bindings and are left out. *)

From Stdlib Require Import String Ascii List ZArith Lia Bool Arith.
From Stdlib Require Import DecimalString DecimalZ DecimalPos Permutation.
From Stdlib Require Strings.Byte.
Import ListNotations.

Set Warnings "-register-all".
Open Scope string_scope.

(* ================================================================== *)
(** * Characters and strings *)

Definition dquote : ascii := "034"%char.
Definition backslash : ascii := "\"%char.
Definition newline : ascii := "010"%char.
Definition carriage_return : ascii := "013"%char.
Definition tab : ascii := "009"%char.

Definition char (c : ascii) : string := String c "".

(** [needle] occurs somewhere inside [s]. *)
Definition contains (needle s : string) : Prop :=
  exists pre post, s = pre ++ needle ++ post.

(** [l.includes(x)] *)
Definition includes (x : string) (l : list string) : bool :=
  existsb (String.eqb x) l.

(* ================================================================== *)
(** * JavaScript values and errors *)

(** The integral Numbers that every integer around them is a Number too:
    magnitude below 2^53. *)
Definition isSafeInteger (n : Z) : bool := (Z.abs n <? 2 ^ 53)%Z.

Record Number : Type := mkNumber {
  integer : Z;
  integer_safe : isSafeInteger integer = true
}.

(** Values an action may return and a binding may hold.  [VObject] stands
    for a plain object: its prototype is [Object.prototype] and its own
    properties are the data properties given, none of them a function. *)
Inductive value : Type :=
| VUndefined
| VNull
| VBool (b : bool)
| VNumber (n : Number)
| VString (s : string)
| VObject (props : list (string * value)).

(** What a property read can yield: a value as above, or one of the objects
    every plain object inherits from, the function found under a member
    name of [Object.prototype] or [Object.prototype] itself. *)
Inductive any : Type :=
| Data (v : value)
| BuiltinFunction (member : string)
| ObjectPrototypeObject.

(** The decimal numeral of an integer. *)
Definition decimal (n : Z) : string := NilZero.string_of_int (Z.to_int n).

(** Thrown values. *)
Inductive exn : Type :=
| Error (message : string)        (* new Error(message) *)
| TypeError.                      (* a TypeError raised by the engine; its
                                     message depends on the engine *)

Inductive result (A : Type) : Type :=
| Ok (a : A)
| Throw (e : exn).
Arguments Ok {A} a.
Arguments Throw {A} e.

Definition bind {A B} (r : result A) (k : A -> result B) : result B :=
  match r with
  | Ok a => k a
  | Throw e => Throw e
  end.

Notation "x <- r ;; k" := (bind r (fun x => k))
  (at level 61, r at next level, right associativity).

(* ================================================================== *)
(** * Own properties *)

Module Obj.

(** The own properties of an object, in the order in which they were
    created. *)
Definition t (V : Type) : Type := list (string * V).

Definition empty {V} : t V := [].

(** The own property [k], if there is one. *)
Fixpoint getOwn {V} (o : t V) (k : string) : option V :=
  match o with
  | [] => None
  | (k', v) :: o' => if String.eqb k' k then Some v else getOwn o' k
  end.

Definition hasOwn {V} (o : t V) (k : string) : bool :=
  match getOwn o k with Some _ => true | None => false end.

(** Writing the own property [k]: overwrites in place, or creates the
    property last. *)
Fixpoint define {V} (o : t V) (k : string) (v : V) : t V :=
  match o with
  | [] => [(k, v)]
  | (k', v') :: o' =>
      if String.eqb k' k then (k', v) :: o' else (k', v') :: define o' k v
  end.

(** The own properties after the assignment [o[k] = v], for an object that
    inherits from [Object.prototype]: an own property is overwritten; the
    key [__proto__], when it is no own property, reaches the inherited
    setter, which creates none (it replaces the prototype when [v] is an
    object, and does nothing otherwise); any other key becomes a new own
    property. *)
Definition set {V} (o : t V) (k : string) (v : V) : t V :=
  if String.eqb k "__proto__" && negb (hasOwn o k) then o else define o k v.

Definition keys {V} (o : t V) : list string := map fst o.

(** ** Enumeration order

    [Object.entries] lists the properties whose key is an array index
    (a canonical decimal numeral below 2^32 - 1) in ascending numeric
    order, then all other properties in creation order. *)

Definition digit (c : ascii) : option N :=
  let n := N_of_ascii c in
  if (48 <=? n)%N && (n <=? 57)%N then Some (n - 48)%N else None.

Fixpoint numeral (s : string) (acc : N) : option N :=
  match s with
  | EmptyString => Some acc
  | String c r =>
      match digit c with
      | Some d => numeral r (acc * 10 + d)%N
      | None => None
      end
  end.

Definition array_index (k : string) : option N :=
  match k with
  | EmptyString => None
  | String c r =>
      if Ascii.eqb c "0" && negb (String.eqb r "") then None
      else match numeral k 0%N with
           | Some i => if (i <? 2 ^ 32 - 1)%N then Some i else None
           | None => None
           end
  end.

Definition is_index (k : string) : bool :=
  match array_index k with Some _ => true | None => false end.

Definition index_of (k : string) : N :=
  match array_index k with Some i => i | None => 0%N end.

Fixpoint insert_by_index {V} (e : string * V) (l : list (string * V))
  : list (string * V) :=
  match l with
  | [] => [e]
  | e' :: l' =>
      if (index_of (fst e) <=? index_of (fst e'))%N then e :: l
      else e' :: insert_by_index e l'
  end.

Fixpoint sort_by_index {V} (l : list (string * V)) : list (string * V) :=
  match l with
  | [] => []
  | e :: l' => insert_by_index e (sort_by_index l')
  end.

Definition entries {V} (o : t V) : list (string * V) :=
  sort_by_index (filter (fun e => is_index (fst e)) o)
    ++ filter (fun e => negb (is_index (fst e))) o.

End Obj.

(* ================================================================== *)
(** * What every plain object inherits *)

(** The function-valued members of [Object.prototype]. *)
Definition objectPrototypeFunctions : list string :=
  [ "constructor"; "__defineGetter__"; "__defineSetter__"; "hasOwnProperty";
    "__lookupGetter__"; "__lookupSetter__"; "isPrototypeOf";
    "propertyIsEnumerable"; "toString"; "valueOf"; "toLocaleString" ].

(** The names [Object.prototype] defines: its functions and the accessor
    [__proto__]. *)
Definition isObjectPrototypeMember (k : string) : bool :=
  String.eqb k "__proto__" || includes k objectPrototypeFunctions.

(* ================================================================== *)
(** * The binding context *)

Module Bindings.

(** What the binding context inherits from: [Object.prototype] as every
    [{}] does, or what an assignment to [__proto__] has put in its place,
    nothing ([null]) or a plain object. *)
Inductive prototype : Type :=
| ObjectPrototype
| NullPrototype
| PlainObject (props : Obj.t value).

Record t : Type := mk {
  own : Obj.t value;
  proto : prototype
}.

(** [{}] *)
Definition empty : t := mk Obj.empty ObjectPrototype.

(** An object literal with the given properties. *)
Definition literal (props : Obj.t value) : t := mk props ObjectPrototype.

(** A read that has arrived at [Object.prototype]: the accessor [__proto__]
    answers with the prototype of the object the read started from. *)
Definition fromObjectPrototype (receiverPrototype : any) (k : string) : any :=
  if String.eqb k "__proto__" then receiverPrototype
  else if includes k objectPrototypeFunctions then BuiltinFunction k
  else Data VUndefined.

(** [context[k]]: the own property, or else what the prototype chain
    gives, or else [undefined]. *)
Definition get (context : t) (k : string) : any :=
  match Obj.getOwn (own context) k with
  | Some v => Data v
  | None =>
      match proto context with
      | ObjectPrototype => fromObjectPrototype ObjectPrototypeObject k
      | NullPrototype => Data VUndefined
      | PlainObject props =>
          match Obj.getOwn props k with
          | Some v => Data v
          | None => fromObjectPrototype (Data (VObject props)) k
          end
      end
  end.

(** Whether an assignment to [__proto__] finds the setter of
    [Object.prototype]: not below a [null] prototype, and not when a data
    property of that name comes first on the chain. *)
Definition inheritsSetter (context : t) : bool :=
  match proto context with
  | ObjectPrototype => true
  | NullPrototype => false
  | PlainObject props => negb (Obj.hasOwn props "__proto__")
  end.

(** [context[k] = v].  An own property is overwritten.  Otherwise the key
    [__proto__], where the setter is inherited, makes an object or [null]
    the new prototype and does nothing for any other value.  Every other
    assignment creates an own property. *)
Definition set (context : t) (k : string) (v : value) : t :=
  if Obj.hasOwn (own context) k
  then mk (Obj.define (own context) k v) (proto context)
  else if String.eqb k "__proto__" && inheritsSetter context
  then match v with
       | VObject props => mk (own context) (PlainObject props)
       | VNull => mk (own context) NullPrototype
       | _ => context
       end
  else mk (Obj.define (own context) k v) (proto context).

End Bindings.

(* ================================================================== *)
(** * The conversion [String(value)] *)

(** The text [Function.prototype.toString] gives for a built-in function,
    here the one found under a member name of [Object.prototype]; the
    language leaves its layout to the engine. *)
Class Engine : Type := {
  nativeSource : string -> string
}.

(** [String] of a plain object converts it to a primitive with the hint
    string: the method [toString] is tried, then [valueOf].  An own
    property of either name is never a function here, so it is passed
    over.  The inherited [Object.prototype.toString] returns the text
    [[object Object]]; the inherited [Object.prototype.valueOf] returns the
    object itself, which is no primitive; when neither method yields a
    primitive a [TypeError] is thrown. *)
Definition toPrimitive (props : Obj.t value) : result string :=
  match Obj.getOwn props "toString" with
  | None => Ok "[object Object]"
  | Some _ => Throw TypeError
  end.

(** The built-in [String(v)]. *)
Definition js_String `{Engine} (v : any) : result string :=
  match v with
  | Data VUndefined => Ok "undefined"
  | Data VNull => Ok "null"
  | Data (VBool true) => Ok "true"
  | Data (VBool false) => Ok "false"
  | Data (VNumber n) => Ok (decimal (integer n))
  | Data (VString s) => Ok s
  | Data (VObject props) => toPrimitive props
  | BuiltinFunction member => Ok (nativeSource member)
  | ObjectPrototypeObject => Ok "[object Object]"
  end.

(* ================================================================== *)
(** * Syntax tree (parser module) *)

(** [ArgumentValue = string | ReferencedVariable]. *)
Inductive ArgumentValue : Type :=
| Literal (s : string)
| VariableRef (name : string).

(** [namedArgs] is represented by its own properties, which is what
    [Object.entries] reads. *)
Record Command : Type := mkCommand {
  name : string;
  positionalArgs : list ArgumentValue;
  namedArgs : Obj.t ArgumentValue
}.

(** [Statement = VariableAssignment | ExecutableCommand]. *)
Inductive Statement : Type :=
| Assignment (variableName : string) (command : Command)
| ExecutableCommand (command : Command).

Definition command (stmt : Statement) : Command :=
  match stmt with
  | Assignment _ c => c
  | ExecutableCommand c => c
  end.

(* ================================================================== *)
(** * Argument resolution: [resolveCommandArgs] *)

(** The error thrown for an unbound reference:
    [new Error(`Variable '${varRef.name}' is not defined`)]. *)
Definition UndefinedVariable (varName : string) : exn :=
  Error ("Variable '" ++ varName ++ "' is not defined").

(** The inner helper [resolveArgument].  Its last branch (an argument that
    is neither a string nor a variable reference) cannot be reached from a
    well-typed [ArgumentValue]. *)
Definition resolveArgument `{Engine} (context : Bindings.t)
  (arg : ArgumentValue) : result string :=
  match arg with
  | Literal s => Ok s
  | VariableRef varName =>
      match Bindings.get context varName with
      | Data VUndefined => Throw (UndefinedVariable varName)
      | v => js_String v
      end
  end.

Record ResolvedArgs : Type := mkResolved {
  resolvedPositionalArgs : list string;
  resolvedNamedArgs : Obj.t string
}.

(** [command.positionalArgs.map(posArg => resolveArgument(...))]: the first
    failing element aborts the map. *)
Fixpoint resolvePositional `{Engine} (context : Bindings.t)
  (args : list ArgumentValue) : result (list string) :=
  match args with
  | [] => Ok []
  | posArg :: rest =>
      s <- resolveArgument context posArg ;;
      ss <- resolvePositional context rest ;;
      Ok (s :: ss)
  end.

(** The [for (const [key, namedArg] of Object.entries(...))] loop, started
    on the object built so far. *)
Fixpoint resolveNamed `{Engine} (context : Bindings.t)
  (es : list (string * ArgumentValue)) (resolved : Obj.t string)
  : result (Obj.t string) :=
  match es with
  | [] => Ok resolved
  | (key, namedArg) :: rest =>
      s <- resolveArgument context namedArg ;;
      resolveNamed context rest (Obj.set resolved key s)
  end.

Definition resolveCommandArgs `{Engine} (globalContext : Bindings.t)
  (cmd : Command) : result ResolvedArgs :=
  pos <- resolvePositional globalContext (positionalArgs cmd) ;;
  named <- resolveNamed globalContext (Obj.entries (namedArgs cmd)) Obj.empty ;;
  Ok (mkResolved pos named).

(* ================================================================== *)
(** * Parsing expressions (the semantics Peggy gives to a grammar) *)

(** A parsing expression consumes a prefix of the input and yields a value
    with the remaining input, or fails. *)
Definition parser (A : Type) : Type := string -> option (A * string).

Definition ret {A} (a : A) : parser A := fun s => Some (a, s).

(** Sequence [e1 e2]: if [e2] fails the whole sequence fails. *)
Definition andThen {A B} (p : parser A) (k : A -> parser B) : parser B :=
  fun s =>
    match p s with
    | Some (a, s') => k a s'
    | None => None
    end.

Notation "x <~ p ;; k" := (andThen p (fun x => k))
  (at level 61, p at next level, right associativity).
Notation "p ;;; k" := (andThen p (fun _ => k))
  (at level 61, right associativity).

(** Ordered choice [e1 / e2]: [e2] is tried only when [e1] fails. *)
Definition orElse {A} (p q : parser A) : parser A :=
  fun s =>
    match p s with
    | Some r => Some r
    | None => q s
    end.

Notation "p </> q" := (orElse p q) (at level 62, right associativity).

Definition pmap {A B} (f : A -> B) (p : parser A) : parser B :=
  a <~ p ;; ret (f a).

(** A character class [[...]], and [.] *)
Definition charClass (f : ascii -> bool) : parser ascii :=
  fun s =>
    match s with
    | String c r => if f c then Some (c, r) else None
    | EmptyString => None
    end.

Definition anyChar : parser ascii := charClass (fun _ => true).

(** A literal ["..."]. *)
Fixpoint stripPrefix (t s : string) : option string :=
  match t with
  | EmptyString => Some s
  | String c t' =>
      match s with
      | String d s' => if Ascii.eqb c d then stripPrefix t' s' else None
      | EmptyString => None
      end
  end.

Definition lit (t : string) : parser string :=
  fun s =>
    match stripPrefix t s with
    | Some r => Some (t, r)
    | None => None
    end.

(** Greedy repetition [e*].  Every repeated expression of the grammar
    consumes at least one character per round, so a number of rounds above
    the length of the input is never exhausted (see [starRounds_enough]
    and [star_ends]). *)
Fixpoint starRounds {A} (p : parser A) (rounds : nat) (s : string)
  : list A * string :=
  match rounds with
  | O => ([], s)
  | S n =>
      match p s with
      | Some (a, s') =>
          let (l, r) := starRounds p n s' in (a :: l, r)
      | None => ([], s)
      end
  end.

Definition star {A} (p : parser A) : parser (list A) :=
  fun s => Some (starRounds p (S (String.length s)) s).

(** [e+] *)
Definition plus {A} (p : parser A) : parser (list A) :=
  a <~ p ;; l <~ star p ;; ret (a :: l).

(** [chars.join('')] *)
Definition join (chars : list ascii) : string := string_of_list_ascii chars.

(* ================================================================== *)
(** * The grammar [grammar.pegjs] *)

(** Items produced by the argument rules. *)
Inductive Arg : Type :=
| positional (value : ArgumentValue)
| named (argName : string) (value : ArgumentValue).

(** The initializer's helper [buildCommand] sorts the arguments into the
    positional list and the named dictionary; [collect] is the body of its
    [forEach].  The dictionary is a [{}] written by assignment, so a named
    argument with the key [__proto__] leaves no property in it. *)
Definition collect (cmd : Command) (arg : Arg) : Command :=
  match arg with
  | positional v =>
      mkCommand (name cmd) (positionalArgs cmd ++ [v]) (namedArgs cmd)
  | named k v =>
      mkCommand (name cmd) (positionalArgs cmd) (Obj.set (namedArgs cmd) k v)
  end.

Definition buildCommand (cmdName : string) (args : list Arg) : Command :=
  fold_left collect args (mkCommand cmdName [] Obj.empty).

(** Character classes. *)
Definition in_range (lo hi c : ascii) : bool :=
  Nat.leb (nat_of_ascii lo) (nat_of_ascii c)
  && Nat.leb (nat_of_ascii c) (nat_of_ascii hi).

Definition one_of (l : list ascii) (c : ascii) : bool :=
  existsb (Ascii.eqb c) l.

(** [[a-zA-Z0-9_-]] *)
Definition identifierChar (c : ascii) : bool :=
  in_range "a" "z" c || in_range "A" "Z" c || in_range "0" "9" c
  || one_of ["_"; "-"]%char c.

(** [[a-zA-Z0-9_:-]] *)
Definition commandNameChar (c : ascii) : bool :=
  in_range "a" "z" c || in_range "A" "Z" c || in_range "0" "9" c
  || one_of ["_"; ":"; "-"]%char c.

(** [[^ \t\n\r:()$]] *)
Definition unquotedChar (c : ascii) : bool :=
  negb (one_of [" "; tab; newline; carriage_return; ":"; "("; ")"; "$"]%char c).

(** Any character but the double quote and the backslash. *)
Definition plainQuotedChar (c : ascii) : bool :=
  negb (one_of [dquote; backslash] c).

(** [[^\n\r]] *)
Definition notLineEnd (c : ascii) : bool :=
  negb (one_of [newline; carriage_return] c).

(** [[ \t\n\r]] *)
Definition whitespaceChar (c : ascii) : bool :=
  one_of [" "; tab; newline; carriage_return]%char c.

(** [Comment = "//" [^\n\r]*] *)
Definition Comment : parser unit :=
  lit "//" ;;; star (charClass notLineEnd) ;;; ret tt.

(** One round of rule [_]: a whitespace character, or else a backslash
    followed by a newline, or else a comment. *)
Definition skipItem : parser unit :=
      (charClass whitespaceChar ;;; ret tt)
  </> (lit (char backslash) ;;; lit (char newline) ;;; ret tt)
  </> Comment.

(** Rule [_]: whitespace, line continuations, and comments. *)
Definition Skip : parser unit :=
  star skipItem ;;; ret tt.

(** [Identifier = chars:[a-zA-Z0-9_-]+ { return chars.join(''); }] *)
Definition Identifier : parser string :=
  pmap join (plus (charClass identifierChar)).

(** [CommandName = chars:[a-zA-Z0-9_:-]+ { return chars.join(''); }] *)
Definition CommandName : parser string :=
  pmap join (plus (charClass commandNameChar)).

(** [UnquotedString = chars:[^ \t\n\r:()$]+ { return chars.join(''); }] *)
Definition UnquotedString : parser string :=
  pmap join (plus (charClass unquotedChar)).

(** An element matched inside the quotes: a plain character, or the
    two-element array of a backslash and the character after it. *)
Definition quotedItem : parser (ascii + string * ascii) :=
      pmap inl (charClass plainQuotedChar)
  </> (b <~ lit (char backslash) ;; c <~ anyChar ;; ret (inr (b, c))).

(** The action of [QuotedString]: an array contributes its second element,
    a plain character itself. *)
Definition unescape (item : ascii + string * ascii) : ascii :=
  match item with
  | inr (_, c) => c
  | inl c => c
  end.

(** [QuotedString]: a double quote, any number of items (a plain
    character, or else a backslash followed by any character), a double
    quote; the action maps [unescape] over the items and joins them. *)
Definition QuotedString : parser string :=
  lit (char dquote) ;;;
  chars <~ star quotedItem ;;
  lit (char dquote) ;;;
  ret (join (map unescape chars)).

(** [Literal = QuotedString / UnquotedString] *)
Definition LiteralRule : parser ArgumentValue :=
  pmap Literal (QuotedString </> UnquotedString).

(** [VariableReference = "$" name:Identifier] *)
Definition VariableReference : parser ArgumentValue :=
  lit "$" ;;; varName <~ Identifier ;; ret (VariableRef varName).

(** [Value = VariableReference / Literal] *)
Definition Value : parser ArgumentValue :=
  VariableReference </> LiteralRule.

(** [NamedArgument = name:Identifier ":" value:Value] *)
Definition NamedArgument : parser Arg :=
  argName <~ Identifier ;; lit ":" ;;; v <~ Value ;; ret (named argName v).

(** [PositionalArgument = value:Value] *)
Definition PositionalArgument : parser Arg :=
  v <~ Value ;; ret (positional v).

(** [Argument = NamedArgument / PositionalArgument] *)
Definition Argument : parser Arg :=
  NamedArgument </> PositionalArgument.

(** The repeated group [(_ Argument)] of rule [Command]: the pair of what
    the two expressions matched. *)
Definition argumentItem : parser (unit * Arg) :=
  w <~ Skip ;; a <~ Argument ;; ret (w, a).

(** [Command = name:CommandName args:(_ Argument)*
      { return buildCommand(name, args.map(arg => arg[1])); }] *)
Definition CommandRule : parser Command :=
  cmdName <~ CommandName ;;
  args <~ star argumentItem ;;
  ret (buildCommand cmdName (map snd args)).

(** [CommandExpression = "(" _ command:Command _ ")"] *)
Definition CommandExpression : parser Command :=
  lit "(" ;;; Skip ;;; cmd <~ CommandRule ;; Skip ;;; lit ")" ;;; ret cmd.

(** [Assignment = variable:Identifier ":" _ command:CommandExpression _] *)
Definition AssignmentRule : parser Statement :=
  variable <~ Identifier ;; lit ":" ;;; Skip ;;;
  cmd <~ CommandExpression ;; Skip ;;;
  ret (Assignment variable cmd).

(** [ExecutableCommand = command:CommandExpression _] *)
Definition ExecutableCommandRule : parser Statement :=
  cmd <~ CommandExpression ;; Skip ;;; ret (ExecutableCommand cmd).

(** [Statement = Assignment / ExecutableCommand] *)
Definition StatementRule : parser Statement :=
  AssignmentRule </> ExecutableCommandRule.

(** [Program = _ statements:Statement* _ { return statements; }] *)
Definition Program : parser (list Statement) :=
  Skip ;;; statements <~ star StatementRule ;; Skip ;;; ret statements.

(** [parser.parse(input)]: the start rule must match the whole input. *)
Definition parse (input : string) : option (list Statement) :=
  match Program input with
  | Some (statements, EmptyString) => Some statements
  | _ => None
  end.

(* ================================================================== *)
(** * [tokenize] *)

(** What Peggy reports when the generated parser rejects an input: a
    message, and the place in the input that the message is about. *)
Record GrammarError : Type := mkGrammarError {
  errorMessage : string;
  errorLocation : option (nat * nat)      (* start line and column *)
}.

(** The error [parser.parse] throws for an input it rejects. *)
Class Peggy : Type := {
  parseError : string -> GrammarError
}.

Definition decimalNat (n : nat) : string := NilZero.string_of_uint (Nat.to_uint n).

(** The error [tokenize] throws in place of Peggy's. *)
Definition parseFailure (error : GrammarError) : exn :=
  let message := "Failed to parse command: " ++ errorMessage error in
  Error match errorLocation error with
        | Some (line, column) =>
            message ++ " at line " ++ decimalNat line
              ++ ", column " ++ decimalNat column
        | None => message
        end.

(** [tokenize]: the empty string is answered without the parser; a failed
    parse is rethrown as an [Error] carrying Peggy's message and location. *)
Definition tokenize `{Peggy} (args : string) : result (list Statement) :=
  if String.eqb args "" then Ok []
  else match parse args with
       | Some statements => Ok statements
       | None => Throw (parseFailure (parseError args))
       end.

(* ================================================================== *)
(** * [withDir] *)

Section WithDir.

(** The process: its state, [process.cwd()] and [process.chdir(dir)]. *)
Variable Process : Type.
Variable cwd : Process -> string.
Variable chdir : string -> Process -> result unit * Process.

(** [withDir]: the [finally] block runs on every exit of the [try] block,
    and an error it raises replaces the outcome of the [try] block. *)
Definition withDir {T} (dirPath : string)
  (callback : Process -> result T * Process) (w : Process)
  : result T * Process :=
  let originalDir := cwd w in
  let attempt :=
    match chdir dirPath w with
    | (Ok _, w1) => callback w1
    | (Throw e, w1) => (Throw e, w1)
    end in
  match chdir originalDir (snd attempt) with
  | (Ok _, w') => (fst attempt, w')
  | (Throw e, w') => (Throw e, w')
  end.

End WithDir.

Arguments withDir {Process} cwd chdir {T} dirPath callback w.

(* ================================================================== *)
(** * Command definitions and the command map *)

(** [CommandDefinition]: an awaited call of [action] either resolves to a
    value or rejects with an error, and may change the world, the state of
    everything outside the runner. *)
Record CommandDefinition (World : Type) : Type := mkDefinition {
  action : list string -> Obj.t string -> World -> result value * World;
  description : option string;
  argsDescription : option (list string);
  returns : option string
}.

Arguments mkDefinition {World} action description argsDescription returns.
Arguments action {World} c _ _ _.
Arguments description {World} c.
Arguments argsDescription {World} c.
Arguments returns {World} c.

Module Registry.

(** The command map: its own properties, the registered definitions, and
    its prototype, [Object.prototype] ([None]) unless a definition has been
    assigned to the key [__proto__]. *)
Record t (World : Type) : Type := mk {
  own : Obj.t (CommandDefinition World);
  proto : option (CommandDefinition World)
}.

Arguments mk {World} own proto.
Arguments own {World} _.
Arguments proto {World} _.

(** [{}] *)
Definition empty {World} : t World := mk Obj.empty None.

(** What a read [commandMap[k]] can yield: a command definition; or a
    field of the definition that has become the prototype (its action, a
    text, the list of argument descriptions); or a function of
    [Object.prototype], or that object itself; or [undefined].  Functions
    are taken to have no properties [action] and [returns] of their own. *)
Inductive found (World : Type) : Type :=
| ADefinition (definition : CommandDefinition World)
| AFunction
| AString (s : string)
| AnArray (items : list string)
| TheObjectPrototype
| Nothing.

Arguments ADefinition {World} definition.
Arguments AFunction {World}.
Arguments AString {World} s.
Arguments AnArray {World} items.
Arguments TheObjectPrototype {World}.
Arguments Nothing {World}.

(** The own property [k] of a definition object; an optional field that
    is absent is no property. *)
Definition definitionProperty {World} (d : CommandDefinition World)
  (k : string) : option (found World) :=
  if String.eqb k "action" then Some AFunction
  else if String.eqb k "description" then option_map AString (description d)
  else if String.eqb k "argsDescription"
  then option_map AnArray (argsDescription d)
  else if String.eqb k "returns" then option_map AString (returns d)
  else None.

(** A read that has arrived at [Object.prototype]. *)
Definition fromObjectPrototype {World} (receiverPrototype : found World)
  (k : string) : found World :=
  if String.eqb k "__proto__" then receiverPrototype
  else if includes k objectPrototypeFunctions then AFunction
  else Nothing.

(** [commandMap[k]] *)
Definition get {World} (commandMap : t World) (k : string) : found World :=
  match Obj.getOwn (own commandMap) k with
  | Some definition => ADefinition definition
  | None =>
      match proto commandMap with
      | None => fromObjectPrototype TheObjectPrototype k
      | Some d =>
          match definitionProperty d k with
          | Some v => v
          | None => fromObjectPrototype (ADefinition d) k
          end
      end
  end.

(** [commandMap[k] = definition]: an own property is overwritten; the key
    [__proto__] otherwise reaches the inherited setter, which makes the
    definition, an object, the new prototype; any other key becomes a new
    own property. *)
Definition set {World} (commandMap : t World) (k : string)
  (definition : CommandDefinition World) : t World :=
  if Obj.hasOwn (own commandMap) k
  then mk (Obj.define (own commandMap) k definition) (proto commandMap)
  else if String.eqb k "__proto__"
  then mk (own commandMap) (Some definition)
  else mk (Obj.define (own commandMap) k definition) (proto commandMap).

(** Truthiness of what was found: only [undefined] and the empty string
    are falsy. *)
Definition truthy {World} (v : found World) : bool :=
  match v with
  | Nothing => false
  | AString s => negb (String.eqb s "")
  | _ => true
  end.

(** The member [returns] of what was found: a definition has the field;
    a function, a string, an array and [Object.prototype] have no such
    property. *)
Definition returnsOf {World} (v : found World) : option string :=
  match v with
  | ADefinition definition => returns definition
  | _ => None
  end.

End Registry.

(* ================================================================== *)
(** * The runner module *)

(** Truthiness of an optional string: absent and empty are falsy. *)
Definition truthy (s : option string) : bool :=
  match s with
  | Some s => negb (String.eqb s "")
  | None => false
  end.

Definition isCommand (stmt : Statement) : bool :=
  match stmt with
  | ExecutableCommand _ => true
  | Assignment _ _ => false
  end.

Definition unknownCommand (cmdName : string) : string :=
  "Unknown command: '" ++ cmdName ++ "'".

Definition mustBeAssigned (cmdName : string) (ret : option string) : string :=
  "Command '" ++ cmdName
    ++ "' returns a value and must be assigned to a variable" ++ char newline
    ++ "  Expected: varname:(" ++ cmdName ++ " ...) or _:(" ++ cmdName
    ++ " ...) to ignore the return value" ++ char newline
    ++ "  Returns: " ++ match ret with Some r => r | None => "undefined" end.

(** The loop of [validateStatements], started on the errors pushed so
    far. *)
Fixpoint validateLoop {World} (statements : list Statement)
  (commandMap : Registry.t World) (errors : list string) : list string :=
  match statements with
  | [] => errors
  | stmt :: rest =>
      let command_ := Registry.get commandMap (name (command stmt)) in
      if negb (Registry.truthy command_)
      then validateLoop rest commandMap
             (errors ++ [unknownCommand (name (command stmt))])
      else if truthy (Registry.returnsOf command_) && isCommand stmt
      then validateLoop rest commandMap
             (errors ++ [mustBeAssigned (name (command stmt))
                           (Registry.returnsOf command_)])
      else validateLoop rest commandMap errors
  end.

Definition validateStatements {World} (statements : list Statement)
  (commandMap : Registry.t World) : list string :=
  validateLoop statements commandMap [].

(** The process the runner lives in: [process.cwd()], taken to answer,
    and [process.chdir(dir)], which may throw, acting on the world. *)
Class HostProcess (World : Type) : Type := {
  process_cwd : World -> string;
  process_chdir : string -> World -> result unit * World
}.

(** [ExecutionOptions], without the logger. *)
Record ExecutionOptions : Type := mkOptions {
  workingDir : option string
}.

Record ExecutionResult : Type := mkExecutionResult {
  globalContext : Bindings.t
}.

(** [if (workingDir) { await withDir(workingDir, f) } else { await f() }] *)
Definition inWorkingDir {World} `{HostProcess World} {T}
  (options : ExecutionOptions) (f : World -> result T * World) (w : World)
  : result T * World :=
  match workingDir options with
  | Some dir =>
      if String.eqb dir "" then f w
      else withDir process_cwd process_chdir dir f w
  | None => f w
  end.

(** The closure [executeCommand]: the action is called, and for an
    assignment what it returned is stored.  Calling the member [action] of
    something that is no definition raises a [TypeError]. *)
Definition executeCommand {World} (command_ : Registry.found World)
  (context : Bindings.t) (stmt : Statement) (args : ResolvedArgs) (w : World)
  : result Bindings.t * World :=
  match command_ with
  | Registry.ADefinition definition =>
      match stmt with
      | Assignment variableName _ =>
          match action definition (resolvedPositionalArgs args)
                  (resolvedNamedArgs args) w with
          | (Ok r, w') => (Ok (Bindings.set context variableName r), w')
          | (Throw e, w') => (Throw e, w')
          end
      | ExecutableCommand _ =>
          match action definition (resolvedPositionalArgs args)
                  (resolvedNamedArgs args) w with
          | (Ok _, w') => (Ok context, w')
          | (Throw e, w') => (Throw e, w')
          end
      end
  | _ => (Throw TypeError, w)
  end.

(** One round of the loop of [executeStatements]: look the command up,
    resolve the arguments, and run [executeCommand], from the working
    directory if one is given. *)
Definition executeStatement {World} `{Engine} `{HostProcess World}
  (commandMap : Registry.t World) (options : ExecutionOptions)
  (context : Bindings.t) (stmt : Statement) (w : World)
  : result Bindings.t * World :=
  let command_ := Registry.get commandMap (name (command stmt)) in
  match resolveCommandArgs context (command stmt) with
  | Throw e => (Throw e, w)
  | Ok args => inWorkingDir options (executeCommand command_ context stmt args) w
  end.

(** The loop of [executeStatements], started on the context built so
    far. *)
Fixpoint executeLoop {World} `{Engine} `{HostProcess World}
  (statements : list Statement) (commandMap : Registry.t World)
  (options : ExecutionOptions) (context : Bindings.t) (w : World)
  : result Bindings.t * World :=
  match statements with
  | [] => (Ok context, w)
  | stmt :: rest =>
      match executeStatement commandMap options context stmt w with
      | (Ok context', w') => executeLoop rest commandMap options context' w'
      | (Throw e, w') => (Throw e, w')
      end
  end.

Definition executeStatements {World} `{Engine} `{HostProcess World}
  (statements : list Statement) (commandMap : Registry.t World)
  (options : ExecutionOptions) (w : World)
  : result ExecutionResult * World :=
  match executeLoop statements commandMap options Bindings.empty w with
  | (Ok context, w') => (Ok (mkExecutionResult context), w')
  | (Throw e, w') => (Throw e, w')
  end.

(* ================================================================== *)
(** * [createYesod] *)

(** [register]; the warning about an existing command goes to the logger
    only. *)
Definition register {World} (commandMap : Registry.t World)
  (cmdName : string) (definition : CommandDefinition World)
  : Registry.t World :=
  Registry.set commandMap cmdName definition.

(** The object spread [{ ...o }]: a fresh object that receives the own
    properties of [o] in enumeration order, each by definition, not by
    assignment. *)
Definition spread {V} (o : Obj.t V) : Obj.t V :=
  fold_left (fun copy e => Obj.define copy (fst e) (snd e)) (Obj.entries o)
    Obj.empty.

(** [getCommands] *)
Definition getCommands {World} (commandMap : Registry.t World)
  : Registry.t World :=
  Registry.mk (spread (Registry.own commandMap)) None.

(** The help test of [run]: no argument at all, or one of the flags. *)
Definition wantsHelp (args : list string) : bool :=
  Nat.eqb (List.length args) 0 || includes "--help" args || includes "-h" args.

(** [run], on the registry built by earlier calls of [register]; the help
    text goes to the console only. *)
Definition run {World} `{Peggy} `{Engine} `{HostProcess World}
  (commandMap : Registry.t World) (args : list string) (w : World)
  : result Bindings.t * World :=
  if wantsHelp args then (Ok Bindings.empty, w)
  else
    let input := String.concat " " args in
    match tokenize input with
    | Throw e => (Throw e, w)
    | Ok statements =>
        let errors := validateStatements statements commandMap in
        if Nat.ltb 0 (List.length errors)
        then (Throw (Error ("Validation failed: " ++ String.concat "; " errors)), w)
        else
          match executeStatements statements commandMap
                  (mkOptions (Some (process_cwd w))) w with
          | (Ok res, w') => (Ok (globalContext res), w')
          | (Throw e, w') => (Throw e, w')
          end
    end.

(** The registry after a series of [register] calls on a fresh instance. *)
Definition registerAll {World}
  (registrations : list (string * CommandDefinition World))
  : Registry.t World :=
  fold_left (fun commandMap r => register commandMap (fst r) (snd r))
    registrations Registry.empty.

(* ================================================================== *)
(** * [getCryptoRandomString] *)

(** [bytes.toString("hex")]: two lower-case hexadecimal digits per byte. *)
Definition hexDigit (n : N) : ascii :=
  nth (N.to_nat n) (list_ascii_of_string "0123456789abcdef") "0"%char.

Fixpoint toHex (bytes : list Byte.byte) : string :=
  match bytes with
  | [] => EmptyString
  | b :: rest =>
      String (hexDigit (Byte.to_N b / 16))
        (String (hexDigit (Byte.to_N b mod 16)) (toHex rest))
  end.

(** [getCryptoRandomString], on integral lengths; [randomBytes] stands for
    the bytes [crypto.randomBytes] delivers for a requested size. *)
Definition getCryptoRandomString (randomBytes : Z -> list Byte.byte)
  (lengthOfBytes : Z) : result string :=
  if (lengthOfBytes <=? 0)%Z
  then Throw (Error "Length must be a positive integer")
  else
    let adjustedLength :=
      if negb (Z.rem lengthOfBytes 2 =? 0)%Z
      then (lengthOfBytes + 1)%Z else lengthOfBytes in
    let bytes := randomBytes adjustedLength in
    Ok (substring 0 (Z.to_nat (adjustedLength * 2)) (toHex bytes)).

(* ================================================================== *)
(** * Worlds, engines and registries used in the examples *)

(** A call of an action: which one, and with which arguments. *)
Record Call : Type := mkCall {
  callee : string;
  callPositional : list string;
  callNamed : Obj.t string
}.

(** The world of the examples: the directory the process is in, the
    directories that exist, and the calls made so far, in call order. *)
Record Host : Type := mkHost {
  hostDir : string;
  hostDirs : list string;
  hostCalls : list Call
}.

(** [process.chdir] fails on a directory that does not exist. *)
Definition hostChdir (dir : string) (h : Host) : result unit * Host :=
  if includes dir (hostDirs h)
  then (Ok tt, mkHost dir (hostDirs h) (hostCalls h))
  else (Throw (Error ("ENOENT: no such file or directory, chdir " ++ dir)), h).

Definition hostProcess : HostProcess Host :=
  {| process_cwd := hostDir; process_chdir := hostChdir |}.

(** The process in [/home], after the given calls. *)
Definition home (calls : list Call) : Host :=
  mkHost "/home" ["/home"; "/tmp"] calls.

Definition called (c : Call) (h : Host) : Host :=
  mkHost (hostDir h) (hostDirs h) (hostCalls h ++ [c]).

(** An engine that prints built-in functions on one line. *)
Definition oneLine : Engine :=
  {| nativeSource := fun member =>
       "function "
         ++ (if String.eqb member "constructor" then "Object" else member)
         ++ "() { [native code] }" |}.

(** A stand-in for Peggy's diagnosis; no statement below depends on what
    it says. *)
Definition terse : Peggy :=
  {| parseError := fun _ => mkGrammarError "Unexpected input" (Some (1, 1)) |}.

(** An action that records its call and then resolves to [v]. *)
Definition returning (callee : string) (v : value) (ret : option string)
  : CommandDefinition Host :=
  mkDefinition (fun pos nam h => (Ok v, called (mkCall callee pos nam) h))
    None None ret.

(** An action that records its call and then rejects with [e]. *)
Definition failing (callee : string) (e : exn) : CommandDefinition Host :=
  mkDefinition (fun pos nam h => (Throw e, called (mkCall callee pos nam) h))
    None None None.

(** An action that returns an object built from its [env] argument. *)
Definition getEnv : CommandDefinition Host :=
  mkDefinition
    (fun pos nam h =>
       (Ok (VObject [("env", VString match Obj.getOwn nam "env" with
                                     | Some env => env
                                     | None => "dev"
                                     end)]),
        called (mkCall "get-env" pos nam) h))
    None None (Some "Config").

(** An action that moves the process to [/tmp] and returns. *)
Definition leaving : CommandDefinition Host :=
  mkDefinition
    (fun pos nam h =>
       (Ok VUndefined,
        mkHost "/tmp" (hostDirs h) (hostCalls h ++ [mkCall "leave" pos nam])))
    None None None.

(** An action that removes every directory but [/tmp], moves there, and
    fails. *)
Definition razing : CommandDefinition Host :=
  mkDefinition
    (fun pos nam h =>
       (Throw (Error "razed"),
        mkHost "/tmp" ["/tmp"] (hostCalls h ++ [mkCall "raze" pos nam])))
    None None None.

(** A command without arguments. *)
Definition call (cmdName : string) : Command := mkCommand cmdName [] Obj.empty.

(** The registry of the examples: [ok] and [ping] succeed ([ping] returns
    nothing), [A] returns the string 42, [boom] and [bang] fail with the
    same error, [get-config] declares a return value, [get-env] returns an
    object built from its [env] argument, [leave] and [raze] change the
    directory, and [B], [echo] and [greet] just return. *)
Definition registry : Registry.t Host :=
  registerAll
    [ ("ok", returning "ok" (VString "done") None);
      ("ping", returning "ping" VUndefined None);
      ("A", returning "A" (VString "42") None);
      ("B", returning "B" VUndefined None);
      ("echo", returning "echo" VUndefined None);
      ("greet", returning "greet" VUndefined None);
      ("boom", failing "boom" (Error "kaput"));
      ("bang", failing "bang" (Error "kaput"));
      ("get-config", returning "get-config" (VString "/path") (Some "string"));
      ("get-env", getEnv);
      ("leave", leaving);
      ("raze", razing) ].

(** A process for the examples of [withDir]: the directory it is in and
    the directories that exist; [chdir] fails on a directory that does not
    exist. *)
Record Proc : Type := mkProc {
  procDir : string;
  procDirs : list string;
  procLog : list string
}.

Definition procChdir (dir : string) (p : Proc) : result unit * Proc :=
  if existsb (String.eqb dir) (procDirs p)
  then (Ok tt, mkProc dir (procDirs p) (procLog p))
  else (Throw (Error ("ENOENT: " ++ dir)), p).

(** A process in [/home], and a callback that wanders off to [/tmp] and
    then fails. *)
Definition homeProc : Proc := mkProc "/home" ["/home"; "/work"; "/tmp"] [].

Definition wander (p : Proc) : result nat * Proc :=
  (Throw (Error "boom"), mkProc "/tmp" (procDirs p) ("ran" :: procLog p)).

(** Some numbers. *)
Definition one : Number := mkNumber 1 eq_refl.

(* ================================================================== *)
(** * Vocabulary of the statements below *)

(** The error resolving an argument under [context] ends with, if it
    fails, and the string it yields otherwise. *)
Definition failure `{Engine} (context : Bindings.t) (arg : ArgumentValue)
  : option exn :=
  match resolveArgument context arg with
  | Throw e => Some e
  | Ok _ => None
  end.

Definition render `{Engine} (context : Bindings.t) (arg : ArgumentValue)
  : string :=
  match resolveArgument context arg with
  | Ok s => s
  | Throw _ => ""
  end.

(** The failure of the first argument of a list that fails. *)
Fixpoint firstFailure `{Engine} (context : Bindings.t)
  (args : list ArgumentValue) : option exn :=
  match args with
  | [] => None
  | arg :: rest =>
      match failure context arg with
      | Some e => Some e
      | None => firstFailure context rest
      end
  end.



(** Every character of [s] satisfies [f]. *)
Fixpoint allChars (f : ascii -> bool) (s : string) : bool :=
  match s with
  | EmptyString => true
  | String c r => f c && allChars f r
  end.

(** [s] is empty or starts with a character outside [f]: a repetition of
    the class [f] stops in front of [s]. *)
Definition stopsAt (f : ascii -> bool) (s : string) : bool :=
  match s with
  | EmptyString => true
  | String c _ => negb (f c)
  end.

Definition nonEmpty (s : string) : bool :=
  match s with
  | EmptyString => false
  | String _ _ => true
  end.

(** The texts matched in full by [Identifier]. *)
Definition isIdentifier (s : string) : bool :=
  nonEmpty s && allChars identifierChar s.

(** The texts matched in full by [UnquotedString] that do not open with a
    double quote. *)
Definition isBareWord (s : string) : bool :=
  nonEmpty s && allChars unquotedChar s && stopsAt (Ascii.eqb dquote) s.

(** Inputs made only of whitespace, line continuations and line
    comments. *)
Inductive blank : string -> Prop :=
| blank_empty : blank ""
| blank_whitespace (c : ascii) (s : string) :
    whitespaceChar c = true -> blank s -> blank (String c s)
| blank_continuation (s : string) :
    blank s -> blank (String backslash (String newline s))
| blank_comment (text s : string) :
    allChars notLineEnd text = true -> blank s -> blank ("//" ++ text ++ s).

(** A parsing expression that never yields more input than it was given,
    and one that always consumes some. *)
Definition nonincreasing {A} (p : parser A) : Prop :=
  forall s a r, p s = Some (a, r) -> String.length r <= String.length s.

Definition consuming {A} (p : parser A) : Prop :=
  forall s a r, p s = Some (a, r) -> String.length r < String.length s.

(** The value the last [named] item with key [k] carries, if any. *)
Fixpoint lastNamed (k : string) (args : list Arg) : option ArgumentValue :=
  match args with
  | [] => None
  | arg :: rest =>
      match lastNamed k rest with
      | Some v => Some v
      | None =>
          match arg with
          | named k' v => if String.eqb k' k then Some v else None
          | positional _ => None
          end
      end
  end.

(** The values of the [positional] items, in order. *)
Fixpoint positionals (args : list Arg) : list ArgumentValue :=
  match args with
  | [] => []
  | positional v :: rest => v :: positionals rest
  | named _ _ :: rest => positionals rest
  end.

(** The longest prefix of [s] inside the class [f], and what follows it. *)
Fixpoint takeWhile (f : ascii -> bool) (s : string) : string :=
  match s with
  | EmptyString => ""
  | String c r => if f c then String c (takeWhile f r) else ""
  end.

Fixpoint dropWhile (f : ascii -> bool) (s : string) : string :=
  match s with
  | EmptyString => ""
  | String c r => if f c then dropWhile f r else s
  end.

(** [s] does not open with whitespace, a backslash or a slash, so rule [_]
    matches nothing in front of it. *)
Definition noSkipAhead (s : string) : bool :=
  match s with
  | EmptyString => true
  | String c _ =>
      negb (whitespaceChar c) && negb (Ascii.eqb c backslash)
      && negb (Ascii.eqb c "/")
  end.

(** The named arguments of the statement's command have distinct keys. *)
Definition uniqueKeys (stmt : Statement) : Prop :=
  NoDup (Obj.keys (namedArgs (command stmt))).


(** The error a failed run ends with would carry the statement context
    if some reading [describe] of it gave back, for every run whose
    statement at position [length pre] has a failing action, the name of
    that statement's command and that position. *)
Definition identifiesFailedStatement (describe : exn -> string * nat) : Prop :=
  forall (World : Type) (engine : Engine) (process : HostProcess World)
         (commandMap : Registry.t World) (options : ExecutionOptions)
         (pre : list Statement) (stmt : Statement) (post : list Statement)
         (context : Bindings.t) (w0 w w' : World)
         (definition : CommandDefinition World) (args : ResolvedArgs) (e : exn),
    executeLoop pre commandMap options Bindings.empty w0 = (Ok context, w) ->
    Registry.get commandMap (name (command stmt))
      = Registry.ADefinition definition ->
    resolveCommandArgs context (command stmt) = Ok args ->
    inWorkingDir options
      (action definition (resolvedPositionalArgs args) (resolvedNamedArgs args))
      w = (Throw e, w') ->
    exists e' w'',
      executeStatements (pre ++ stmt :: post) commandMap options w0
        = (Throw e', w'')
      /\ describe e' = (name (command stmt), List.length pre).

(** [s] with a backslash put in front of each of its characters. *)
Fixpoint escapeAll (s : string) : string :=
  match s with
  | EmptyString => EmptyString
  | String c r => String backslash (String c (escapeAll r))
  end.

(** The texts matched in full by [CommandName]. *)
Definition isCommandName (s : string) : bool :=
  nonEmpty s && allChars commandNameChar s.

(** [s] is empty or opens with a character that ends a bare word and is not
    a colon: whitespace, a parenthesis or a dollar sign. *)
Definition endsWord (s : string) : bool :=
  stopsAt (fun c => unquotedChar c || Ascii.eqb c ":") s.

(** What the parser can produce: identifiers where the grammar reads
    [Identifier], a command name where it reads [CommandName]. *)
Definition wellFormedValue (v : ArgumentValue) : Prop :=
  match v with
  | Literal _ => True
  | VariableRef varName => isIdentifier varName = true
  end.

Definition wellFormedArg (a : Arg) : Prop :=
  match a with
  | positional v => wellFormedValue v
  | named k v => isIdentifier k = true /\ wellFormedValue v
  end.

Definition wellFormedCommand (cmd : Command) : Prop :=
  isCommandName (name cmd) = true
  /\ Forall wellFormedValue (positionalArgs cmd)
  /\ Forall (fun e => isIdentifier (fst e) = true /\ wellFormedValue (snd e))
       (namedArgs cmd).

Definition wellFormedStatement (stmt : Statement) : Prop :=
  wellFormedCommand (command stmt)
  /\ match stmt with
     | Assignment variableName _ => isIdentifier variableName = true
     | ExecutableCommand _ => True
     end.

(** The variables a list of argument values refers to, and those of a
    command. *)
Fixpoint referenced (args : list ArgumentValue) : list string :=
  match args with
  | [] => []
  | Literal _ :: rest => referenced rest
  | VariableRef varName :: rest => varName :: referenced rest
  end.

Definition references (cmd : Command) : list string :=
  referenced (positionalArgs cmd ++ map snd (namedArgs cmd)).

(** The variables the assignments of a statement sequence name. *)
Fixpoint assignedVariables (statements : list Statement) : list string :=
  match statements with
  | [] => []
  | Assignment variableName _ :: rest => variableName :: assignedVariables rest
  | ExecutableCommand _ :: rest => assignedVariables rest
  end.

(** A statement the validator has nothing to say about: the read of its
    command name from the command map finds something truthy, and if that
    declares a return value the statement is an assignment. *)
Definition accepted {World} (commandMap : Registry.t World)
  (stmt : Statement) : Prop :=
  Registry.truthy (Registry.get commandMap (name (command stmt))) = true
  /\ (truthy (Registry.returnsOf
                (Registry.get commandMap (name (command stmt)))) = true
      -> isCommand stmt = false).

(** The definition registered last under [cmdName], if any. *)
Fixpoint lastRegistered {World} (cmdName : string)
  (registrations : list (string * CommandDefinition World))
  : option (CommandDefinition World) :=
  match registrations with
  | [] => None
  | r :: rest =>
      match lastRegistered cmdName rest with
      | Some def => Some def
      | None => if String.eqb (fst r) cmdName then Some (snd r) else None
      end
  end.

Definition isHexDigit (c : ascii) : bool :=
  in_range "0" "9" c || in_range "a" "f" c.

(** [s] opens with [t]. *)
Definition startsWith (t s : string) : bool :=
  match stripPrefix t s with
  | Some _ => true
  | None => false
  end.

(** A bare word that opens neither a comment nor a line continuation. *)
Definition isPlainWord (s : string) : bool :=
  isBareWord s && negb (startsWith "//" s) && stopsAt (Ascii.eqb backslash) s.

(** The bindings after a statement whose action returned [r]: an
    assignment stores [r], a bare command stores nothing. *)
Definition stored (context : Bindings.t) (stmt : Statement) (r : value)
  : Bindings.t :=
  match stmt with
  | Assignment variableName _ => Bindings.set context variableName r
  | ExecutableCommand _ => context
  end.

(** An outcome of an action, followed by storing what it returned. *)
Definition thenStore {World} (store : value -> Bindings.t)
  (outcome : result value * World) : result Bindings.t * World :=
  match outcome with
  | (Ok r, w) => (Ok (store r), w)
  | (Throw e, w) => (Throw e, w)
  end.

(** What [run] makes of the outcome of [executeStatements]. *)
Definition returned {World} (outcome : result ExecutionResult * World)
  : result Bindings.t * World :=
  match outcome with
  | (Ok res, w) => (Ok (globalContext res), w)
  | (Throw e, w) => (Throw e, w)
  end.

(** The options [run] passes to the executor. *)
Definition runOptions {World} `{HostProcess World} (w : World)
  : ExecutionOptions :=
  mkOptions (Some (process_cwd w)).

(** What a failed resolution is about: a variable that reads as
    [undefined], or one that holds an object [String] cannot convert. *)
Definition unresolvable (context : Bindings.t) (n : string) (e : exn)
  : Prop :=
  (e = UndefinedVariable n /\ Bindings.get context n = Data VUndefined)
  \/ (e = TypeError
      /\ exists props, Bindings.get context n = Data (VObject props)
                       /\ Obj.hasOwn props "toString" = true).


(* ================================================================== *)
(** * Facts about strings *)

Lemma append_nil_r (s : string) : s ++ "" = s.
Proof. induction s as [|c s IH]; simpl; [reflexivity | now rewrite IH]. Qed.

Lemma append_assoc (a b c : string) : (a ++ b) ++ c = a ++ (b ++ c).
Proof. induction a as [|x a IH]; simpl; [reflexivity | now rewrite IH]. Qed.



Lemma join_app (a b : list ascii) : join (a ++ b) = join a ++ join b.
Proof. induction a as [|x a IH]; simpl; [reflexivity | now rewrite IH]. Qed.

Lemma join_list_ascii (s : string) : join (list_ascii_of_string s) = s.
Proof. apply string_of_list_ascii_of_string. Qed.

Lemma contains_intro (pre needle post : string) :
  contains needle (pre ++ needle ++ post).
Proof. now exists pre, post. Qed.

(* ================================================================== *)
(** * Facts about own properties *)

Module ObjFacts.
Import Obj.

Section WithValues.
Context {V : Type}.
Implicit Types (o : Obj.t V) (k : string) (v : V).

Lemma getOwn_define_same o k v : getOwn (define o k v) k = Some v.
Proof.
  induction o as [|[k' v'] o IH]; simpl.
  - now rewrite String.eqb_refl.
  - destruct (String.eqb_spec k' k) as [->|Hne]; simpl.
    + now rewrite String.eqb_refl.
    + destruct (String.eqb_spec k' k); [contradiction | exact IH].
Qed.

Lemma getOwn_define_other o k k' v :
  k <> k' -> getOwn (define o k v) k' = getOwn o k'.
Proof.
  intros Hne. induction o as [|[k0 v0] o IH]; simpl.
  - destruct (String.eqb_spec k k'); [contradiction | reflexivity].
  - destruct (String.eqb_spec k0 k) as [->|Hk]; simpl.
    + destruct (String.eqb_spec k k'); [contradiction | reflexivity].
    + now rewrite IH.
Qed.

Lemma getOwn_None_not_In o k : getOwn o k = None <-> ~ In k (keys o).
Proof.
  induction o as [|[k' v'] o IH]; simpl.
  - tauto.
  - destruct (String.eqb_spec k' k) as [->|Hne].
    + split; [discriminate | intros H; exfalso; apply H; now left].
    + rewrite IH. split; [intros H [?|?]; [contradiction | now apply H]
                         | intros H ?; apply H; now right].
Qed.

Lemma hasOwn_In o k : hasOwn o k = true <-> In k (keys o).
Proof.
  unfold hasOwn. destruct (getOwn o k) eqn:E.
  - split; [intros _ | reflexivity].
    destruct (in_dec string_dec k (keys o)) as [H|H]; [exact H|].
    apply getOwn_None_not_In in H. congruence.
  - split; [discriminate|]. intros H. apply getOwn_None_not_In in E.
    contradiction.
Qed.


Lemma keys_define o k v :
  keys (define o k v) = if hasOwn o k then keys o else (keys o ++ [k])%list.
Proof.
  unfold hasOwn. induction o as [|[k' v'] o IH]; simpl; [reflexivity|].
  destruct (String.eqb_spec k' k) as [->|Hne]; simpl; [reflexivity|].
  rewrite IH. now destruct (getOwn o k).
Qed.

Lemma NoDup_keys_define o k v :
  NoDup (keys o) -> NoDup (keys (define o k v)).
Proof.
  intros Hnd. rewrite keys_define. unfold hasOwn.
  destruct (getOwn o k) eqn:Hg; [exact Hnd|].
  apply getOwn_None_not_In in Hg.
  apply NoDup_app; [exact Hnd | repeat constructor; intros [] | ].
  intros x Hx [<-|[]]. contradiction.
Qed.

Lemma hasOwn_define o k k' v :
  hasOwn (define o k v) k' = String.eqb k k' || hasOwn o k'.
Proof.
  unfold hasOwn. destruct (String.eqb_spec k k') as [->|Hne].
  - now rewrite getOwn_define_same.
  - now rewrite getOwn_define_other.
Qed.

Lemma Forall_define (P : string * V -> Prop) o k v :
  Forall P o -> P (k, v) -> Forall P (define o k v).
Proof.
  intros Ho Hkv. induction Ho as [|[k' v'] o Hk' Ho IH]; cbn [define].
  - now repeat constructor.
  - destruct (String.eqb_spec k' k) as [->|_]; constructor; assumption.
Qed.

(** ** Assignment *)

Lemma set_ordinary o k v : k <> "__proto__" -> set o k v = define o k v.
Proof.
  intros H. unfold set. now destruct (String.eqb_spec k "__proto__").
Qed.

Lemma set_proto o v :
  ~ In "__proto__" (keys o) -> set o "__proto__" v = o.
Proof.
  intros H. unfold set. cbn [String.eqb andb].
  destruct (hasOwn o "__proto__") eqn:E; [|reflexivity].
  apply hasOwn_In in E. contradiction.
Qed.

Lemma set_cases o k v : set o k v = o \/ set o k v = define o k v.
Proof.
  unfold set. destruct (_ && _); [now left | now right].
Qed.

Lemma getOwn_set_same o k v :
  k <> "__proto__" -> getOwn (set o k v) k = Some v.
Proof.
  intros H. rewrite set_ordinary by exact H. apply getOwn_define_same.
Qed.

Lemma getOwn_set_other o k k' v :
  k <> k' -> getOwn (set o k v) k' = getOwn o k'.
Proof.
  intros H. destruct (set_cases o k v) as [-> | ->]; [reflexivity|].
  now apply getOwn_define_other.
Qed.

Lemma NoDup_keys_set o k v : NoDup (keys o) -> NoDup (keys (set o k v)).
Proof.
  intros H. destruct (set_cases o k v) as [-> | ->]; [exact H|].
  now apply NoDup_keys_define.
Qed.

Lemma Forall_set (P : string * V -> Prop) o k v :
  Forall P o -> P (k, v) -> Forall P (set o k v).
Proof.
  intros Ho Hkv. destruct (set_cases o k v) as [-> | ->]; [exact Ho|].
  now apply Forall_define.
Qed.

(** Assignment never creates the property [__proto__]. *)
Lemma set_no_proto o k v :
  ~ In "__proto__" (keys o) -> ~ In "__proto__" (keys (set o k v)).
Proof.
  intros H. destruct (String.eqb_spec k "__proto__") as [->|Hne].
  - now rewrite set_proto.
  - rewrite set_ordinary by exact Hne. intros Hin.
    apply hasOwn_In in Hin. rewrite hasOwn_define in Hin.
    apply orb_prop in Hin as [Hin|Hin].
    + apply String.eqb_eq in Hin. contradiction.
    + apply hasOwn_In in Hin. contradiction.
Qed.

Lemma In_getOwn o k v : NoDup (keys o) -> In (k, v) o -> getOwn o k = Some v.
Proof.
  induction o as [|[k' v'] o IH]; simpl; intros Hnd Hin; [contradiction|].
  inversion Hnd as [|? ? Hnotin Hnd']; subst.
  destruct Hin as [Heq|Hin].
  - injection Heq as -> ->. now rewrite String.eqb_refl.
  - destruct (String.eqb_spec k' k) as [->|Hne].
    + exfalso. apply Hnotin. change k with (fst (k, v)). now apply in_map.
    + now apply IH.
Qed.

Lemma getOwn_Some_In o k v : getOwn o k = Some v -> In (k, v) o.
Proof.
  induction o as [|[k' v'] o IH]; cbn [getOwn]; [discriminate|].
  destruct (String.eqb_spec k' k) as [->|_].
  - intros H. injection H as ->. now left.
  - intros H. right. now apply IH.
Qed.

Lemma insert_by_index_perm (e : string * V) l :
  Permutation (insert_by_index e l) (e :: l).
Proof.
  induction l as [|e' l IH]; simpl; [reflexivity|].
  destruct (index_of (fst e) <=? index_of (fst e'))%N; [reflexivity|].
  rewrite IH. apply perm_swap.
Qed.

Lemma sort_by_index_perm (l : list (string * V)) :
  Permutation (sort_by_index l) l.
Proof.
  induction l as [|e l IH]; simpl; [reflexivity|].
  rewrite insert_by_index_perm. now constructor.
Qed.

Lemma filter_split_perm (f : string * V -> bool) l :
  Permutation (filter f l ++ filter (fun e => negb (f e)) l) l.
Proof.
  induction l as [|e l IH]; simpl; [reflexivity|].
  destruct (f e); simpl.
  - now constructor.
  - rewrite <- Permutation_middle. now constructor.
Qed.

(** [Object.entries] lists every own property exactly once. *)
Lemma entries_perm o : Permutation (entries o) o.
Proof.
  unfold entries. rewrite sort_by_index_perm. apply filter_split_perm.
Qed.

Lemma NoDup_keys_entries o : NoDup (keys o) -> NoDup (keys (entries o)).
Proof.
  intros H. unfold keys.
  eapply Permutation_NoDup; [|exact H].
  apply Permutation_map. symmetry. apply entries_perm.
Qed.


Lemma entries_values_In o (v : V) :
  In v (map snd (entries o)) <-> In v (map snd o).
Proof.
  pose proof (Permutation_map snd (entries_perm o)) as H.
  split; intros Hin.
  - eapply Permutation_in; [exact H | exact Hin].
  - eapply Permutation_in; [symmetry; exact H | exact Hin].
Qed.

End WithValues.
End ObjFacts.

(* ================================================================== *)
(** * Facts about the binding context *)



Lemma Bindings_get_own context k v :
  Obj.getOwn (Bindings.own context) k = Some v ->
  Bindings.get context k = Data v.
Proof. intros H. unfold Bindings.get. now rewrite H. Qed.


Lemma Bindings_set_ordinary context k v :
  k <> "__proto__" ->
  Bindings.set context k v
    = Bindings.mk (Obj.define (Bindings.own context) k v)
        (Bindings.proto context).
Proof.
  intros H. unfold Bindings.set.
  destruct (Obj.hasOwn (Bindings.own context) k); [reflexivity|].
  now destruct (String.eqb_spec k "__proto__").
Qed.


Lemma Bindings_get_set_other context k v n :
  k <> "__proto__" -> k <> n ->
  Bindings.get (Bindings.set context k v) n = Bindings.get context n.
Proof.
  intros H Hn. rewrite Bindings_set_ordinary by exact H.
  unfold Bindings.get. cbn [Bindings.own Bindings.proto].
  now rewrite ObjFacts.getOwn_define_other.
Qed.

(** An assignment changes the own properties at most at its key. *)
Lemma Bindings_own_set_other context k v n :
  k <> n ->
  Obj.getOwn (Bindings.own (Bindings.set context k v)) n
    = Obj.getOwn (Bindings.own context) n.
Proof.
  intros Hn. unfold Bindings.set.
  destruct (Obj.hasOwn (Bindings.own context) k).
  - cbn [Bindings.own]. now apply ObjFacts.getOwn_define_other.
  - destruct (String.eqb k "__proto__" && Bindings.inheritsSetter context).
    + now destruct v.
    + cbn [Bindings.own]. now apply ObjFacts.getOwn_define_other.
Qed.

Lemma Bindings_own_set_same context k v :
  k <> "__proto__" ->
  Obj.getOwn (Bindings.own (Bindings.set context k v)) k = Some v.
Proof.
  intros H. rewrite Bindings_set_ordinary by exact H. cbn [Bindings.own].
  apply ObjFacts.getOwn_define_same.
Qed.

(** The own properties after an assignment: those before, or those with
    the key defined. *)
Lemma Bindings_own_set_cases context k v :
  Bindings.own (Bindings.set context k v) = Bindings.own context
  \/ Bindings.own (Bindings.set context k v)
     = Obj.define (Bindings.own context) k v.
Proof.
  unfold Bindings.set. destruct (Obj.hasOwn (Bindings.own context) k).
  - now right.
  - destruct (String.eqb k "__proto__" && Bindings.inheritsSetter context).
    + left. now destruct v.
    + now right.
Qed.

(* ================================================================== *)
(** * Argument resolution *)

Section Resolution.
Context {engine : Engine}.
Implicit Types (context : Bindings.t) (arg : ArgumentValue).

(** [String] only ever fails on an object that has a property [toString]
    of its own, and then with a [TypeError]. *)
Lemma js_String_Throw (v : any) e :
  js_String v = Throw e ->
  e = TypeError
  /\ exists props, v = Data (VObject props)
                   /\ Obj.hasOwn props "toString" = true.
Proof.
  destruct v as [[| |[]|n|s|props]|m|]; cbn [js_String]; try discriminate.
  unfold toPrimitive.
  destruct (Obj.getOwn props "toString") eqn:G; [|discriminate].
  intros E. injection E as <-. split; [reflexivity|].
  exists props. split; [reflexivity|]. unfold Obj.hasOwn. now rewrite G.
Qed.


Lemma resolveArgument_reference context varName :
  resolveArgument context (VariableRef varName) =
    match Bindings.get context varName with
    | Data VUndefined => Throw (UndefinedVariable varName)
    | v => js_String v
    end.
Proof. reflexivity. Qed.



(** How resolving an argument can fail. *)
Lemma resolveArgument_Throw context arg e :
  resolveArgument context arg = Throw e ->
  exists n, arg = VariableRef n
    /\ ((e = UndefinedVariable n /\ Bindings.get context n = Data VUndefined)
        \/ (e = TypeError
            /\ exists props, Bindings.get context n = Data (VObject props)
                             /\ Obj.hasOwn props "toString" = true)).
Proof.
  destruct arg as [s|n]; [discriminate|]. intros E. exists n.
  split; [reflexivity|]. rewrite resolveArgument_reference in E.
  destruct (Bindings.get context n) as [v|m|] eqn:G.
  - destruct v as [| |b|k|s|props].
    + injection E as <-. now left.
    + discriminate.
    + now destruct b.
    + discriminate.
    + discriminate.
    + right. apply js_String_Throw in E as (-> & props' & Hp & Ht).
      split; [reflexivity|]. injection Hp as <-. now exists props.
  - discriminate.
  - discriminate.
Qed.

Lemma resolveArgument_spec context arg :
  resolveArgument context arg =
    match failure context arg with
    | Some e => Throw e
    | None => Ok (render context arg)
    end.
Proof.
  unfold failure, render. now destruct (resolveArgument context arg).
Qed.

Lemma resolvePositional_spec context (args : list ArgumentValue) :
  resolvePositional context args =
    match firstFailure context args with
    | Some e => Throw e
    | None => Ok (map (render context) args)
    end.
Proof.
  induction args as [|arg rest IH]; cbn [resolvePositional firstFailure map];
    [reflexivity|].
  rewrite resolveArgument_spec.
  destruct (failure context arg); cbn [bind]; [reflexivity|].
  rewrite IH. now destruct (firstFailure context rest).
Qed.





(** ** Rendering bound values *)




End Resolution.

(* ================================================================== *)
(** * Parsing expressions: general facts *)

Section Combinators.
Context {A : Type}.
Implicit Types (p : parser A) (s r : string).

Lemma consuming_nonincreasing p : consuming p -> nonincreasing p.
Proof. intros H s a r Hp. apply H in Hp. lia. Qed.

(** Rounds beyond the length of the input are never used. *)
Lemma starRounds_enough p :
  consuming p ->
  forall n m s,
    String.length s < n -> String.length s < m ->
    starRounds p n s = starRounds p m s.
Proof.
  intros Hc. induction n as [|n IH]; intros m s Hn Hm; [lia|].
  destruct m as [|m]; [lia|]. cbn [starRounds].
  destruct (p s) as [[a r]|] eqn:Hp; [|reflexivity].
  apply Hc in Hp. rewrite (IH m r); [reflexivity | lia | lia].
Qed.

Lemma star_stop p s : p s = None -> star p s = Some ([], s).
Proof. intros Hp. unfold star. cbn [starRounds]. now rewrite Hp. Qed.

Lemma star_step p s a r l r' :
  consuming p ->
  p s = Some (a, r) ->
  star p r = Some (l, r') ->
  star p s = Some (a :: l, r').
Proof.
  intros Hc Hp Hr. unfold star in *. cbn [starRounds]. rewrite Hp.
  assert (Hr' : starRounds p (S (String.length r)) r = (l, r')) by congruence.
  clear Hr. rename Hr' into Hr.
  rewrite (starRounds_enough p Hc (String.length s) (S (String.length r)) r).
  - now rewrite Hr.
  - now apply Hc in Hp.
  - lia.
Qed.

(** So a repetition only ends where its expression fails. *)
Lemma starRounds_ends p :
  consuming p ->
  forall n s l r,
    String.length s < n -> starRounds p n s = (l, r) -> p r = None.
Proof.
  intros Hc. induction n as [|n IH]; intros s l r Hn H; [lia|].
  cbn [starRounds] in H. destruct (p s) as [[a s']|] eqn:E.
  - destruct (starRounds p n s') as [l' r'] eqn:E'.
    injection H as _ <-. apply Hc in E. apply (IH s' l' r'); [lia | exact E'].
  - injection H as _ <-. exact E.
Qed.

Lemma star_ends p s l r :
  consuming p -> star p s = Some (l, r) -> p r = None.
Proof.
  intros Hc H. unfold star in H.
  assert (H' : starRounds p (S (String.length s)) s = (l, r)) by congruence.
  apply (starRounds_ends p Hc (S (String.length s)) s l r); [lia | exact H'].
Qed.

Lemma starRounds_nonincreasing p n :
  nonincreasing p ->
  forall s l r, starRounds p n s = (l, r) -> String.length r <= String.length s.
Proof.
  intros Hp. induction n as [|n IH]; intros s l r H; cbn [starRounds] in H.
  - injection H as _ <-. lia.
  - destruct (p s) as [[a s']|] eqn:E.
    + destruct (starRounds p n s') as [l' r''] eqn:E'.
      injection H as _ <-. apply IH in E'. apply Hp in E. lia.
    + injection H as _ <-. lia.
Qed.

Lemma star_nonincreasing p : nonincreasing p -> nonincreasing (star p).
Proof.
  intros Hp s l r H. unfold star in H.
  assert (H' : starRounds p (S (String.length s)) s = (l, r)) by congruence.
  exact (starRounds_nonincreasing p _ Hp s l r H').
Qed.

Lemma starRounds_Forall (P : A -> Prop) p n :
  (forall s a r, p s = Some (a, r) -> P a) ->
  forall s l r, starRounds p n s = (l, r) -> Forall P l.
Proof.
  intros Hp. induction n as [|n IH]; intros s l r H; cbn [starRounds] in H.
  - injection H as <- _. constructor.
  - destruct (p s) as [[a s']|] eqn:E.
    + destruct (starRounds p n s') as [l' r''] eqn:E'.
      injection H as <- _. constructor; eauto.
    + injection H as <- _. constructor.
Qed.

(** Whatever holds of every result of [p] holds of all items of [p*]. *)
Lemma star_Forall (P : A -> Prop) p :
  (forall s a r, p s = Some (a, r) -> P a) ->
  forall s l r, star p s = Some (l, r) -> Forall P l.
Proof.
  intros Hp s l r H. unfold star in H.
  assert (H' : starRounds p (S (String.length s)) s = (l, r)) by congruence.
  exact (starRounds_Forall P p _ Hp s l r H').
Qed.

End Combinators.

Lemma andThen_inv {A B} (p : parser A) (k : A -> parser B) s b r :
  andThen p k s = Some (b, r) ->
  exists a s', p s = Some (a, s') /\ k a s' = Some (b, r).
Proof.
  unfold andThen. destruct (p s) as [[a s']|]; [|discriminate].
  intros H. now exists a, s'.
Qed.

Lemma orElse_inv {A} (p q : parser A) s x :
  orElse p q s = Some x -> p s = Some x \/ q s = Some x.
Proof. unfold orElse. destruct (p s); [left | right]; assumption. Qed.

Lemma ret_inv {A} (a b : A) s r : ret a s = Some (b, r) -> b = a /\ r = s.
Proof. unfold ret. intros H. injection H as <- <-. now split. Qed.

Lemma andThen_nonincreasing {A B} (p : parser A) (k : A -> parser B) :
  nonincreasing p -> (forall a, nonincreasing (k a)) ->
  nonincreasing (andThen p k).
Proof.
  intros Hp Hk s b r H. apply andThen_inv in H as (a & s' & H1 & H2).
  apply Hp in H1. apply Hk in H2. lia.
Qed.

Lemma andThen_consuming_l {A B} (p : parser A) (k : A -> parser B) :
  consuming p -> (forall a, nonincreasing (k a)) -> consuming (andThen p k).
Proof.
  intros Hp Hk s b r H. apply andThen_inv in H as (a & s' & H1 & H2).
  apply Hp in H1. apply Hk in H2. lia.
Qed.

Lemma andThen_consuming_r {A B} (p : parser A) (k : A -> parser B) :
  nonincreasing p -> (forall a, consuming (k a)) -> consuming (andThen p k).
Proof.
  intros Hp Hk s b r H. apply andThen_inv in H as (a & s' & H1 & H2).
  apply Hp in H1. apply Hk in H2. lia.
Qed.

Lemma orElse_consuming {A} (p q : parser A) :
  consuming p -> consuming q -> consuming (orElse p q).
Proof. intros Hp Hq s a r H. apply orElse_inv in H as [H|H]; eauto. Qed.

Lemma orElse_nonincreasing {A} (p q : parser A) :
  nonincreasing p -> nonincreasing q -> nonincreasing (orElse p q).
Proof. intros Hp Hq s a r H. apply orElse_inv in H as [H|H]; eauto. Qed.

Lemma ret_nonincreasing {A} (a : A) : nonincreasing (ret a).
Proof. intros s b r H. apply ret_inv in H as [_ ->]. lia. Qed.

Lemma charClass_consuming f : consuming (charClass f).
Proof.
  intros [|c s] a r H; simpl in H; [discriminate|].
  destruct (f c); [|discriminate]. injection H as _ <-. simpl. lia.
Qed.

Lemma stripPrefix_length t s r :
  stripPrefix t s = Some r -> String.length s = String.length t + String.length r.
Proof.
  revert s. induction t as [|c t IH]; intros s H; simpl in H.
  - now injection H as ->.
  - destruct s as [|d s]; [discriminate|].
    destruct (Ascii.eqb c d); [|discriminate]. apply IH in H. simpl. lia.
Qed.

Lemma lit_consuming c t : consuming (lit (String c t)).
Proof.
  intros s a r H. unfold lit in H.
  destruct (stripPrefix (String c t) s) eqn:E; [|discriminate].
  injection H as _ <-. apply stripPrefix_length in E. simpl in E. lia.
Qed.

Lemma pmap_consuming {A B} (f : A -> B) (p : parser A) :
  consuming p -> consuming (pmap f p).
Proof.
  intros Hp. apply andThen_consuming_l; [exact Hp|].
  intros a. apply ret_nonincreasing.
Qed.

Lemma plus_consuming {A} (p : parser A) : consuming p -> consuming (plus p).
Proof.
  intros Hp. apply andThen_consuming_l; [exact Hp|].
  intros a. apply andThen_nonincreasing.
  - apply star_nonincreasing. now apply consuming_nonincreasing.
  - intros l. apply ret_nonincreasing.
Qed.

Create HintDb peg.

#[local] Hint Resolve ret_nonincreasing charClass_consuming : peg.

(** Bounds the input left over by a parsing expression, following its
    shape; named rules are looked up among the hints. *)
Ltac peg_size :=
  cbv beta;
  lazymatch goal with
  | |- nonincreasing (ret _) => apply ret_nonincreasing
  | |- nonincreasing (star _) => apply star_nonincreasing; peg_size
  | |- nonincreasing (andThen _ _) =>
      apply andThen_nonincreasing; [peg_size | intros ?; peg_size]
  | |- nonincreasing (orElse _ _) => apply orElse_nonincreasing; peg_size
  | |- nonincreasing (pmap _ _) => unfold pmap; peg_size
  | |- nonincreasing _ =>
      first [ solve [auto with peg]
            | apply consuming_nonincreasing; peg_size ]
  | |- consuming (andThen _ _) =>
      first [ apply andThen_consuming_l; [solve [peg_size] | intros ?; peg_size]
            | apply andThen_consuming_r; [solve [peg_size] | intros ?; peg_size] ]
  | |- consuming (orElse _ _) => apply orElse_consuming; peg_size
  | |- consuming (charClass _) => apply charClass_consuming
  | |- consuming (lit _) => apply lit_consuming
  | |- consuming (plus _) => apply plus_consuming; peg_size
  | |- consuming (pmap _ _) => apply pmap_consuming; peg_size
  | |- consuming _ => solve [auto with peg]
  end.

(** ** Repetition of a character class *)

Lemma star_charClass f pre rest :
  allChars f pre = true -> stopsAt f rest = true ->
  star (charClass f) (pre ++ rest) = Some (list_ascii_of_string pre, rest).
Proof.
  intros Hpre Hrest. induction pre as [|c pre IH]; simpl in *.
  - apply star_stop. destruct rest as [|d rest]; simpl in *; [reflexivity|].
    now destruct (f d).
  - apply andb_prop in Hpre as [Hc Hpre].
    eapply star_step; [auto with peg | simpl; now rewrite Hc | now apply IH].
Qed.

Lemma plus_charClass f pre rest :
  nonEmpty pre = true -> allChars f pre = true -> stopsAt f rest = true ->
  plus (charClass f) (pre ++ rest) = Some (list_ascii_of_string pre, rest).
Proof.
  intros Hne Hpre Hrest. destruct pre as [|c pre]; [discriminate|].
  simpl in Hpre. apply andb_prop in Hpre as [Hc Hpre].
  unfold plus, andThen. cbn [append charClass]. rewrite Hc.
  now rewrite (star_charClass f pre rest Hpre Hrest).
Qed.

Lemma plus_charClass_fails f s :
  stopsAt f s = true -> plus (charClass f) s = None.
Proof.
  intros H. unfold plus, andThen. destruct s as [|c s]; simpl in *; [reflexivity|].
  now destruct (f c).
Qed.

Lemma star_charClass_span f s :
  star (charClass f) s
    = Some (list_ascii_of_string (takeWhile f s), dropWhile f s).
Proof.
  induction s as [|c s IH]; [reflexivity|].
  cbn [takeWhile dropWhile]. destruct (f c) eqn:Hc.
  - eapply star_step; [auto with peg | simpl; now rewrite Hc | exact IH].
  - apply star_stop. simpl. now rewrite Hc.
Qed.

Lemma dropWhile_app f pre s :
  allChars f pre = true -> dropWhile f (pre ++ s) = dropWhile f s.
Proof.
  induction pre as [|c pre IH]; simpl; [reflexivity|].
  intros H. apply andb_prop in H as [-> H]. now apply IH.
Qed.

Lemma dropWhile_length f s : String.length (dropWhile f s) <= String.length s.
Proof.
  induction s as [|c s IH]; simpl; [lia|]. destruct (f c); simpl; lia.
Qed.

(* ================================================================== *)
(** * The lexical rules *)

(** Decides a closed fact about one character by trying all of them. *)
Ltac by_all_chars c :=
  destruct c as [[] [] [] [] [] [] [] []]; vm_compute; try reflexivity;
  try discriminate; intuition congruence.

Lemma identifierChar_noSkip c r :
  identifierChar c = true -> noSkipAhead (String c r) = true.
Proof. unfold noSkipAhead. by_all_chars c. Qed.

Lemma whitespaceChar_cases c :
  whitespaceChar c = true ->
  c = " "%char \/ c = tab \/ c = newline \/ c = carriage_return.
Proof. by_all_chars c. Qed.

Lemma Identifier_app a rest :
  isIdentifier a = true -> stopsAt identifierChar rest = true ->
  Identifier (a ++ rest) = Some (a, rest).
Proof.
  unfold isIdentifier. intros Ha Hrest. apply andb_prop in Ha as [Hne Hall].
  unfold Identifier, pmap, andThen.
  rewrite (plus_charClass _ _ _ Hne Hall Hrest). unfold ret.
  now rewrite join_list_ascii.
Qed.

Lemma CommandName_app a rest :
  nonEmpty a = true -> allChars commandNameChar a = true ->
  stopsAt commandNameChar rest = true ->
  CommandName (a ++ rest) = Some (a, rest).
Proof.
  intros Hne Hall Hrest. unfold CommandName, pmap, andThen.
  rewrite (plus_charClass _ _ _ Hne Hall Hrest). unfold ret.
  now rewrite join_list_ascii.
Qed.

Lemma UnquotedString_app a rest :
  nonEmpty a = true -> allChars unquotedChar a = true ->
  stopsAt unquotedChar rest = true ->
  UnquotedString (a ++ rest) = Some (a, rest).
Proof.
  intros Hne Hall Hrest. unfold UnquotedString, pmap, andThen.
  rewrite (plus_charClass _ _ _ Hne Hall Hrest). unfold ret.
  now rewrite join_list_ascii.
Qed.

Lemma Identifier_fails s :
  stopsAt identifierChar s = true -> Identifier s = None.
Proof.
  intros H. unfold Identifier, pmap, andThen.
  now rewrite plus_charClass_fails.
Qed.

(** ** Rule [_] *)

Lemma Comment_consuming : consuming Comment.
Proof. unfold Comment. peg_size. Qed.

#[local] Hint Resolve Comment_consuming : peg.

Lemma skipItem_consuming : consuming skipItem.
Proof. unfold skipItem. peg_size. Qed.

#[local] Hint Resolve skipItem_consuming : peg.

Lemma Skip_nonincreasing : nonincreasing Skip.
Proof. unfold Skip. peg_size. Qed.

#[local] Hint Resolve Skip_nonincreasing : peg.

Lemma skipItem_none s : noSkipAhead s = true -> skipItem s = None.
Proof.
  destruct s as [|c r]; [reflexivity|]. unfold noSkipAhead. intros H.
  apply andb_prop in H as [H H3]. apply andb_prop in H as [H1 H2].
  apply negb_true_iff in H1, H2, H3.
  unfold skipItem, orElse, andThen, Comment, lit, andThen.
  cbn [charClass stripPrefix char]. rewrite H1.
  rewrite Ascii.eqb_sym in H2. rewrite H2.
  rewrite Ascii.eqb_sym in H3. now rewrite H3.
Qed.

Lemma Skip_none s : noSkipAhead s = true -> Skip s = Some (tt, s).
Proof.
  intros H. unfold Skip, andThen.
  now rewrite (star_stop _ _ (skipItem_none s H)).
Qed.

Lemma Skip_step s r :
  skipItem s = Some (tt, r) -> Skip r = Some (tt, "") -> Skip s = Some (tt, "").
Proof.
  unfold Skip, andThen. intros Hs Hr.
  destruct (star skipItem r) as [[l r']|] eqn:E; [|discriminate].
  unfold ret in Hr. injection Hr as ->.
  now rewrite (star_step _ _ _ _ _ _ skipItem_consuming Hs E).
Qed.

Lemma Skip_space s : Skip (String " " s) = Skip s.
Proof.
  unfold Skip, andThen.
  destruct (star skipItem s) as [[l r]|] eqn:E.
  - now rewrite (star_step skipItem (String " " s) tt s l r
                   skipItem_consuming eq_refl E).
  - unfold star in E. discriminate.
Qed.

Lemma blank_dropWhile s : blank s -> blank (dropWhile notLineEnd s).
Proof.
  induction 1 as [|c s Hc Hs IH|s Hs IH|text s Ht Hs IH].
  - constructor.
  - cbn [dropWhile].
    apply whitespaceChar_cases in Hc as [ -> | [ -> | [ -> | -> ] ] ]; cbn;
      solve [exact IH | now constructor].
  - cbn. now constructor.
  - cbn. now rewrite dropWhile_app.
Qed.

Lemma skipItem_comment text s :
  skipItem ("//" ++ text ++ s)
    = Some (tt, dropWhile notLineEnd (text ++ s)).
Proof.
  unfold skipItem, orElse, andThen, Comment, lit, andThen.
  cbn [append charClass stripPrefix char].
  change (whitespaceChar "/") with false.
  change (Ascii.eqb backslash "/") with false.
  change (Ascii.eqb "/" "/") with true.
  cbv iota beta. now rewrite star_charClass_span.
Qed.

(** On a blank input rule [_] consumes everything. *)
Lemma Skip_blank s : blank s -> Skip s = Some (tt, "").
Proof.
  remember (String.length s) as n eqn:Hn.
  revert s Hn. induction n as [n IH] using lt_wf_ind. intros s Hn Hb.
  destruct Hb as [|c s Hc Hs|s Hs|text s Ht Hs].
  - reflexivity.
  - apply Skip_step with (r := s).
    + unfold skipItem, orElse, andThen. cbn [charClass]. now rewrite Hc.
    + apply (IH (String.length s)); [subst; simpl; lia | reflexivity | exact Hs].
  - apply Skip_step with (r := s).
    + reflexivity.
    + apply (IH (String.length s)); [subst; simpl; lia | reflexivity | exact Hs].
  - apply Skip_step with (r := dropWhile notLineEnd (text ++ s)).
    + apply skipItem_comment.
    + apply (IH (String.length (dropWhile notLineEnd (text ++ s)))).
      * subst. pose proof (dropWhile_length notLineEnd (text ++ s)).
        simpl. lia.
      * reflexivity.
      * rewrite dropWhile_app by exact Ht. now apply blank_dropWhile.
Qed.

(** C9.  Parsing the empty string, and parsing any input made only of
    whitespace, line continuations and line comments, yields the empty
    statement sequence and raises no error. *)
Theorem tokenize_blank {peggy : Peggy} :
  tokenize "" = Ok []
  /\ forall s, blank s -> tokenize s = Ok [].
Proof.
  split; [reflexivity|]. intros s Hb. unfold tokenize.
  destruct (String.eqb s ""); [reflexivity|].
  unfold parse, Program, andThen. rewrite (Skip_blank s Hb).
  reflexivity.
Qed.

(* ================================================================== *)
(** * Values, arguments and commands *)

Lemma Identifier_consuming : consuming Identifier.
Proof. unfold Identifier. peg_size. Qed.

Lemma CommandName_consuming : consuming CommandName.
Proof. unfold CommandName. peg_size. Qed.

Lemma UnquotedString_consuming : consuming UnquotedString.
Proof. unfold UnquotedString. peg_size. Qed.

Lemma quotedItem_consuming : consuming quotedItem.
Proof. unfold quotedItem, anyChar. peg_size. Qed.

#[local] Hint Resolve Identifier_consuming CommandName_consuming
  UnquotedString_consuming quotedItem_consuming : peg.

Lemma QuotedString_consuming : consuming QuotedString.
Proof. unfold QuotedString. peg_size. Qed.

#[local] Hint Resolve QuotedString_consuming : peg.

Lemma Value_consuming : consuming Value.
Proof. unfold Value, VariableReference, LiteralRule. peg_size. Qed.

#[local] Hint Resolve Value_consuming : peg.

Lemma Argument_consuming : consuming Argument.
Proof. unfold Argument, NamedArgument, PositionalArgument. peg_size. Qed.

#[local] Hint Resolve Argument_consuming : peg.

Lemma argumentItem_consuming : consuming argumentItem.
Proof. unfold argumentItem. peg_size. Qed.

#[local] Hint Resolve argumentItem_consuming : peg.

Lemma CommandExpression_consuming : consuming CommandExpression.
Proof. unfold CommandExpression, CommandRule. peg_size. Qed.

#[local] Hint Resolve CommandExpression_consuming : peg.

Lemma StatementRule_consuming : consuming StatementRule.
Proof. unfold StatementRule, AssignmentRule, ExecutableCommandRule. peg_size. Qed.

#[local] Hint Resolve StatementRule_consuming : peg.

(** ** Quoted strings *)

Lemma star_quotedItem_close rest :
  star quotedItem (String dquote rest) = Some ([], String dquote rest).
Proof. apply star_stop. reflexivity. Qed.

Lemma star_quotedItem_plain pre t l r :
  allChars plainQuotedChar pre = true ->
  star quotedItem t = Some (l, r) ->
  star quotedItem (pre ++ t)
    = Some ((map inl (list_ascii_of_string pre) ++ l)%list, r).
Proof.
  intros Hpre Ht. induction pre as [|c pre IH]; simpl in *; [exact Ht|].
  apply andb_prop in Hpre as [Hc Hpre].
  eapply star_step; [auto with peg | | now apply IH].
  unfold quotedItem, orElse, pmap, andThen. cbn [charClass]. now rewrite Hc.
Qed.

Lemma star_quotedItem_escape c t l r :
  star quotedItem t = Some (l, r) ->
  star quotedItem (String backslash (String c t))
    = Some (inr (char backslash, c) :: l, r).
Proof.
  intros Ht. eapply star_step; [auto with peg | reflexivity | exact Ht].
Qed.

Lemma join_unescape_plain (l : list ascii) :
  join (map unescape (map inl l)) = join l.
Proof. induction l as [|c l IH]; simpl; [reflexivity | now rewrite IH]. Qed.

Lemma QuotedString_items items body rest :
  star quotedItem (body ++ String dquote rest)
    = Some (items, String dquote rest) ->
  QuotedString (String dquote (body ++ String dquote rest))
    = Some (join (map unescape items), rest).
Proof.
  intros H. unfold QuotedString, andThen, lit.
  cbn [stripPrefix char]. rewrite Ascii.eqb_refl. rewrite H.
  cbn [stripPrefix char]. now rewrite Ascii.eqb_refl.
Qed.

Lemma QuotedString_plain s rest :
  allChars plainQuotedChar s = true ->
  QuotedString (String dquote (s ++ String dquote rest)) = Some (s, rest).
Proof.
  intros Hs.
  rewrite (QuotedString_items (map inl (list_ascii_of_string s) ++ [])).
  - now rewrite app_nil_r, join_unescape_plain, join_list_ascii.
  - apply star_quotedItem_plain; [exact Hs | apply star_quotedItem_close].
Qed.

Lemma QuotedString_escape c pre post rest :
  allChars plainQuotedChar pre = true ->
  allChars plainQuotedChar post = true ->
  QuotedString
    (String dquote
       (pre ++ String backslash (String c (post ++ String dquote rest))))
    = Some (pre ++ String c post, rest).
Proof.
  intros Hpre Hpost.
  replace (pre ++ String backslash (String c (post ++ String dquote rest)))
    with ((pre ++ String backslash (String c post)) ++ String dquote rest)
    by (rewrite append_assoc; reflexivity).
  rewrite (QuotedString_items
             (map inl (list_ascii_of_string pre)
                ++ inr (char backslash, c)
                :: (map inl (list_ascii_of_string post) ++ []))).
  - rewrite map_app, join_app. cbn [map unescape join string_of_list_ascii].
    fold (join (map unescape (map inl (list_ascii_of_string pre)))).
    fold (join (map unescape (map inl (list_ascii_of_string post) ++ []))).
    now rewrite app_nil_r, !join_unescape_plain, !join_list_ascii.
  - rewrite append_assoc. cbn [append].
    apply star_quotedItem_plain; [exact Hpre|].
    apply star_quotedItem_escape.
    apply star_quotedItem_plain; [exact Hpost | apply star_quotedItem_close].
Qed.

Lemma star_quotedItem_escapeAll s rest :
  star quotedItem (escapeAll s ++ String dquote rest)
    = Some (map (fun c => inr (char backslash, c)) (list_ascii_of_string s),
            String dquote rest).
Proof.
  induction s as [|c s IH]; cbn [escapeAll append list_ascii_of_string map].
  - apply star_quotedItem_close.
  - now apply star_quotedItem_escape.
Qed.

Lemma join_unescape_escaped (l : list ascii) :
  join (map unescape (map (fun c => inr (char backslash, c)) l)) = join l.
Proof. induction l as [|c l IH]; simpl; [reflexivity | now rewrite IH]. Qed.

Lemma QuotedString_escapeAll s rest :
  QuotedString (String dquote (escapeAll s ++ String dquote rest))
    = Some (s, rest).
Proof.
  rewrite (QuotedString_items _ _ _ (star_quotedItem_escapeAll s rest)).
  now rewrite join_unescape_escaped, join_list_ascii.
Qed.

Lemma QuotedString_fails s :
  stopsAt (Ascii.eqb dquote) s = true -> QuotedString s = None.
Proof.
  intros H. unfold QuotedString, andThen, lit.
  destruct s as [|c s]; [reflexivity|]. cbn [stopsAt] in H.
  apply negb_true_iff in H. cbn [stripPrefix char]. now rewrite H.
Qed.

Lemma VariableReference_fails c s :
  c <> "$"%char -> VariableReference (String c s) = None.
Proof.
  intros H. unfold VariableReference, andThen, lit. cbn [stripPrefix].
  destruct (Ascii.eqb_spec "$" c) as [E|_]; [now subst | reflexivity].
Qed.

Lemma Value_quoted s rest :
  allChars plainQuotedChar s = true ->
  Value (String dquote (s ++ String dquote rest)) = Some (Literal s, rest).
Proof.
  intros Hs. unfold Value, orElse.
  rewrite VariableReference_fails by discriminate.
  unfold LiteralRule, pmap, andThen, orElse.
  now rewrite (QuotedString_plain s rest Hs).
Qed.

Lemma Value_bareWord b rest :
  isBareWord b = true -> stopsAt unquotedChar rest = true ->
  Value (b ++ rest) = Some (Literal b, rest).
Proof.
  unfold isBareWord. intros Hb Hrest.
  apply andb_prop in Hb as [Hb Hq]. apply andb_prop in Hb as [Hne Hall].
  destruct b as [|c b]; [discriminate|].
  unfold Value, orElse. cbn [append].
  rewrite VariableReference_fails.
  - unfold LiteralRule, pmap, andThen, orElse.
    rewrite QuotedString_fails by exact Hq.
    change (String c (b ++ rest)) with (String c b ++ rest).
    now rewrite (UnquotedString_app _ _ Hne Hall Hrest).
  - intros ->. discriminate.
Qed.

(** ** Arguments *)

Lemma NamedArgument_app a s v rest :
  isIdentifier a = true -> Value s = Some (v, rest) ->
  NamedArgument (a ++ ":" ++ s) = Some (named a v, rest).
Proof.
  intros Ha Hv. unfold NamedArgument, andThen.
  rewrite (Identifier_app a (":" ++ s) Ha eq_refl).
  unfold lit. cbn [append stripPrefix]. rewrite Ascii.eqb_refl.
  now rewrite Hv.
Qed.

Lemma Argument_named a s v rest :
  isIdentifier a = true -> Value s = Some (v, rest) ->
  Argument (a ++ ":" ++ s) = Some (named a v, rest).
Proof.
  intros Ha Hv. unfold Argument, orElse.
  now rewrite (NamedArgument_app a s v rest Ha Hv).
Qed.

Lemma Argument_quoted s rest :
  allChars plainQuotedChar s = true ->
  Argument (String dquote (s ++ String dquote rest))
    = Some (positional (Literal s), rest).
Proof.
  intros Hs. unfold Argument, orElse, NamedArgument, andThen.
  rewrite Identifier_fails by reflexivity.
  unfold PositionalArgument, andThen. now rewrite (Value_quoted s rest Hs).
Qed.

Lemma commandNameChar_noSkip c r :
  commandNameChar c = true -> noSkipAhead (String c r) = true.
Proof. unfold noSkipAhead. by_all_chars c. Qed.

Lemma CommandExpression_app cmdName body args :
  nonEmpty cmdName = true -> allChars commandNameChar cmdName = true ->
  stopsAt commandNameChar (body ++ ")") = true ->
  star argumentItem (body ++ ")") = Some (args, ")") ->
  CommandExpression ("(" ++ cmdName ++ body ++ ")")
    = Some (buildCommand cmdName (map snd args), "").
Proof.
  intros Hne Hall Hstop Hargs.
  unfold CommandExpression, andThen, lit. cbn [append stripPrefix].
  rewrite Ascii.eqb_refl.
  rewrite Skip_none.
  - unfold CommandRule, andThen.
    rewrite (CommandName_app _ _ Hne Hall Hstop), Hargs. unfold ret.
    rewrite Skip_none by reflexivity. cbn [stripPrefix].
    now rewrite Ascii.eqb_refl.
  - destruct cmdName as [|c cmdName]; [discriminate|]. cbn [append].
    apply commandNameChar_noSkip. simpl in Hall.
    now apply andb_prop in Hall as [-> _].
Qed.

(** A single parenthesised command, given how its argument list parses. *)
Lemma tokenize_command {peggy : Peggy} cmdName body args :
  nonEmpty cmdName = true -> allChars commandNameChar cmdName = true ->
  stopsAt commandNameChar (body ++ ")") = true ->
  star argumentItem (body ++ ")") = Some (args, ")") ->
  tokenize ("(" ++ cmdName ++ body ++ ")")
    = Ok [ExecutableCommand (buildCommand cmdName (map snd args))].
Proof.
  intros Hne Hall Hstop Hargs.
  pose proof (CommandExpression_app _ _ _ Hne Hall Hstop Hargs) as Hce.
  assert (Hst : StatementRule ("(" ++ cmdName ++ body ++ ")")
                = Some (ExecutableCommand
                          (buildCommand cmdName (map snd args)), "")).
  { unfold StatementRule, orElse, AssignmentRule, andThen.
    rewrite Identifier_fails by reflexivity.
    unfold ExecutableCommandRule, andThen. now rewrite Hce. }
  unfold tokenize. cbn [append String.eqb].
  unfold parse, Program, andThen. rewrite Skip_none by reflexivity.
  cbn [append] in Hst.
  now rewrite (star_step _ _ _ _ _ _ StatementRule_consuming Hst
                 (star_stop StatementRule "" eq_refl)).
Qed.

Lemma argumentItem_space s a rest :
  noSkipAhead s = true -> Argument s = Some (a, rest) ->
  argumentItem (String " " s) = Some ((tt, a), rest).
Proof.
  intros Hs Ha. unfold argumentItem, andThen.
  rewrite Skip_space, (Skip_none s Hs). now rewrite Ha.
Qed.

Lemma isIdentifier_noSkip a s :
  isIdentifier a = true -> noSkipAhead (a ++ s) = true.
Proof.
  unfold isIdentifier. destruct a as [|c a]; [discriminate|]. simpl.
  intros H. apply andb_prop in H as [H _].
  now apply (identifierChar_noSkip c (a ++ s)).
Qed.

(** The argument list [ a:b] in front of a closing parenthesis or of
    further arguments. *)
Lemma argumentItem_named_bareWord a b rest :
  isIdentifier a = true -> isBareWord b = true ->
  stopsAt unquotedChar rest = true ->
  argumentItem (" " ++ a ++ ":" ++ b ++ rest)
    = Some ((tt, named a (Literal b)), rest).
Proof.
  intros Ha Hb Hrest. cbn [append].
  apply argumentItem_space.
  - now apply isIdentifier_noSkip.
  - apply Argument_named; [exact Ha|]. now apply Value_bareWord.
Qed.

Lemma star_argumentItem_close :
  star argumentItem ")" = Some ([], ")").
Proof. apply star_stop. reflexivity. Qed.

(* ================================================================== *)

(** * Quoting and precedence *)

(** C8.  For every string [s] without double quote and backslash,
    the quoted text of [s] parses as a positional argument whose value is
    the literal [s], also as the sole argument of a command; inside a
    quoted string a backslash followed by any character [c] decodes to [c]
    alone; and a quoted string in which every character is escaped decodes
    to those characters, whatever they are. *)
Theorem quoted_string_decoding {peggy : Peggy} :
  (forall s rest,
      allChars plainQuotedChar s = true ->
      Argument (String dquote (s ++ String dquote rest))
        = Some (positional (Literal s), rest))
  /\ (forall s,
        allChars plainQuotedChar s = true ->
        tokenize ("(cmd " ++ String dquote (s ++ String dquote ")"))
          = Ok [ExecutableCommand (mkCommand "cmd" [Literal s] Obj.empty)])
  /\ (forall c pre post rest,
        allChars plainQuotedChar pre = true ->
        allChars plainQuotedChar post = true ->
        QuotedString
          (String dquote
             (pre ++ String backslash (String c (post ++ String dquote rest))))
          = Some (pre ++ String c post, rest))
  /\ (forall s rest,
        QuotedString (String dquote (escapeAll s ++ String dquote rest))
          = Some (s, rest)).
Proof.
  split; [|split; [|split]]; [| | |apply QuotedString_escapeAll].
  - apply Argument_quoted.
  - intros s Hs.
    pose proof (tokenize_command "cmd"
                  (String " " (String dquote (s ++ char dquote)))
                  [(tt, positional (Literal s))] eq_refl eq_refl eq_refl) as H.
    cbn [append] in H. rewrite append_assoc in H. cbn [append char] in H.
    apply H.
    eapply star_step; [auto with peg | | apply star_argumentItem_close].
    apply argumentItem_space; [reflexivity|]. now apply Argument_quoted.
  - intros. now apply QuotedString_escape.
Qed.

Lemma allChars_takeWhile f s : allChars f (takeWhile f s) = true.
Proof.
  induction s as [|c s IH]; simpl; [reflexivity|].
  destruct (f c) eqn:E; simpl; [now rewrite E | reflexivity].
Qed.






(* ================================================================== *)
(** * Collecting the arguments: [buildCommand] *)

Lemma collect_getOwn args : forall cmd k,
  k <> "__proto__" ->
  Obj.getOwn (namedArgs (fold_left collect args cmd)) k =
    match lastNamed k args with
    | Some v => Some v
    | None => Obj.getOwn (namedArgs cmd) k
    end.
Proof.
  induction args as [|arg rest IH]; intros cmd k Hk; [reflexivity|].
  cbn [fold_left lastNamed]. rewrite IH by exact Hk.
  destruct (lastNamed k rest); [reflexivity|].
  destruct arg as [v|k' v]; cbn [collect namedArgs]; [reflexivity|].
  destruct (String.eqb_spec k' k) as [->|Hne].
  - now apply ObjFacts.getOwn_set_same.
  - now apply ObjFacts.getOwn_set_other.
Qed.

Lemma collect_NoDup args : forall cmd,
  NoDup (Obj.keys (namedArgs cmd)) ->
  NoDup (Obj.keys (namedArgs (fold_left collect args cmd))).
Proof.
  induction args as [|arg rest IH]; intros cmd Hnd; [exact Hnd|].
  cbn [fold_left]. apply IH.
  destruct arg as [v|k v]; cbn [collect namedArgs]; [exact Hnd|].
  now apply ObjFacts.NoDup_keys_set.
Qed.

Lemma collect_no_proto args : forall cmd,
  ~ In "__proto__" (Obj.keys (namedArgs cmd)) ->
  ~ In "__proto__" (Obj.keys (namedArgs (fold_left collect args cmd))).
Proof.
  induction args as [|arg rest IH]; intros cmd Hp; [exact Hp|].
  cbn [fold_left]. apply IH.
  destruct arg as [v|k v]; cbn [collect namedArgs]; [exact Hp|].
  now apply ObjFacts.set_no_proto.
Qed.

Lemma collect_positional args : forall cmd,
  positionalArgs (fold_left collect args cmd)
    = (positionalArgs cmd ++ positionals args)%list.
Proof.
  induction args as [|arg rest IH]; intros cmd; cbn [fold_left positionals].
  - now rewrite app_nil_r.
  - rewrite IH. destruct arg as [v|k v]; cbn [collect positionalArgs].
    + now rewrite <- app_assoc.
    + reflexivity.
Qed.

Lemma collect_name args : forall cmd,
  name (fold_left collect args cmd) = name cmd.
Proof.
  induction args as [|arg rest IH]; intros cmd; [reflexivity|].
  cbn [fold_left]. rewrite IH. now destruct arg.
Qed.

Lemma buildCommand_getOwn cmdName args k :
  k <> "__proto__" ->
  Obj.getOwn (namedArgs (buildCommand cmdName args)) k = lastNamed k args.
Proof.
  intros Hk. unfold buildCommand. rewrite collect_getOwn by exact Hk.
  now destruct (lastNamed k args).
Qed.

Lemma buildCommand_NoDup cmdName args :
  NoDup (Obj.keys (namedArgs (buildCommand cmdName args))).
Proof. unfold buildCommand. apply collect_NoDup. constructor. Qed.

Lemma buildCommand_no_proto cmdName args :
  ~ In "__proto__" (Obj.keys (namedArgs (buildCommand cmdName args))).
Proof. unfold buildCommand. apply collect_no_proto. intros []. Qed.

Lemma buildCommand_positional cmdName args :
  positionalArgs (buildCommand cmdName args) = positionals args.
Proof. unfold buildCommand. now rewrite collect_positional. Qed.

Lemma buildCommand_name cmdName args : name (buildCommand cmdName args) = cmdName.
Proof. unfold buildCommand. now rewrite collect_name. Qed.


Lemma buildCommand_twice cmdName a v1 v2 :
  a <> "__proto__" ->
  buildCommand cmdName [named a v1; named a v2] = mkCommand cmdName [] [(a, v2)].
Proof.
  intros Ha. unfold buildCommand.
  cbn [fold_left collect name positionalArgs namedArgs].
  rewrite !ObjFacts.set_ordinary by exact Ha. cbn [Obj.define Obj.empty].
  now rewrite String.eqb_refl.
Qed.


(** ** Every parsed command has been through [buildCommand] *)

Lemma CommandExpression_built s cmd r :
  CommandExpression s = Some (cmd, r) ->
  exists cmdName args, cmd = buildCommand cmdName args.
Proof.
  unfold CommandExpression. intros E.
  apply andThen_inv in E as (x1 & s1 & _ & E).
  apply andThen_inv in E as (x2 & s2 & _ & E).
  apply andThen_inv in E as (c & s3 & Hc & E).
  apply andThen_inv in E as (x4 & s4 & _ & E).
  apply andThen_inv in E as (x5 & s5 & _ & E).
  apply ret_inv in E as [-> _].
  unfold CommandRule in Hc.
  apply andThen_inv in Hc as (n & t1 & _ & Hc).
  apply andThen_inv in Hc as (args & t2 & _ & Hc).
  apply ret_inv in Hc as [-> _]. now exists n, (map snd args).
Qed.

Lemma StatementRule_built s stmt r :
  StatementRule s = Some (stmt, r) ->
  exists cmdName args, command stmt = buildCommand cmdName args.
Proof.
  unfold StatementRule. intros E. apply orElse_inv in E as [E|E].
  - unfold AssignmentRule in E.
    apply andThen_inv in E as (v & s1 & _ & E).
    apply andThen_inv in E as (x2 & s2 & _ & E).
    apply andThen_inv in E as (x3 & s3 & _ & E).
    apply andThen_inv in E as (c & s4 & Hc & E).
    apply andThen_inv in E as (x5 & s5 & _ & E).
    apply ret_inv in E as [-> _].
    exact (CommandExpression_built _ _ _ Hc).
  - unfold ExecutableCommandRule in E.
    apply andThen_inv in E as (c & s1 & Hc & E).
    apply andThen_inv in E as (x2 & s2 & _ & E).
    apply ret_inv in E as [-> _].
    exact (CommandExpression_built _ _ _ Hc).
Qed.

Lemma tokenize_built {peggy : Peggy} input statements :
  tokenize input = Ok statements ->
  Forall (fun stmt => exists cmdName args,
                        command stmt = buildCommand cmdName args) statements.
Proof.
  unfold tokenize. destruct (String.eqb input "").
  - intros E. injection E as <-. constructor.
  - unfold parse. destruct (Program input) as [[l r]|] eqn:E; [|discriminate].
    destruct r; [|discriminate]. intros E'. injection E' as <-.
    unfold Program in E.
    apply andThen_inv in E as (x1 & s1 & _ & E).
    apply andThen_inv in E as (l' & s2 & Hl & E).
    apply andThen_inv in E as (x3 & s3 & _ & E).
    apply ret_inv in E as [-> _].
    eapply star_Forall; [|exact Hl]. apply StatementRule_built.
Qed.

Lemma tokenize_uniqueKeys {peggy : Peggy} input statements :
  tokenize input = Ok statements -> Forall uniqueKeys statements.
Proof.
  intros E. apply tokenize_built in E.
  eapply Forall_impl; [|exact E].
  intros stmt (n & args & Hc). unfold uniqueKeys. rewrite Hc.
  apply buildCommand_NoDup.
Qed.

(** C6.  The argument-collection step keeps, for every key but
    [__proto__], the value of the last named argument with that key; every
    command the parser outputs has each named key once; and an input
    repeating such a key, [(cmd a:v1 a:v2)], is accepted and yields the
    single entry [a: v2].  For the key [__proto__] the step keeps nothing:
    [(cmd __proto__:v1 __proto__:v2)] is accepted and yields a command
    without named arguments. *)
Theorem repeated_named_key_last_wins {peggy : Peggy} :
  (forall cmdName args k,
      k <> "__proto__" ->
      Obj.getOwn (namedArgs (buildCommand cmdName args)) k = lastNamed k args)
  /\ (forall input statements,
        tokenize input = Ok statements ->
        Forall (fun stmt => NoDup (Obj.keys (namedArgs (command stmt))))
          statements)
  /\ (forall a v1 v2,
        isIdentifier a = true -> a <> "__proto__" ->
        isBareWord v1 = true -> isBareWord v2 = true ->
        tokenize ("(cmd " ++ a ++ ":" ++ v1 ++ " " ++ a ++ ":" ++ v2 ++ ")")
          = Ok [ExecutableCommand (mkCommand "cmd" [] [(a, Literal v2)])])
  /\ (forall cmdName args,
        Obj.getOwn (namedArgs (buildCommand cmdName args)) "__proto__" = None)
  /\ (forall v1 v2,
        isBareWord v1 = true -> isBareWord v2 = true ->
        tokenize ("(cmd __proto__:" ++ v1 ++ " __proto__:" ++ v2 ++ ")")
          = Ok [ExecutableCommand (mkCommand "cmd" [] [])]).
Proof.
  assert (Htwice : forall a v1 v2,
             isIdentifier a = true ->
             isBareWord v1 = true -> isBareWord v2 = true ->
             tokenize ("(cmd " ++ a ++ ":" ++ v1 ++ " " ++ a ++ ":" ++ v2 ++ ")")
               = Ok [ExecutableCommand
                       (buildCommand "cmd"
                          [named a (Literal v1); named a (Literal v2)])]).
  { intros a v1 v2 Ha H1 H2.
    pose proof (tokenize_command "cmd"
                  ((" " ++ a ++ ":" ++ v1) ++ " " ++ a ++ ":" ++ v2)
                  [(tt, named a (Literal v1)); (tt, named a (Literal v2))]
                  eq_refl eq_refl eq_refl) as E.
    rewrite !append_assoc in E. cbn [append] in E. cbn [append].
    cbn [map snd] in E. apply E.
    eapply star_step; [auto with peg | | ].
    + now apply (argumentItem_named_bareWord a v1
                   (String " " (a ++ ":" ++ v2 ++ ")"))).
    + eapply star_step; [auto with peg | | apply star_argumentItem_close].
      now apply (argumentItem_named_bareWord a v2 ")"). }
  split; [|split; [|split; [|split]]].
  - apply buildCommand_getOwn.
  - apply tokenize_uniqueKeys.
  - intros a v1 v2 Ha Hne H1 H2. rewrite (Htwice a v1 v2 Ha H1 H2).
    now rewrite buildCommand_twice.
  - intros cmdName args. apply ObjFacts.getOwn_None_not_In.
    apply buildCommand_no_proto.
  - intros v1 v2 H1 H2.
    exact (Htwice "__proto__" v1 v2 eq_refl H1 H2).
Qed.

(* ================================================================== *)
(** * More on rule [_] *)

Lemma Skip_item s r : skipItem s = Some (tt, r) -> Skip s = Skip r.
Proof.
  intros Hs. unfold Skip, andThen.
  destruct (star skipItem r) as [[l r']|] eqn:E.
  - now rewrite (star_step _ _ _ _ _ _ skipItem_consuming Hs E).
  - unfold star in E. discriminate.
Qed.

Lemma Skip_whitespaceChar c s :
  whitespaceChar c = true -> Skip (String c s) = Skip s.
Proof.
  intros Hc. apply Skip_item.
  unfold skipItem, orElse, andThen. cbn [charClass]. now rewrite Hc.
Qed.

Lemma Skip_whitespace b s :
  allChars whitespaceChar b = true -> Skip (b ++ s) = Skip s.
Proof.
  induction b as [|c b IH]; simpl; [reflexivity|].
  intros H. apply andb_prop in H as [Hc Hb].
  rewrite (Skip_whitespaceChar c _ Hc). now apply IH.
Qed.

Lemma dropWhile_stop f s : stopsAt f s = true -> dropWhile f s = s.
Proof.
  destruct s as [|c s]; simpl; [reflexivity|]. now destruct (f c).
Qed.

Lemma skipItem_lone_backslash s :
  stopsAt (Ascii.eqb newline) s = true -> skipItem (String backslash s) = None.
Proof.
  intros H. unfold skipItem, orElse, andThen, Comment, lit, andThen.
  cbn [charClass stripPrefix char].
  change (whitespaceChar backslash) with false.
  change (Ascii.eqb backslash backslash) with true.
  change (Ascii.eqb "/" backslash) with false. cbv iota beta.
  destruct s as [|c s]; [reflexivity|]. cbn [stopsAt] in H.
  apply negb_true_iff in H. now rewrite H.
Qed.

(** X1.  Rule [_] treats a line continuation and a comment exactly like
    whitespace: a whitespace character, a backslash followed by a newline,
    and a comment up to and including its line end are skipped, and
    skipping continues behind them; a backslash that is not followed by a
    newline is not skipped; and where the rule stops nothing of the kind
    is left in front, so applying it again changes nothing. *)
Theorem skip_rule_behaviour :
  (forall c s, whitespaceChar c = true -> Skip (String c s) = Skip s)
  /\ (forall s, Skip (String backslash (String newline s)) = Skip s)
  /\ (forall text c s,
        allChars notLineEnd text = true -> notLineEnd c = false ->
        Skip ("//" ++ text ++ String c s) = Skip s)
  /\ (forall s,
        stopsAt (Ascii.eqb newline) s = true ->
        Skip (String backslash s) = Some (tt, String backslash s))
  /\ (forall s r,
        Skip s = Some (tt, r) ->
        Skip r = Some (tt, r) /\ String.length r <= String.length s).
Proof.
  split; [exact Skip_whitespaceChar|].
  split; [intros s; now apply Skip_item|].
  split.
  { intros text c s Ht Hc.
    rewrite (Skip_item _ _ (skipItem_comment text (String c s))).
    rewrite dropWhile_app by exact Ht.
    rewrite dropWhile_stop by (cbn [stopsAt]; now rewrite Hc).
    apply Skip_whitespaceChar. revert Hc. clear. by_all_chars c. }
  split.
  { intros s H. unfold Skip, andThen.
    now rewrite (star_stop _ _ (skipItem_lone_backslash s H)). }
  intros s r H. split.
  - unfold Skip, andThen in *.
    destruct (star skipItem s) as [[l r']|] eqn:E; [|discriminate].
    apply ret_inv in H as [_ ->].
    now rewrite (star_stop _ _ (star_ends _ _ _ _ skipItem_consuming E)).
  - exact (Skip_nonincreasing s tt r H).
Qed.

(* ================================================================== *)
(** * More on words and arguments *)

Lemma plus_charClass_span f s :
  plus (charClass f) s =
    match s with
    | String c r =>
        if f c
        then Some (c :: list_ascii_of_string (takeWhile f r), dropWhile f r)
        else None
    | EmptyString => None
    end.
Proof.
  unfold plus, andThen. destruct s as [|c r]; [reflexivity|].
  cbn [charClass]. destruct (f c); [|reflexivity].
  now rewrite star_charClass_span.
Qed.

(** The three word rules take the longest run of their class. *)
Lemma word_span f s :
  pmap join (plus (charClass f)) s =
    if nonEmpty (takeWhile f s)
    then Some (takeWhile f s, dropWhile f s) else None.
Proof.
  unfold pmap, andThen. rewrite plus_charClass_span.
  destruct s as [|c r]; [reflexivity|]. cbn [takeWhile dropWhile].
  destruct (f c); [|reflexivity]. unfold ret.
  cbn [join string_of_list_ascii nonEmpty].
  now rewrite string_of_list_ascii_of_string.
Qed.

Lemma word_inv f s a r :
  pmap join (plus (charClass f)) s = Some (a, r) ->
  nonEmpty a = true /\ allChars f a = true.
Proof.
  rewrite word_span. destruct (nonEmpty (takeWhile f s)) eqn:E; [|discriminate].
  intros H. injection H as <- _. split; [exact E | apply allChars_takeWhile].
Qed.

Lemma Identifier_inv s a r : Identifier s = Some (a, r) -> isIdentifier a = true.
Proof.
  intros H. apply word_inv in H as [H1 H2]. unfold isIdentifier.
  now rewrite H1, H2.
Qed.

Lemma CommandName_inv s a r :
  CommandName s = Some (a, r) -> isCommandName a = true.
Proof.
  intros H. apply word_inv in H as [H1 H2]. unfold isCommandName.
  now rewrite H1, H2.
Qed.

Lemma lit_fails c s :
  stopsAt (Ascii.eqb c) s = true -> lit (char c) s = None.
Proof.
  intros H. unfold lit. destruct s as [|d s]; [reflexivity|].
  cbn [stopsAt] in H. apply negb_true_iff in H. cbn [stripPrefix char].
  now rewrite H.
Qed.

Lemma unquotedChar_facts c :
  unquotedChar c = true ->
  whitespaceChar c = false /\ Ascii.eqb ":" c = false
  /\ Ascii.eqb "$" c = false /\ Ascii.eqb "(" c = false.
Proof. by_all_chars c. Qed.

Lemma endsWord_facts c :
  negb (unquotedChar c || Ascii.eqb c ":") = true ->
  unquotedChar c = false /\ identifierChar c = false
  /\ Ascii.eqb ":" c = false /\ Ascii.eqb "/" c = false.
Proof. by_all_chars c. Qed.

Lemma endsWord_stops rest :
  endsWord rest = true ->
  stopsAt unquotedChar rest = true /\ stopsAt identifierChar rest = true
  /\ stopsAt (Ascii.eqb ":") rest = true.
Proof.
  unfold endsWord. destruct rest as [|c rest]; cbn [stopsAt]; [auto|].
  intros H. apply endsWord_facts in H as (H1 & H2 & H3 & _).
  now rewrite H1, H2, H3.
Qed.

(** Behind the identifier a bare word opens with there is no colon. *)
Lemma bareWord_no_colon_ahead p rest :
  allChars unquotedChar p = true -> endsWord rest = true ->
  stopsAt (Ascii.eqb ":") (dropWhile identifierChar (p ++ rest)) = true.
Proof.
  intros Hp Hrest. induction p as [|c p IH]; cbn [append].
  - apply endsWord_stops in Hrest as (_ & Hi & Hc).
    now rewrite dropWhile_stop.
  - cbn [allChars] in Hp. apply andb_prop in Hp as [Hc Hp].
    cbn [dropWhile]. destruct (identifierChar c); [now apply IH|].
    cbn [stopsAt]. apply unquotedChar_facts in Hc as (_ & Hc & _).
    now rewrite Hc.
Qed.

Lemma NamedArgument_bareWord p rest :
  allChars unquotedChar p = true -> endsWord rest = true ->
  NamedArgument (p ++ rest) = None.
Proof.
  intros Hp Hrest. unfold NamedArgument, andThen, Identifier.
  rewrite word_span.
  destruct (nonEmpty (takeWhile identifierChar (p ++ rest))); [|reflexivity].
  change (lit ":") with (lit (char ":")).
  now rewrite lit_fails by now apply bareWord_no_colon_ahead.
Qed.

Lemma Argument_bareWord p rest :
  isBareWord p = true -> endsWord rest = true ->
  Argument (p ++ rest) = Some (positional (Literal p), rest).
Proof.
  intros Hp Hrest. unfold Argument, orElse.
  rewrite NamedArgument_bareWord; [|
    unfold isBareWord in Hp; apply andb_prop in Hp as [Hp _];
    now apply andb_prop in Hp as [_ Hp] | exact Hrest].
  unfold PositionalArgument, andThen.
  rewrite (Value_bareWord p rest Hp); [reflexivity|].
  now apply endsWord_stops in Hrest as (H & _).
Qed.

Lemma skipItem_plainWord p rest :
  isPlainWord p = true -> endsWord rest = true -> skipItem (p ++ rest) = None.
Proof.
  unfold isPlainWord, isBareWord. intros Hp Hrest.
  apply andb_prop in Hp as [Hp Hb]. apply andb_prop in Hp as [Hp Hs].
  apply andb_prop in Hp as [Hp _]. apply andb_prop in Hp as [Hne Hall].
  destruct p as [|c p]; [discriminate|].
  cbn [allChars] in Hall. apply andb_prop in Hall as [Hc Hall].
  apply unquotedChar_facts in Hc as (Hw & _).
  cbn [stopsAt] in Hb. apply negb_true_iff in Hb.
  unfold skipItem, orElse, andThen, Comment, lit, andThen.
  cbn [append charClass stripPrefix char]. rewrite Hw, Hb.
  destruct (Ascii.eqb_spec "/" c) as [<-|_]; [|reflexivity].
  destruct p as [|d p]; cbn [append].
  - destruct rest as [|d rest]; [reflexivity|].
    unfold endsWord in Hrest. cbn [stopsAt] in Hrest.
    apply endsWord_facts in Hrest as (_ & _ & _ & Hd). now rewrite Hd.
  - apply negb_true_iff in Hs. unfold startsWith in Hs.
    cbn [stripPrefix] in Hs. change (Ascii.eqb "/" "/") with true in Hs.
    cbv iota in Hs. destruct (Ascii.eqb "/" d); [discriminate | reflexivity].
Qed.

Lemma argumentItem_plainWord p rest :
  isPlainWord p = true -> endsWord rest = true ->
  argumentItem (" " ++ p ++ rest) = Some ((tt, positional (Literal p)), rest).
Proof.
  intros Hp Hrest. unfold argumentItem, andThen. cbn [append].
  rewrite Skip_space. unfold Skip, andThen.
  rewrite (star_stop _ _ (skipItem_plainWord p rest Hp Hrest)). unfold ret.
  rewrite Argument_bareWord; [reflexivity | | exact Hrest].
  unfold isPlainWord in Hp. apply andb_prop in Hp as [Hp _].
  now apply andb_prop in Hp as [Hp _].
Qed.

Lemma isCommandName_parts n :
  isCommandName n = true ->
  nonEmpty n = true /\ allChars commandNameChar n = true.
Proof. unfold isCommandName. intros H. now apply andb_prop in H. Qed.

(* ================================================================== *)
(** * Whole inputs: one statement, or none *)

(** An input that is one statement and nothing else. *)
Lemma tokenize_single {peggy : Peggy} s stmt :
  noSkipAhead s = true -> StatementRule s = Some (stmt, "") ->
  tokenize s = Ok [stmt].
Proof.
  intros Hs Hst. unfold tokenize.
  destruct (String.eqb_spec s "") as [->|_]; [discriminate|].
  unfold parse, Program, andThen. rewrite (Skip_none s Hs).
  now rewrite (star_step _ _ _ _ _ _ StatementRule_consuming Hst
                 (star_stop StatementRule "" eq_refl)).
Qed.

Lemma identifierChar_facts c :
  identifierChar c = true ->
  Ascii.eqb "(" c = false /\ Ascii.eqb ":" c = false.
Proof. by_all_chars c. Qed.

Lemma lit_paren_identifier a s :
  isIdentifier a = true -> lit "(" (a ++ s) = None.
Proof.
  unfold isIdentifier. destruct a as [|c a]; [discriminate|]. cbn.
  intros H. apply andb_prop in H as [H _].
  apply identifierChar_facts in H as [H _]. unfold lit. cbn [stripPrefix].
  now rewrite H.
Qed.

Lemma AssignmentRule_call v b n :
  isIdentifier v = true -> allChars whitespaceChar b = true ->
  isCommandName n = true ->
  AssignmentRule (v ++ ":" ++ b ++ "(" ++ n ++ ")")
    = Some (Assignment v (call n), "").
Proof.
  intros Hv Hb Hn. apply isCommandName_parts in Hn as [Hne Hall].
  unfold AssignmentRule, andThen.
  rewrite (Identifier_app v (":" ++ b ++ "(" ++ n ++ ")") Hv eq_refl).
  unfold lit at 1. cbn [append stripPrefix]. rewrite Ascii.eqb_refl.
  rewrite (Skip_whitespace b _ Hb), Skip_none by reflexivity.
  pose proof (CommandExpression_app n "" [] Hne Hall eq_refl
                star_argumentItem_close) as Hce.
  cbn [append] in Hce |- *. now rewrite Hce.
Qed.

(** X4.  An assignment is an identifier, a colon, optional whitespace and
    a parenthesised command: for every identifier [v], whitespace [b] and
    command name [n], the text [v:b(n)] parses to the assignment of the
    command [n] to [v]. *)
Theorem assignment_syntax {peggy : Peggy} :
  forall v b n,
    isIdentifier v = true -> allChars whitespaceChar b = true ->
    isCommandName n = true ->
    tokenize (v ++ ":" ++ b ++ "(" ++ n ++ ")") = Ok [Assignment v (call n)].
Proof.
  intros v b n Hv Hb Hn. apply tokenize_single.
  - now apply isIdentifier_noSkip.
  - unfold StatementRule, orElse. now rewrite AssignmentRule_call.
Qed.

Lemma StatementRule_identifier_alone a :
  isIdentifier a = true -> StatementRule a = None.
Proof.
  intros Ha. unfold StatementRule, orElse, AssignmentRule, andThen.
  rewrite <- (append_nil_r a) at 1. rewrite (Identifier_app a "" Ha eq_refl).
  cbn. unfold ExecutableCommandRule, CommandExpression, andThen.
  rewrite <- (append_nil_r a). now rewrite lit_paren_identifier.
Qed.

Lemma StatementRule_identifier_space v s :
  isIdentifier v = true -> StatementRule (v ++ " " ++ s) = None.
Proof.
  intros Hv. unfold StatementRule, orElse, AssignmentRule, andThen.
  rewrite (Identifier_app v (" " ++ s) Hv eq_refl). cbn.
  unfold ExecutableCommandRule, CommandExpression, andThen.
  now rewrite lit_paren_identifier.
Qed.

Lemma StatementRule_unclosed n :
  isCommandName n = true -> StatementRule ("(" ++ n) = None.
Proof.
  intros Hn. apply isCommandName_parts in Hn as [Hne Hall].
  unfold StatementRule, orElse, AssignmentRule, andThen.
  rewrite Identifier_fails by reflexivity.
  unfold ExecutableCommandRule, CommandExpression, andThen, lit.
  cbn [append stripPrefix]. rewrite Ascii.eqb_refl.
  rewrite Skip_none.
  - unfold CommandRule, andThen. rewrite <- (append_nil_r n).
    rewrite (CommandName_app n "" Hne Hall eq_refl). reflexivity.
  - destruct n as [|c n]; [discriminate|]. apply commandNameChar_noSkip.
    simpl in Hall. now apply andb_prop in Hall as [-> _].
Qed.

Lemma StatementRule_empty_parentheses s : StatementRule ("()" ++ s) = None.
Proof. reflexivity. Qed.

(* ================================================================== *)
(** * What the parser can produce *)

Lemma Value_wellFormed s v r : Value s = Some (v, r) -> wellFormedValue v.
Proof.
  unfold Value. intros H. apply orElse_inv in H as [H|H].
  - unfold VariableReference in H.
    apply andThen_inv in H as (x & s1 & _ & H).
    apply andThen_inv in H as (n & s2 & Hn & H).
    apply ret_inv in H as [-> _]. exact (Identifier_inv _ _ _ Hn).
  - unfold LiteralRule, pmap in H.
    apply andThen_inv in H as (w & s1 & _ & H).
    apply ret_inv in H as [-> _]. exact I.
Qed.

Lemma Argument_wellFormed s a r : Argument s = Some (a, r) -> wellFormedArg a.
Proof.
  unfold Argument. intros H. apply orElse_inv in H as [H|H].
  - unfold NamedArgument in H.
    apply andThen_inv in H as (k & s1 & Hk & H).
    apply andThen_inv in H as (x & s2 & _ & H).
    apply andThen_inv in H as (v & s3 & Hv & H).
    apply ret_inv in H as [-> _]. split.
    + exact (Identifier_inv _ _ _ Hk).
    + exact (Value_wellFormed _ _ _ Hv).
  - unfold PositionalArgument in H.
    apply andThen_inv in H as (v & s1 & Hv & H).
    apply ret_inv in H as [-> _]. exact (Value_wellFormed _ _ _ Hv).
Qed.

Lemma collect_wellFormed args : forall cmd,
  Forall wellFormedArg args ->
  Forall wellFormedValue (positionalArgs cmd) ->
  Forall (fun e => isIdentifier (fst e) = true /\ wellFormedValue (snd e))
    (namedArgs cmd) ->
  Forall wellFormedValue (positionalArgs (fold_left collect args cmd))
  /\ Forall (fun e => isIdentifier (fst e) = true /\ wellFormedValue (snd e))
       (namedArgs (fold_left collect args cmd)).
Proof.
  induction args as [|arg rest IH]; intros cmd Hargs Hp Hn; [now split|].
  inversion Hargs as [|? ? Harg Hrest]; subst. cbn [fold_left].
  apply IH; [exact Hrest | |]; destruct arg as [v|k v];
    cbn [collect positionalArgs namedArgs]; try assumption.
  - apply Forall_app. split; [exact Hp | now repeat constructor].
  - now apply ObjFacts.Forall_set.
Qed.

Lemma CommandExpression_wellFormed s cmd r :
  CommandExpression s = Some (cmd, r) -> wellFormedCommand cmd.
Proof.
  unfold CommandExpression. intros H.
  apply andThen_inv in H as (x1 & s1 & _ & H).
  apply andThen_inv in H as (x2 & s2 & _ & H).
  apply andThen_inv in H as (c & s3 & Hc & H).
  apply andThen_inv in H as (x4 & s4 & _ & H).
  apply andThen_inv in H as (x5 & s5 & _ & H).
  apply ret_inv in H as [-> _].
  unfold CommandRule in Hc.
  apply andThen_inv in Hc as (n & t1 & Hn & Hc).
  apply andThen_inv in Hc as (args & t2 & Hargs & Hc).
  apply ret_inv in Hc as [-> _].
  assert (Hwf : Forall wellFormedArg (map snd args)).
  { apply Forall_map.
    eapply star_Forall; [|exact Hargs].
    intros s' [w a] r' Hitem. unfold argumentItem in Hitem.
    apply andThen_inv in Hitem as (w' & u1 & _ & Hitem).
    apply andThen_inv in Hitem as (a' & u2 & Ha & Hitem).
    apply ret_inv in Hitem as [Heq _]. injection Heq as -> ->.
    exact (Argument_wellFormed _ _ _ Ha). }
  split; [|unfold buildCommand; apply collect_wellFormed;
           [exact Hwf | constructor | constructor]].
  rewrite buildCommand_name. exact (CommandName_inv _ _ _ Hn).
Qed.

Lemma StatementRule_wellFormed s stmt r :
  StatementRule s = Some (stmt, r) -> wellFormedStatement stmt.
Proof.
  unfold StatementRule. intros H. apply orElse_inv in H as [H|H].
  - unfold AssignmentRule in H.
    apply andThen_inv in H as (v & s1 & Hv & H).
    apply andThen_inv in H as (x2 & s2 & _ & H).
    apply andThen_inv in H as (x3 & s3 & _ & H).
    apply andThen_inv in H as (c & s4 & Hc & H).
    apply andThen_inv in H as (x5 & s5 & _ & H).
    apply ret_inv in H as [-> _]. split.
    + exact (CommandExpression_wellFormed _ _ _ Hc).
    + exact (Identifier_inv _ _ _ Hv).
  - unfold ExecutableCommandRule in H.
    apply andThen_inv in H as (c & s1 & Hc & H).
    apply andThen_inv in H as (x2 & s2 & _ & H).
    apply ret_inv in H as [-> _]. split; [|exact I].
    exact (CommandExpression_wellFormed _ _ _ Hc).
Qed.

(** X6.  Whatever input [tokenize] accepts, every statement it returns
    has a non-empty command name made of name characters, identifiers as
    the keys of its named arguments, as the names of the variables its
    arguments refer to and, for an assignment, as the assigned
    variable. *)
Theorem tokenize_output_is_well_formed {peggy : Peggy} :
  forall input statements,
    tokenize input = Ok statements -> Forall wellFormedStatement statements.
Proof.
  intros input statements. unfold tokenize. destruct (String.eqb input "").
  - intros H. injection H as <-. constructor.
  - unfold parse. destruct (Program input) as [[l r]|] eqn:E; [|discriminate].
    destruct r; [|discriminate]. intros H. injection H as <-.
    unfold Program in E.
    apply andThen_inv in E as (x1 & s1 & _ & E).
    apply andThen_inv in E as (l' & s2 & Hl & E).
    apply andThen_inv in E as (x3 & s3 & _ & E).
    apply ret_inv in E as [-> _].
    eapply star_Forall; [|exact Hl]. apply StatementRule_wellFormed.
Qed.

(* ================================================================== *)
(** * Dollar signs and quotes *)

Lemma VariableReference_app a rest :
  isIdentifier a = true -> stopsAt identifierChar rest = true ->
  VariableReference ("$" ++ a ++ rest) = Some (VariableRef a, rest).
Proof.
  intros Ha Hrest. unfold VariableReference, andThen, lit.
  cbn [append stripPrefix]. rewrite Ascii.eqb_refl.
  now rewrite (Identifier_app a rest Ha Hrest).
Qed.

Lemma Value_lone_dollar rest :
  stopsAt identifierChar rest = true -> Value (String "$" rest) = None.
Proof.
  intros H. unfold Value, orElse, VariableReference, andThen, lit.
  cbn [stripPrefix]. rewrite Ascii.eqb_refl.
  rewrite (Identifier_fails rest H).
  unfold LiteralRule, pmap, andThen, orElse.
  rewrite QuotedString_fails by reflexivity.
  unfold UnquotedString, pmap, andThen.
  now rewrite plus_charClass_fails.
Qed.

(** X7.  A dollar sign followed by an identifier is a variable
    reference, as a positional value and as the value of a named
    argument, and the reference ends with the identifier; a dollar sign
    that no identifier follows is no value at all, so it can never be part
    of an unquoted literal. *)
Theorem dollar_sign_syntax :
  (forall a rest,
      isIdentifier a = true -> stopsAt identifierChar rest = true ->
      Argument ("$" ++ a ++ rest) = Some (positional (VariableRef a), rest))
  /\ (forall k a rest,
        isIdentifier k = true -> isIdentifier a = true ->
        stopsAt identifierChar rest = true ->
        Argument (k ++ ":$" ++ a ++ rest)
          = Some (named k (VariableRef a), rest))
  /\ (forall rest,
        stopsAt identifierChar rest = true ->
        Value (String "$" rest) = None /\ Argument (String "$" rest) = None).
Proof.
  split; [|split].
  - intros a rest Ha Hrest. unfold Argument, orElse, NamedArgument, andThen.
    rewrite Identifier_fails by reflexivity.
    unfold PositionalArgument, andThen, Value, orElse.
    now rewrite (VariableReference_app a rest Ha Hrest).
  - intros k a rest Hk Ha Hrest.
    apply (Argument_named k ("$" ++ a ++ rest) (VariableRef a) rest Hk).
    unfold Value, orElse. now rewrite (VariableReference_app a rest Ha Hrest).
  - intros rest Hrest. pose proof (Value_lone_dollar rest Hrest) as Hv.
    split; [exact Hv|].
    unfold Argument, orElse, NamedArgument, andThen.
    rewrite Identifier_fails by reflexivity.
    unfold PositionalArgument, andThen. now rewrite Hv.
Qed.

Lemma allChars_app f a b :
  allChars f (a ++ b) = allChars f a && allChars f b.
Proof.
  induction a as [|c a IH]; simpl; [reflexivity|].
  now rewrite IH, andb_assoc.
Qed.

Lemma QuotedString_unterminated s :
  allChars plainQuotedChar s = true -> QuotedString (String dquote s) = None.
Proof.
  intros Hs. unfold QuotedString, andThen, lit.
  cbn [stripPrefix char]. rewrite Ascii.eqb_refl.
  pose proof (star_quotedItem_plain s "" [] "" Hs
                (star_stop quotedItem "" eq_refl)) as H.
  rewrite append_nil_r in H. now rewrite H.
Qed.

(** X8.  A double quote that is never closed is not an error: when the
    rest of the input holds no further quote and no backslash, the quoted
    string rule fails, and an argument that opens with the quote is read
    as a bare word that begins with the quote character. *)
Theorem unterminated_quote_is_a_bare_word {peggy : Peggy} :
  (forall s,
      allChars plainQuotedChar s = true -> QuotedString (String dquote s) = None)
  /\ (forall w,
        allChars plainQuotedChar w = true -> allChars unquotedChar w = true ->
        tokenize ("(echo " ++ String dquote (w ++ ")"))
          = Ok [ExecutableCommand
                  (mkCommand "echo" [Literal (String dquote w)] [])]).
Proof.
  split; [exact QuotedString_unterminated|].
  intros w Hp Hu.
  pose proof (tokenize_command "echo" (String " " (String dquote w))
                [(tt, positional (Literal (String dquote w)))]
                eq_refl eq_refl eq_refl) as H.
  cbn [append] in H. apply H.
  eapply star_step; [auto with peg | | apply star_argumentItem_close].
  apply argumentItem_space; [reflexivity|].
  unfold Argument, orElse, NamedArgument, andThen.
  rewrite Identifier_fails by reflexivity.
  unfold PositionalArgument, andThen, Value, orElse.
  rewrite VariableReference_fails by discriminate.
  unfold LiteralRule, pmap, andThen, orElse.
  rewrite QuotedString_unterminated
    by (rewrite allChars_app, Hp; reflexivity).
  change (String dquote (w ++ ")")) with (String dquote w ++ ")").
  rewrite UnquotedString_app; [reflexivity | reflexivity | | reflexivity].
  cbn [allChars]. now rewrite Hu.
Qed.

(* ================================================================== *)
(** * Accepted and rejected inputs *)

Lemma parse_empty : parse "" = Some [].
Proof. reflexivity. Qed.

(** [tokenize] succeeds exactly where the parser does, and with the same
    statements. *)
Lemma tokenize_Ok {peggy : Peggy} input statements :
  tokenize input = Ok statements <-> parse input = Some statements.
Proof.
  unfold tokenize. destruct (String.eqb_spec input "") as [->|_].
  - rewrite parse_empty. split; intros E; injection E as <-; reflexivity.
  - destruct (parse input) as [l|].
    + split; intros E; injection E as <-; reflexivity.
    + split; discriminate.
Qed.

Lemma tokenize_Throw {peggy : Peggy} input e :
  tokenize input = Throw e
  <-> parse input = None /\ e = parseFailure (parseError input).
Proof.
  unfold tokenize. destruct (String.eqb_spec input "") as [->|_].
  - rewrite parse_empty. split; [discriminate | intros [E _]; discriminate].
  - destruct (parse input) as [l|].
    + split; [discriminate | intros [E _]; discriminate].
    + split.
      * intros E. injection E as <-. now split.
      * intros [_ ->]. reflexivity.
Qed.

Lemma parse_whitespace b s :
  allChars whitespaceChar b = true -> parse (b ++ s) = parse s.
Proof.
  intros Hb. unfold parse, Program, andThen.
  now rewrite (Skip_whitespace b s Hb).
Qed.

(** X2.  Whitespace in front of the input is insignificant: with any
    run of spaces, tabs and line ends put in front, [tokenize] accepts
    exactly when it accepts the input itself, and then with the same
    statements; so it rejects exactly when it rejects the input itself. *)
Theorem leading_whitespace_is_insignificant {peggy : Peggy} :
  forall b s,
    allChars whitespaceChar b = true ->
    (forall statements,
        tokenize (b ++ s) = Ok statements <-> tokenize s = Ok statements)
    /\ ((exists e, tokenize (b ++ s) = Throw e)
        <-> (exists e, tokenize s = Throw e)).
Proof.
  intros b s Hb. pose proof (parse_whitespace b s Hb) as Hp. split.
  - intros statements. rewrite !tokenize_Ok. now rewrite Hp.
  - split; intros [e E]; apply tokenize_Throw in E as [E _].
    + exists (parseFailure (parseError s)). apply tokenize_Throw.
      split; [congruence | reflexivity].
    + exists (parseFailure (parseError (b ++ s))). apply tokenize_Throw.
      split; [congruence | reflexivity].
Qed.

(** X3.  A command name may hold colons without becoming an argument,
    and positional and named arguments may be mixed: for every command
    name [n], plain words [p1] and [p2], identifier [a] and bare word [b],
    the text [(n p1 a:b p2)] parses to a command with the name [n], the
    positional arguments [p1], [p2] in source order and, unless [a] is
    [__proto__], the one named argument [a: b]; a named argument
    [__proto__] is dropped.  The collection step always keeps the
    positional values in the order of the argument list and the name it
    was given. *)
Theorem mixed_arguments_keep_order {peggy : Peggy} :
  (forall n p1 a b p2,
      isCommandName n = true -> isPlainWord p1 = true ->
      isIdentifier a = true -> isBareWord b = true -> isPlainWord p2 = true ->
      exists cmd,
        tokenize ("(" ++ n ++ " " ++ p1 ++ " " ++ a ++ ":" ++ b ++ " " ++ p2 ++ ")")
          = Ok [ExecutableCommand cmd]
        /\ name cmd = n
        /\ positionalArgs cmd = [Literal p1; Literal p2]
        /\ (a <> "__proto__" -> namedArgs cmd = [(a, Literal b)])
        /\ (a = "__proto__" -> namedArgs cmd = []))
  /\ (forall cmdName args,
        positionalArgs (buildCommand cmdName args) = positionals args
        /\ name (buildCommand cmdName args) = cmdName).
Proof.
  split.
  - intros n p1 a b p2 Hn Hp1 Ha Hb Hp2.
    exists (buildCommand n [positional (Literal p1); named a (Literal b);
                            positional (Literal p2)]).
    split; [|split; [|split; [|split]]].
    + apply isCommandName_parts in Hn as [Hne Hall].
      pose proof (tokenize_command n
                    (" " ++ p1 ++ " " ++ a ++ ":" ++ b ++ " " ++ p2)
                    [(tt, positional (Literal p1)); (tt, named a (Literal b));
                     (tt, positional (Literal p2))] Hne Hall eq_refl) as E.
      cbn [append] in E. repeat (rewrite append_assoc in E; cbn [append] in E).
      cbn [map snd] in E. cbn [append]. apply E.
      eapply star_step; [auto with peg | | ].
      { now apply (argumentItem_plainWord p1
                     (String " " (a ++ ":" ++ b ++ String " " (p2 ++ ")")))). }
      eapply star_step; [auto with peg | | ].
      { now apply (argumentItem_named_bareWord a b (String " " (p2 ++ ")"))). }
      eapply star_step; [auto with peg | | apply star_argumentItem_close].
      now apply (argumentItem_plainWord p2 ")").
    + apply buildCommand_name.
    + apply buildCommand_positional.
    + intros Hne. unfold buildCommand.
      cbn [fold_left collect name positionalArgs namedArgs].
      now rewrite ObjFacts.set_ordinary.
    + intros ->. reflexivity.
  - intros cmdName args. split; [apply buildCommand_positional|].
    apply buildCommand_name.
Qed.

(** An input at whose start no statement can be read. *)
Lemma tokenize_no_statement {peggy : Peggy} s :
  s <> "" -> noSkipAhead s = true -> StatementRule s = None ->
  tokenize s = Throw (parseFailure (parseError s)).
Proof.
  intros Hne Hs Hst. apply tokenize_Throw. split; [|reflexivity].
  unfold parse, Program, andThen. rewrite (Skip_none s Hs).
  rewrite (star_stop _ _ Hst), (Skip_none s Hs). unfold ret.
  destruct s; [contradiction | reflexivity].
Qed.

(** X5.  Inputs the parser rejects, so that [tokenize] throws the error
    it builds from Peggy's: a command that is not in parentheses,
    whatever identifier it is; an identifier followed by a space, so an
    assignment with a space before its colon; a parenthesis that is never
    closed, whatever the command name; and parentheses without a command
    name, whatever follows. *)
Theorem rejected_inputs {peggy : Peggy} :
  (forall a,
      isIdentifier a = true -> tokenize a = Throw (parseFailure (parseError a)))
  /\ (forall v s,
        isIdentifier v = true ->
        tokenize (v ++ " " ++ s)
          = Throw (parseFailure (parseError (v ++ " " ++ s))))
  /\ (forall n,
        isCommandName n = true ->
        tokenize ("(" ++ n) = Throw (parseFailure (parseError ("(" ++ n))))
  /\ (forall s,
        tokenize ("()" ++ s) = Throw (parseFailure (parseError ("()" ++ s)))).
Proof.
  split; [|split; [|split]].
  - intros a Ha. apply tokenize_no_statement.
    + unfold isIdentifier in Ha. now destruct a.
    + rewrite <- (append_nil_r a). now apply isIdentifier_noSkip.
    + now apply StatementRule_identifier_alone.
  - intros v s Hv. apply tokenize_no_statement.
    + unfold isIdentifier in Hv. now destruct v.
    + now apply isIdentifier_noSkip.
    + now apply StatementRule_identifier_space.
  - intros n Hn. apply tokenize_no_statement;
      [discriminate | reflexivity | now apply StatementRule_unclosed].
  - intros s. apply tokenize_no_statement;
      [discriminate | reflexivity | apply StatementRule_empty_parentheses].
Qed.

(* ================================================================== *)
(** * Validation *)

Section RunnerFacts.
Context {World : Type} {peggy : Peggy} {engine : Engine}
  {process : HostProcess World}.
Implicit Types (commandMap : Registry.t World).
Implicit Types (statements pre post : list Statement) (stmt : Statement).
Implicit Types (w : World) (context : Bindings.t).
Implicit Types (options : ExecutionOptions).

Lemma validateLoop_errors statements commandMap errors :
  validateLoop statements commandMap errors
    = (errors ++ validateStatements statements commandMap)%list.
Proof.
  unfold validateStatements. revert errors.
  induction statements as [|stmt rest IH]; intros errors; cbn [validateLoop].
  - now rewrite app_nil_r.
  - cbv zeta.
    destruct (negb (Registry.truthy
                      (Registry.get commandMap (name (command stmt))))).
    + rewrite IH, (IH ([] ++ _)%list). now rewrite <- app_assoc.
    + destruct (truthy (Registry.returnsOf
                          (Registry.get commandMap (name (command stmt))))
                && isCommand stmt).
      * rewrite IH, (IH ([] ++ _)%list). now rewrite <- app_assoc.
      * apply IH.
Qed.

(** What the validator says about one statement. *)
Lemma validateStatements_one stmt commandMap :
  validateStatements [stmt] commandMap =
    let found := Registry.get commandMap (name (command stmt)) in
    if negb (Registry.truthy found)
    then [unknownCommand (name (command stmt))]
    else if truthy (Registry.returnsOf found) && isCommand stmt
    then [mustBeAssigned (name (command stmt)) (Registry.returnsOf found)]
    else [].
Proof.
  unfold validateStatements. cbn [validateLoop]. cbv zeta.
  destruct (negb _); [reflexivity|]. now destruct (_ && _).
Qed.

(** Each statement contributes its own diagnosis, whatever surrounds it. *)
Lemma validateStatements_cons stmt statements commandMap :
  validateStatements (stmt :: statements) commandMap
    = (validateStatements [stmt] commandMap
         ++ validateStatements statements commandMap)%list.
Proof.
  rewrite validateStatements_one. unfold validateStatements at 1.
  cbn [validateLoop]. cbv zeta.
  destruct (negb _).
  - now rewrite validateLoop_errors.
  - destruct (_ && _); [now rewrite validateLoop_errors | reflexivity].
Qed.

Lemma validateStatements_flat_map statements commandMap :
  validateStatements statements commandMap
    = flat_map (fun stmt => validateStatements [stmt] commandMap) statements.
Proof.
  induction statements as [|stmt rest IH]; [reflexivity|].
  rewrite validateStatements_cons, IH. reflexivity.
Qed.

Lemma validateStatements_unknown statements commandMap :
  Forall (fun stmt =>
            Registry.truthy (Registry.get commandMap (name (command stmt)))
              = false) statements ->
  validateStatements statements commandMap
    = map (fun stmt => unknownCommand (name (command stmt))) statements.
Proof.
  induction 1 as [|stmt rest Hs _ IH]; [reflexivity|].
  rewrite validateStatements_cons, IH, validateStatements_one.
  cbv zeta. now rewrite Hs.
Qed.

Lemma validateStatements_In stmt statements commandMap msg :
  In stmt statements ->
  In msg (validateStatements [stmt] commandMap) ->
  In msg (validateStatements statements commandMap).
Proof.
  intros Hs Hm. rewrite validateStatements_flat_map.
  apply in_flat_map. now exists stmt.
Qed.

(** In a command map that still has its first prototype, a name that is
    no own property is found exactly when [Object.prototype] defines it. *)
Lemma Registry_get_inherited commandMap cmdName :
  Registry.proto commandMap = None ->
  Obj.getOwn (Registry.own commandMap) cmdName = None ->
  Registry.truthy (Registry.get commandMap cmdName)
    = isObjectPrototypeMember cmdName
  /\ Registry.returnsOf (Registry.get commandMap cmdName) = None
  /\ forall definition,
       Registry.get commandMap cmdName <> Registry.ADefinition definition.
Proof.
  intros Hp Ho. unfold Registry.get. rewrite Ho, Hp.
  unfold Registry.fromObjectPrototype, isObjectPrototypeMember.
  destruct (String.eqb cmdName "__proto__").
  - repeat split; discriminate.
  - destruct (includes cmdName objectPrototypeFunctions);
      repeat split; discriminate.
Qed.

(** C5.  When the read of every statement's command name from the
    command map finds nothing, validation returns one unknown-command
    entry per statement, in order, so as many entries as statements; in
    general the entries are those of each statement on its own, none
    suppressed by an earlier one, so every statement whose command is not
    found and every bare invocation of a command that declares a return
    value has its entry.  In a command map as [{}] made it, a name that
    was never registered is not found, unless it is a member name of
    [Object.prototype]: a statement naming such a member draws no entry at
    all. *)
Theorem validation_is_exhaustive :
  forall commandMap statements,
    (Forall (fun stmt =>
               Registry.truthy (Registry.get commandMap (name (command stmt)))
                 = false) statements ->
     validateStatements statements commandMap
       = map (fun stmt => unknownCommand (name (command stmt))) statements
     /\ List.length (validateStatements statements commandMap)
          = List.length statements)
    /\ validateStatements statements commandMap
         = flat_map (fun stmt => validateStatements [stmt] commandMap)
             statements
    /\ (forall stmt,
          In stmt statements ->
          Registry.truthy (Registry.get commandMap (name (command stmt)))
            = false ->
          In (unknownCommand (name (command stmt)))
            (validateStatements statements commandMap))
    /\ (forall stmt definition,
          In stmt statements ->
          Registry.get commandMap (name (command stmt))
            = Registry.ADefinition definition ->
          truthy (returns definition) = true -> isCommand stmt = true ->
          In (mustBeAssigned (name (command stmt)) (returns definition))
            (validateStatements statements commandMap))
    /\ (forall stmt,
          Registry.proto commandMap = None ->
          Obj.getOwn (Registry.own commandMap) (name (command stmt)) = None ->
          validateStatements [stmt] commandMap =
            if isObjectPrototypeMember (name (command stmt)) then []
            else [unknownCommand (name (command stmt))]).
Proof.
  intros commandMap statements. split; [|split; [|split; [|split]]].
  - intros Hall. rewrite (validateStatements_unknown _ _ Hall).
    split; [reflexivity | apply length_map].
  - apply validateStatements_flat_map.
  - intros stmt Hin Hf. apply (validateStatements_In stmt); [exact Hin|].
    rewrite validateStatements_one. cbv zeta. rewrite Hf. now left.
  - intros stmt definition Hin Hg Hr Hc.
    apply (validateStatements_In stmt); [exact Hin|].
    rewrite validateStatements_one. cbv zeta. rewrite Hg.
    cbn [Registry.truthy Registry.returnsOf negb]. rewrite Hr, Hc. now left.
  - intros stmt Hp Ho. rewrite validateStatements_one. cbv zeta.
    destruct (Registry_get_inherited commandMap _ Hp Ho) as (-> & -> & _).
    now destruct (isObjectPrototypeMember (name (command stmt))).
Qed.

(* ================================================================== *)
(** * Execution *)

Lemma inWorkingDir_none {T} options (f : World -> result T * World) w :
  truthy (workingDir options) = false -> inWorkingDir options f w = f w.
Proof.
  unfold inWorkingDir, truthy. destruct (workingDir options) as [dir|];
    [|reflexivity].
  now destruct (String.eqb dir "").
Qed.

Lemma inWorkingDir_some {T} options dir (f : World -> result T * World) w :
  workingDir options = Some dir -> dir <> "" ->
  inWorkingDir options f w = withDir process_cwd process_chdir dir f w.
Proof.
  unfold inWorkingDir. intros -> Hd.
  now destruct (String.eqb_spec dir "").
Qed.

(** What follows the callback inside [withDir] can as well follow
    [withDir], when it leaves the world alone and keeps failures. *)
Lemma withDir_thenStore store dir (f : World -> result value * World) w :
  withDir process_cwd process_chdir dir (fun w => thenStore store (f w)) w
    = thenStore store (withDir process_cwd process_chdir dir f w).
Proof.
  unfold withDir. cbv zeta.
  destruct (process_chdir dir w) as [[u|e] w1]; cbn [fst snd].
  - destruct (f w1) as [[r|e] w2]; cbn [thenStore fst snd];
      now destruct (process_chdir (process_cwd w) w2) as [[u'|e'] w3].
  - now destruct (process_chdir (process_cwd w) w1) as [[u'|e'] w3].
Qed.

Lemma inWorkingDir_thenStore options store
  (f : World -> result value * World) w :
  inWorkingDir options (fun w => thenStore store (f w)) w
    = thenStore store (inWorkingDir options f w).
Proof.
  unfold inWorkingDir. destruct (workingDir options) as [dir|];
    [|reflexivity].
  destruct (String.eqb dir ""); [reflexivity|]. apply withDir_thenStore.
Qed.

Lemma executeCommand_definition definition context stmt args w :
  executeCommand (Registry.ADefinition definition) context stmt args w
    = thenStore (stored context stmt)
        (action definition (resolvedPositionalArgs args)
           (resolvedNamedArgs args) w).
Proof.
  unfold executeCommand, thenStore, stored.
  destruct stmt as [x c|c];
    now destruct (action definition _ _ w) as [[r|e] w'].
Qed.

(** A statement whose command is a definition: the action runs from the
    working directory, and an assignment stores what it returned. *)
Lemma executeStatement_definition commandMap options context stmt w
  definition args :
  Registry.get commandMap (name (command stmt))
    = Registry.ADefinition definition ->
  resolveCommandArgs context (command stmt) = Ok args ->
  executeStatement commandMap options context stmt w
    = thenStore (stored context stmt)
        (inWorkingDir options
           (action definition (resolvedPositionalArgs args)
              (resolvedNamedArgs args)) w).
Proof.
  intros Hg Hr. unfold executeStatement. cbv zeta. rewrite Hg, Hr.
  rewrite <- inWorkingDir_thenStore. unfold inWorkingDir.
  destruct (workingDir options) as [dir|].
  - destruct (String.eqb dir ""); [apply executeCommand_definition|].
    unfold withDir. cbv zeta.
    destruct (process_chdir dir w) as [[u|e] w1]; [|reflexivity].
    now rewrite executeCommand_definition.
  - apply executeCommand_definition.
Qed.

Lemma executeStatement_unresolved commandMap options context stmt w e :
  resolveCommandArgs context (command stmt) = Throw e ->
  executeStatement commandMap options context stmt w = (Throw e, w).
Proof. intros Hr. unfold executeStatement. cbv zeta. now rewrite Hr. Qed.

Lemma executeLoop_app pre post commandMap options context w :
  executeLoop (pre ++ post) commandMap options context w =
    match executeLoop pre commandMap options context w with
    | (Ok context', w') => executeLoop post commandMap options context' w'
    | (Throw e, w') => (Throw e, w')
    end.
Proof.
  revert context w.
  induction pre as [|stmt rest IH]; intros context w;
    cbn [app executeLoop]; [reflexivity|].
  destruct (executeStatement commandMap options context stmt w) as [[c|e] w'];
    [apply IH | reflexivity].
Qed.

Lemma executeLoop_one stmt commandMap options context w :
  executeLoop [stmt] commandMap options context w
    = executeStatement commandMap options context stmt w.
Proof.
  cbn [executeLoop].
  now destruct (executeStatement commandMap options context stmt w)
    as [[c|e] w'].
Qed.

(** Where the loop stands after the statements [pre], a failure of the
    next statement is the failure of the whole sequence. *)
Lemma executeStatements_fails_at commandMap options pre stmt post
  context w0 w e w' :
  executeLoop pre commandMap options Bindings.empty w0 = (Ok context, w) ->
  executeStatement commandMap options context stmt w = (Throw e, w') ->
  executeStatements (pre ++ stmt :: post) commandMap options w0
    = (Throw e, w').
Proof.
  intros Hpre Hs. unfold executeStatements.
  rewrite executeLoop_app, Hpre. cbn [executeLoop]. now rewrite Hs.
Qed.

Lemma run_valid commandMap args statements w :
  wantsHelp args = false ->
  tokenize (String.concat " " args) = Ok statements ->
  validateStatements statements commandMap = [] ->
  run commandMap args w
    = returned (executeStatements statements commandMap (runOptions w) w).
Proof.
  intros Hh Ht Hv. unfold run. rewrite Hh. cbv zeta. rewrite Ht, Hv.
  reflexivity.
Qed.

Lemma run_invalid commandMap args statements w :
  wantsHelp args = false ->
  tokenize (String.concat " " args) = Ok statements ->
  validateStatements statements commandMap <> [] ->
  run commandMap args w
    = (Throw (Error ("Validation failed: "
                       ++ String.concat "; "
                            (validateStatements statements commandMap))), w).
Proof.
  intros Hh Ht Hv. unfold run. rewrite Hh. cbv zeta. rewrite Ht.
  destruct (validateStatements statements commandMap); [contradiction|].
  reflexivity.
Qed.

(** C3 (as amended).  When the action of a statement fails, its error is
    the error of the whole execution, as the action raised it, and the
    statements behind it are not run, so no binding context is returned:
    so it is without a working directory; and with one, once the
    directory has been entered, unless the return to the original
    directory fails, in which case that error ends the execution in place
    of the action's.  [run] passes on what [executeStatements] failed
    with. *)
Theorem action_failure_propagates_verbatim :
  forall commandMap options pre stmt post context w0 w definition args e,
    executeLoop pre commandMap options Bindings.empty w0 = (Ok context, w) ->
    Registry.get commandMap (name (command stmt))
      = Registry.ADefinition definition ->
    resolveCommandArgs context (command stmt) = Ok args ->
    (forall w',
        truthy (workingDir options) = false ->
        action definition (resolvedPositionalArgs args)
          (resolvedNamedArgs args) w = (Throw e, w') ->
        executeStatements (pre ++ stmt :: post) commandMap options w0
          = (Throw e, w'))
    /\ (forall dir w1 w2,
          workingDir options = Some dir -> dir <> "" ->
          process_chdir dir w = (Ok tt, w1) ->
          action definition (resolvedPositionalArgs args)
            (resolvedNamedArgs args) w1 = (Throw e, w2) ->
          executeStatements (pre ++ stmt :: post) commandMap options w0 =
            match process_chdir (process_cwd w) w2 with
            | (Ok _, w3) => (Throw e, w3)
            | (Throw e', w3) => (Throw e', w3)
            end)
    /\ (forall w',
          inWorkingDir options
            (action definition (resolvedPositionalArgs args)
               (resolvedNamedArgs args)) w = (Throw e, w') ->
          executeStatements (pre ++ stmt :: post) commandMap options w0
            = (Throw e, w'))
    /\ (forall cmdArgs w',
          options = runOptions w0 ->
          wantsHelp cmdArgs = false ->
          tokenize (String.concat " " cmdArgs)
            = Ok (pre ++ stmt :: post)%list ->
          validateStatements (pre ++ stmt :: post) commandMap = [] ->
          inWorkingDir options
            (action definition (resolvedPositionalArgs args)
               (resolvedNamedArgs args)) w = (Throw e, w') ->
          run commandMap cmdArgs w0 = (Throw e, w')).
Proof.
  intros commandMap options pre stmt post context w0 w definition args e
    Hpre Hg Hr.
  assert (Hgen : forall w',
             inWorkingDir options
               (action definition (resolvedPositionalArgs args)
                  (resolvedNamedArgs args)) w = (Throw e, w') ->
             executeStatements (pre ++ stmt :: post) commandMap options w0
               = (Throw e, w')).
  { intros w' Ha. apply (executeStatements_fails_at _ _ _ _ _ _ _ _ _ _ Hpre).
    rewrite (executeStatement_definition _ _ _ _ _ _ _ Hg Hr), Ha.
    reflexivity. }
  split; [|split; [|split]].
  - intros w' Hn Ha. apply Hgen. now rewrite inWorkingDir_none.
  - intros dir w1 w2 Hd Hne Hc Ha. unfold executeStatements.
    rewrite executeLoop_app, Hpre. cbn [executeLoop].
    rewrite (executeStatement_definition _ _ _ _ _ _ _ Hg Hr).
    rewrite (inWorkingDir_some _ _ _ _ Hd Hne). unfold withDir. cbv zeta.
    rewrite Hc, Ha. cbn [fst snd].
    now destruct (process_chdir (process_cwd w) w2) as [[u|e'] w3].
  - exact Hgen.
  - intros cmdArgs w' Ho Hh Ht Hv Ha.
    rewrite (run_valid _ _ _ _ Hh Ht Hv), <- Ho, (Hgen w' Ha). reflexivity.
Qed.

(** C2.  For [x:(A) (B val:$x)], when the action of [A] returns the
    string 42, the action of [B] is run with no positional argument and
    the named argument [val] = 42, in the world [A] left, and the
    execution ends as that call ends, with [x] bound to 42 when it
    succeeds.  For the reversed sequence the execution fails with the
    undefined-variable error of [x] and the world untouched: no action
    has run.  In general every statement is resolved in the bindings left
    by the statements before it, and then its command is run with the
    resolved arguments. *)
Theorem sequential_binding_visibility :
  forall commandMap options (A B : string) definitionA definitionB
         w0 w1 outcomeB,
    Registry.get commandMap A = Registry.ADefinition definitionA ->
    Registry.get commandMap B = Registry.ADefinition definitionB ->
    inWorkingDir options (action definitionA [] Obj.empty) w0
      = (Ok (VString "42"), w1) ->
    inWorkingDir options (action definitionB [] [("val", "42")]) w1
      = outcomeB ->
    executeStatements
      [Assignment "x" (call A);
       ExecutableCommand (mkCommand B [] [("val", VariableRef "x")])]
      commandMap options w0
      = match outcomeB with
        | (Ok _, w2) =>
            (Ok (mkExecutionResult (Bindings.literal [("x", VString "42")])),
             w2)
        | (Throw e, w2) => (Throw e, w2)
        end
    /\ (forall commandMap' options' w,
          executeStatements
            [ExecutableCommand (mkCommand B [] [("val", VariableRef "x")]);
             Assignment "x" (call A)]
            commandMap' options' w
            = (Throw (UndefinedVariable "x"), w))
    /\ (forall pre stmt context w,
          executeLoop pre commandMap options Bindings.empty w0
            = (Ok context, w) ->
          executeLoop (pre ++ [stmt]) commandMap options Bindings.empty w0 =
            match resolveCommandArgs context (command stmt) with
            | Throw e => (Throw e, w)
            | Ok args =>
                inWorkingDir options
                  (executeCommand
                     (Registry.get commandMap (name (command stmt)))
                     context stmt args) w
            end).
Proof.
  intros commandMap options A B definitionA definitionB w0 w1 outcomeB
    HA HB HrunA HrunB.
  split; [|split].
  - unfold executeStatements. cbn [executeLoop].
    rewrite (executeStatement_definition commandMap options Bindings.empty
               (Assignment "x" (call A)) w0 definitionA
               (mkResolved [] Obj.empty) HA eq_refl).
    cbn [resolvedPositionalArgs resolvedNamedArgs]. rewrite HrunA.
    cbn [thenStore stored].
    rewrite (executeStatement_definition commandMap options
               (Bindings.set Bindings.empty "x" (VString "42"))
               (ExecutableCommand
                  (mkCommand B [] [("val", VariableRef "x")])) w1 definitionB
               (mkResolved [] [("val", "42")]) HB eq_refl).
    cbn [resolvedPositionalArgs resolvedNamedArgs]. rewrite HrunB.
    now destruct outcomeB as [[r|e] w2].
  - intros commandMap' options' w. unfold executeStatements.
    cbn [executeLoop].
    now rewrite (executeStatement_unresolved commandMap' options'
                   Bindings.empty
                   (ExecutableCommand
                      (mkCommand B [] [("val", VariableRef "x")])) w
                   (UndefinedVariable "x") eq_refl).
  - intros pre stmt context w Hpre. rewrite executeLoop_app, Hpre.
    rewrite executeLoop_one. reflexivity.
Qed.

Lemma truthy_nonempty ret : ret <> "" -> truthy (Some ret) = true.
Proof. intros H. cbn [truthy]. now destruct (String.eqb_spec ret ""). Qed.

Lemma Registry_get_register commandMap cmdName
  (definition : CommandDefinition World) :
  Registry.get (register commandMap cmdName definition) cmdName
    = Registry.ADefinition definition.
Proof.
  unfold register, Registry.set, Registry.get.
  destruct (Obj.hasOwn (Registry.own commandMap) cmdName) eqn:Ho;
    cbn [Registry.own Registry.proto].
  - now rewrite ObjFacts.getOwn_define_same.
  - destruct (String.eqb_spec cmdName "__proto__") as [->|Hne];
      cbn [Registry.own Registry.proto].
    + unfold Obj.hasOwn in Ho.
      destruct (Obj.getOwn (Registry.own commandMap) "__proto__");
        [discriminate|].
      reflexivity.
    + now rewrite ObjFacts.getOwn_define_same.
Qed.

(** ** The returns contract *)

(** C4.  After a command is registered with a non-empty returns
    annotation: a bare invocation of it is answered by validation with the
    error that names the command and says it must be assigned to a
    variable; a run whose statements contain such an invocation throws the
    validation failure and leaves the world untouched, so no statement is
    executed; an assignment invoking the command draws no error; and a run
    of that assignment, once its arguments resolve and the action, run
    from the working directory, returns, ends with the bindings after the
    assignment [globalContext[variable] = result] on the empty object.
    For every variable but [__proto__] these bind the variable to what the
    action returned; for [__proto__] they hold no own property at all. *)
Theorem returns_contract_enforced :
  forall commandMap0 cmdName definition ret cmd,
    returns definition = Some ret -> ret <> "" -> name cmd = cmdName ->
    let commandMap := register commandMap0 cmdName definition in
    validateStatements [ExecutableCommand cmd] commandMap
      = [mustBeAssigned cmdName (Some ret)]
    /\ contains cmdName (mustBeAssigned cmdName (Some ret))
    /\ contains "must be assigned to a variable"
         (mustBeAssigned cmdName (Some ret))
    /\ (forall statements cliArgs w,
          In (ExecutableCommand cmd) statements ->
          wantsHelp cliArgs = false ->
          tokenize (String.concat " " cliArgs) = Ok statements ->
          In (mustBeAssigned cmdName (Some ret))
            (validateStatements statements commandMap)
          /\ run commandMap cliArgs w =
               (Throw (Error ("Validation failed: "
                                ++ String.concat "; "
                                     (validateStatements statements commandMap))),
                w))
    /\ (forall variableName,
          validateStatements [Assignment variableName cmd] commandMap = [])
    /\ (forall variableName cliArgs args r w w',
          wantsHelp cliArgs = false ->
          tokenize (String.concat " " cliArgs)
            = Ok [Assignment variableName cmd] ->
          resolveCommandArgs Bindings.empty cmd = Ok args ->
          inWorkingDir (runOptions w)
            (action definition (resolvedPositionalArgs args)
               (resolvedNamedArgs args)) w = (Ok r, w') ->
          run commandMap cliArgs w
            = (Ok (Bindings.set Bindings.empty variableName r), w'))
    /\ (forall variableName r,
          variableName <> "__proto__" ->
          Bindings.set Bindings.empty variableName r
            = Bindings.literal [(variableName, r)])
    /\ (forall r,
          Bindings.own (Bindings.set Bindings.empty "__proto__" r)
            = Obj.empty).
Proof.
  intros commandMap0 cmdName definition ret cmd Hret Hne Hname commandMap.
  assert (Hget : Registry.get commandMap (name cmd)
                 = Registry.ADefinition definition).
  { subst cmdName. apply Registry_get_register. }
  assert (Hbare : validateStatements [ExecutableCommand cmd] commandMap
                  = [mustBeAssigned cmdName (Some ret)]).
  { rewrite validateStatements_one. cbv zeta. cbn [command]. rewrite Hget.
    cbn [Registry.truthy Registry.returnsOf negb isCommand].
    rewrite Hret, (truthy_nonempty ret Hne). cbn [andb]. now rewrite Hname. }
  split; [exact Hbare|].
  split; [apply (contains_intro "Command '")|].
  split.
  { exists ("Command '" ++ cmdName ++ "' returns a value and ").
    exists (char newline ++ "  Expected: varname:(" ++ cmdName ++ " ...) or _:("
              ++ cmdName ++ " ...) to ignore the return value" ++ char newline
              ++ "  Returns: " ++ ret).
    unfold mustBeAssigned. now rewrite !append_assoc. }
  split.
  { intros statements cliArgs w Hin Hh Ht.
    assert (Hmsg : In (mustBeAssigned cmdName (Some ret))
                     (validateStatements statements commandMap)).
    { eapply validateStatements_In; [exact Hin|]. rewrite Hbare. now left. }
    split; [exact Hmsg|].
    apply run_invalid; [exact Hh | exact Ht |].
    intros E. rewrite E in Hmsg. contradiction. }
  assert (Hassign : forall variableName,
             validateStatements [Assignment variableName cmd] commandMap = []).
  { intros variableName. rewrite validateStatements_one. cbv zeta.
    cbn [command]. rewrite Hget.
    cbn [Registry.truthy Registry.returnsOf negb isCommand].
    now rewrite andb_false_r. }
  split; [exact Hassign|].
  split; [|split].
  - intros variableName cliArgs args r w w' Hh Ht Hres Hact.
    rewrite (run_valid _ _ _ _ Hh Ht (Hassign variableName)).
    unfold executeStatements. cbn [executeLoop].
    rewrite (executeStatement_definition commandMap (runOptions w)
               Bindings.empty (Assignment variableName cmd) w definition args
               Hget Hres).
    rewrite Hact. reflexivity.
  - intros variableName r Hv. now rewrite Bindings_set_ordinary.
  - intros r. now destruct r.
Qed.

(* ================================================================== *)
(** * More on validation and execution *)

Lemma validate_one_accepted commandMap stmt :
  validateStatements [stmt] commandMap = [] <-> accepted commandMap stmt.
Proof.
  rewrite validateStatements_one. unfold accepted. cbv zeta.
  destruct (Registry.truthy (Registry.get commandMap (name (command stmt))));
    cbn [negb]; [|split; [discriminate | intros [H _]; discriminate]].
  destruct (truthy (Registry.returnsOf
                      (Registry.get commandMap (name (command stmt)))));
    destruct (isCommand stmt); cbn [andb]; split; intros H;
    try discriminate; try reflexivity;
    try (split; [reflexivity | intros; congruence]).
  destruct H as [_ H]. now specialize (H eq_refl).
Qed.

Lemma validate_one_length commandMap stmt :
  List.length (validateStatements [stmt] commandMap) <= 1.
Proof.
  rewrite validateStatements_one. cbv zeta.
  destruct (negb _); [cbn; lia|]. destruct (_ && _); cbn; lia.
Qed.

Lemma validateStatements_accepted commandMap statements :
  validateStatements statements commandMap = []
  <-> Forall (accepted commandMap) statements.
Proof.
  induction statements as [|stmt rest IH].
  - split; [constructor | reflexivity].
  - rewrite validateStatements_cons. split.
    + intros H. apply app_eq_nil in H as [H1 H2]. constructor.
      * now apply validate_one_accepted.
      * now apply IH.
    + intros H. inversion H as [|? ? Hs Hr]; subst.
      apply validate_one_accepted in Hs. apply IH in Hr.
      now rewrite Hs, Hr.
Qed.

Lemma validateStatements_length commandMap statements :
  List.length (validateStatements statements commandMap)
  <= List.length statements.
Proof.
  induction statements as [|stmt rest IH]; [cbn; lia|].
  rewrite validateStatements_cons, length_app.
  pose proof (validate_one_length commandMap stmt). cbn [List.length]. lia.
Qed.

(** X9.  The validator returns no error exactly when, for every
    statement, the read of its command name from the command map finds
    something truthy and, if what is found declares a return value, the
    statement is an assignment; and it never returns more errors than
    there are statements. *)
Theorem validation_accepts_exactly :
  forall commandMap statements,
    (validateStatements statements commandMap = []
     <-> Forall (accepted commandMap) statements)
    /\ List.length (validateStatements statements commandMap)
       <= List.length statements.
Proof.
  intros commandMap statements. split.
  - apply validateStatements_accepted.
  - apply validateStatements_length.
Qed.

Lemma referenced_In n (args : list ArgumentValue) :
  In n (referenced args) <-> In (VariableRef n) args.
Proof.
  induction args as [|[s|m] rest IH]; cbn [referenced In].
  - tauto.
  - rewrite IH. split; [tauto | intros [H|H]; [discriminate | exact H]].
  - rewrite IH. split; (intros [H|H]; [left; congruence | now right]).
Qed.

Lemma resolvePositional_Throw context (args : list ArgumentValue) e :
  resolvePositional context args = Throw e ->
  exists n, In (VariableRef n) args /\ unresolvable context n e.
Proof.
  induction args as [|arg rest IH]; cbn [resolvePositional]; [discriminate|].
  destruct (resolveArgument context arg) as [s|e'] eqn:Ea; cbn [bind].
  - destruct (resolvePositional context rest) as [ss|e''] eqn:Er; cbn [bind];
      [discriminate|].
    intros H. injection H as <-. destruct (IH eq_refl) as (n & Hin & Hn).
    exists n. split; [now right | exact Hn].
  - intros H. injection H as <-.
    apply resolveArgument_Throw in Ea as (n & -> & Hn).
    exists n. split; [now left | exact Hn].
Qed.

Lemma resolveNamed_Throw context (es : list (string * ArgumentValue)) :
  forall resolved e,
    resolveNamed context es resolved = Throw e ->
    exists n, In (VariableRef n) (map snd es) /\ unresolvable context n e.
Proof.
  induction es as [|[key namedArg] rest IH]; intros resolved e;
    cbn [resolveNamed]; [discriminate|].
  destruct (resolveArgument context namedArg) as [s|e'] eqn:Ea; cbn [bind].
  - intros H. destruct (IH _ _ H) as (n & Hin & Hn).
    exists n. split; [now right | exact Hn].
  - intros H. injection H as <-.
    apply resolveArgument_Throw in Ea as (n & -> & Hn).
    exists n. split; [now left | exact Hn].
Qed.

(** A failed resolution is about a variable the command refers to. *)
Lemma resolveCommandArgs_Throw context cmd e :
  resolveCommandArgs context cmd = Throw e ->
  exists n, In n (references cmd) /\ unresolvable context n e.
Proof.
  unfold resolveCommandArgs, references.
  destruct (resolvePositional context (positionalArgs cmd)) as [pos|e']
    eqn:Ep; cbn [bind].
  - destruct (resolveNamed context (Obj.entries (namedArgs cmd)) Obj.empty)
      as [nam|e''] eqn:En; cbn [bind]; [discriminate|].
    intros H. injection H as <-.
    apply resolveNamed_Throw in En as (n & Hin & Hn).
    exists n. split; [|exact Hn]. apply referenced_In, in_or_app. right.
    now apply ObjFacts.entries_values_In.
  - intros H. injection H as <-.
    apply resolvePositional_Throw in Ep as (n & Hin & Hn).
    exists n. split; [|exact Hn]. apply referenced_In, in_or_app. now left.
Qed.

(** How [withDir], and so a run from the working directory, can end: as
    the callback ended somewhere, or with an error of [process.chdir]. *)
Lemma inWorkingDir_outcome {T} options (f : World -> result T * World)
  w r w' :
  inWorkingDir options f w = (r, w') ->
  (exists w1 w2, f w1 = (r, w2))
  \/ (exists e dir w1 w2,
        r = Throw e /\ process_chdir dir w1 = (Throw e, w2)).
Proof.
  unfold inWorkingDir. destruct (workingDir options) as [dir|].
  - destruct (String.eqb dir ""); [intros H; left; now exists w, w'|].
    unfold withDir. cbv zeta.
    destruct (process_chdir dir w) as [[u|e] w1] eqn:Hin.
    + destruct (f w1) as [r1 w2] eqn:Hf. cbn [fst snd].
      destruct (process_chdir (process_cwd w) w2) as [[u'|e'] w3] eqn:Hout;
        intros H; injection H as <- <-.
      * left. now exists w1, w2.
      * right. now exists e', (process_cwd w), w2, w3.
    + cbn [fst snd].
      destruct (process_chdir (process_cwd w) w1) as [[u'|e'] w3] eqn:Hout;
        intros H; injection H as <- <-.
      * right. now exists e, dir, w, w1.
      * right. now exists e', (process_cwd w), w1, w3.
  - intros H. left. now exists w, w'.
Qed.

(** A statement that succeeds has found a definition, and its action has
    returned. *)
Lemma executeStatement_Ok commandMap options context stmt w context' w' :
  executeStatement commandMap options context stmt w = (Ok context', w') ->
  exists definition args r,
    Registry.get commandMap (name (command stmt))
      = Registry.ADefinition definition
    /\ resolveCommandArgs context (command stmt) = Ok args
    /\ inWorkingDir options
         (action definition (resolvedPositionalArgs args)
            (resolvedNamedArgs args)) w = (Ok r, w')
    /\ context' = stored context stmt r.
Proof.
  intros H.
  destruct (resolveCommandArgs context (command stmt)) as [args|e] eqn:Hr;
    [|rewrite (executeStatement_unresolved _ _ _ _ _ _ Hr) in H;
      discriminate].
  destruct (Registry.get commandMap (name (command stmt))) as [d| | | | |]
    eqn:Hg;
    try (unfold executeStatement in H; cbv zeta in H; rewrite Hr, Hg in H;
         apply inWorkingDir_outcome in H as
             [(w1 & w2 & H)|(e & dir & w1 & w2 & H & _)]; discriminate).
  rewrite (executeStatement_definition _ _ _ _ _ _ _ Hg Hr) in H.
  destruct (inWorkingDir options _ w) as [[r|e] w2] eqn:Ha;
    cbn [thenStore] in H; [|discriminate].
  injection H as <- <-. now exists d, args, r.
Qed.




(** ** The bindings an execution builds *)

Lemma executeStatement_context commandMap options context stmt w context' w' :
  executeStatement commandMap options context stmt w = (Ok context', w') ->
  exists r, context' = stored context stmt r.
Proof.
  intros H. apply executeStatement_Ok in H as (d & args & r & _ & _ & _ & H).
  now exists r.
Qed.

(** An assignment to a variable other than [__proto__] leaves the
    prototype of the bindings alone. *)
Lemma Bindings_proto_set context k v :
  k <> "__proto__" ->
  Bindings.proto (Bindings.set context k v) = Bindings.proto context.
Proof. intros H. now rewrite Bindings_set_ordinary. Qed.

Lemma Bindings_own_set_NoDup context k v :
  NoDup (Obj.keys (Bindings.own context)) ->
  NoDup (Obj.keys (Bindings.own (Bindings.set context k v))).
Proof.
  intros Hnd.
  destruct (Bindings_own_set_cases context k v) as [-> | ->];
    [exact Hnd | now apply ObjFacts.NoDup_keys_define].
Qed.

Lemma Bindings_own_set_has context k v k' :
  Obj.hasOwn (Bindings.own (Bindings.set context k v)) k' = true ->
  k = k' \/ Obj.hasOwn (Bindings.own context) k' = true.
Proof.
  destruct (Bindings_own_set_cases context k v) as [-> | ->]; [now right|].
  rewrite ObjFacts.hasOwn_define. intros H. apply orb_prop in H as [H|H].
  - left. now apply String.eqb_eq.
  - now right.
Qed.

Lemma executeLoop_context commandMap options statements :
  forall context w context' w',
    executeLoop statements commandMap options context w = (Ok context', w') ->
    (forall k, ~ In k (assignedVariables statements) ->
               Obj.getOwn (Bindings.own context') k
                 = Obj.getOwn (Bindings.own context) k)
    /\ (~ In "__proto__" (assignedVariables statements) ->
        Bindings.proto context' = Bindings.proto context)
    /\ (forall k, Obj.hasOwn (Bindings.own context') k = true ->
                  Obj.hasOwn (Bindings.own context) k = true
                  \/ In k (assignedVariables statements))
    /\ (forall k, In k (assignedVariables statements) -> k <> "__proto__" ->
                  Obj.hasOwn (Bindings.own context') k = true)
    /\ (forall k, Obj.hasOwn (Bindings.own context) k = true ->
                  Obj.hasOwn (Bindings.own context') k = true)
    /\ (NoDup (Obj.keys (Bindings.own context)) ->
        NoDup (Obj.keys (Bindings.own context'))).
Proof.
  induction statements as [|stmt rest IH]; intros context w context' w';
    cbn [executeLoop].
  - intros H. injection H as <- _. cbn [assignedVariables In].
    repeat split; tauto.
  - destruct (executeStatement commandMap options context stmt w)
      as [[context1|e] w1] eqn:Es; [|discriminate].
    intros H. destruct (IH _ _ _ _ H) as (IH1 & IH2 & IH3 & IH4 & IH5 & IH6).
    apply executeStatement_context in Es as [r ->].
    destruct stmt as [x cmd|cmd]; cbn [assignedVariables stored] in *;
      [|repeat split; auto].
    split; [|split; [|split; [|split; [|split]]]].
    + intros k Hk. rewrite IH1 by (intros Hin; apply Hk; now right).
      apply Bindings_own_set_other. intros ->. apply Hk. now left.
    + intros Hp. rewrite IH2 by (intros Hin; apply Hp; now right).
      apply Bindings_proto_set. intros ->. apply Hp. now left.
    + intros k Hh. apply IH3 in Hh as [Hh|Hh]; [|right; now right].
      apply Bindings_own_set_has in Hh as [Hh|Hh];
        [right; now left | now left].
    + intros k [->|Hin] Hk.
      * apply IH5. unfold Obj.hasOwn.
        now rewrite Bindings_own_set_same.
      * now apply IH4.
    + intros k Hh. apply IH5.
      destruct (String.eqb_spec x k) as [->|Hne].
      * unfold Bindings.set. rewrite Hh. cbn [Bindings.own].
        rewrite ObjFacts.hasOwn_define. now rewrite String.eqb_refl.
      * unfold Obj.hasOwn. rewrite Bindings_own_set_other by exact Hne.
        exact Hh.
    + intros Hnd. apply IH6. now apply Bindings_own_set_NoDup.
Qed.

Lemma executeLoop_no_assignment commandMap options statements :
  assignedVariables statements = [] ->
  forall context w context' w',
    executeLoop statements commandMap options context w = (Ok context', w') ->
    context' = context.
Proof.
  induction statements as [|stmt rest IH]; intros Hnone context w context' w';
    cbn [executeLoop].
  - intros H. now injection H as <- _.
  - destruct (executeStatement commandMap options context stmt w)
      as [[context1|e] w1] eqn:Es; [|discriminate].
    apply executeStatement_context in Es as [r ->].
    destruct stmt as [x cmd|cmd]; [discriminate|]. cbn [stored].
    now apply IH.
Qed.

(** X11.  A successful execution changes the own properties of the
    bindings only at the variables its assignments name, and their
    prototype only if one of them is [__proto__]; bare commands alone
    leave the bindings as they were.  The bindings a successful
    [executeStatements] returns have as own keys only assigned variables,
    each once, and every assigned variable other than [__proto__] among
    them. *)
Theorem bindings_are_the_assigned_variables :
  forall commandMap options statements,
    (forall context w context' w',
        executeLoop statements commandMap options context w
          = (Ok context', w') ->
        (forall k, ~ In k (assignedVariables statements) ->
                   Obj.getOwn (Bindings.own context') k
                     = Obj.getOwn (Bindings.own context) k)
        /\ (~ In "__proto__" (assignedVariables statements) ->
            Bindings.proto context' = Bindings.proto context)
        /\ (assignedVariables statements = [] -> context' = context))
    /\ (forall w res w',
          executeStatements statements commandMap options w = (Ok res, w') ->
          (forall k, Obj.hasOwn (Bindings.own (globalContext res)) k = true ->
                     In k (assignedVariables statements))
          /\ (forall k, In k (assignedVariables statements) ->
                        k <> "__proto__" ->
                        Obj.hasOwn (Bindings.own (globalContext res)) k = true)
          /\ NoDup (Obj.keys (Bindings.own (globalContext res)))).
Proof.
  intros commandMap options statements. split.
  - intros context w context' w' H.
    destruct (executeLoop_context _ _ _ _ _ _ _ H) as (H1 & H2 & _).
    split; [exact H1|]. split; [exact H2|].
    intros Hnone. exact (executeLoop_no_assignment _ _ _ Hnone _ _ _ _ H).
  - intros w res w'. unfold executeStatements.
    destruct (executeLoop statements commandMap options Bindings.empty w)
      as [[c|e] w0] eqn:E; [|discriminate].
    intros H. injection H as <- _. cbn [globalContext].
    destruct (executeLoop_context _ _ _ _ _ _ _ E)
      as (_ & _ & H3 & H4 & _ & H6).
    split; [|split].
    + intros k Hk. apply H3 in Hk as [Hk|Hk]; [discriminate | exact Hk].
    + exact H4.
    + apply H6. constructor.
Qed.

(** X12.  After a successful execution a variable other than [__proto__]
    holds what the action of the last assignment to it returned, whether
    or not it was bound before: if no later statement assigns [x], the
    value of [x] at the end is what the action of [x:(cmd)] returned, run
    from the working directory with the arguments resolved in the
    bindings the earlier statements left. *)
Theorem last_assignment_wins :
  forall commandMap options pre x cmd post w0 context' w',
    executeLoop (pre ++ Assignment x cmd :: post) commandMap options
      Bindings.empty w0 = (Ok context', w') ->
    ~ In x (assignedVariables post) -> x <> "__proto__" ->
    exists context1 w1 definition args r w2,
      executeLoop pre commandMap options Bindings.empty w0 = (Ok context1, w1)
      /\ Registry.get commandMap (name cmd) = Registry.ADefinition definition
      /\ resolveCommandArgs context1 cmd = Ok args
      /\ inWorkingDir options
           (action definition (resolvedPositionalArgs args)
              (resolvedNamedArgs args)) w1 = (Ok r, w2)
      /\ Obj.getOwn (Bindings.own context') x = Some r
      /\ Bindings.get context' x = Data r.
Proof.
  intros commandMap options pre x cmd post w0 context' w' H Hx Hp.
  rewrite executeLoop_app in H.
  destruct (executeLoop pre commandMap options Bindings.empty w0)
    as [[context1|e] w1] eqn:Hpre; [|discriminate].
  cbn [executeLoop] in H.
  destruct (executeStatement commandMap options context1 (Assignment x cmd) w1)
    as [[context2|e] w2] eqn:Hs; [|discriminate].
  apply executeStatement_Ok in Hs as (d & args & r & Hg & Hr & Ha & ->).
  cbn [command stored] in *.
  exists context1, w1, d, args, r, w2.
  split; [reflexivity|]. split; [exact Hg|]. split; [exact Hr|].
  split; [exact Ha|].
  assert (Hown : Obj.getOwn (Bindings.own context') x = Some r).
  { rewrite (proj1 (executeLoop_context _ _ _ _ _ _ _ H) x Hx).
    now apply Bindings_own_set_same. }
  split; [exact Hown | now apply Bindings_get_own].
Qed.

(** ** What resolution depends on *)

Lemma resolveArgument_agree context context' arg :
  (forall n, arg = VariableRef n ->
             Bindings.get context n = Bindings.get context' n) ->
  resolveArgument context arg = resolveArgument context' arg.
Proof.
  destruct arg as [s|n]; cbn [resolveArgument]; [reflexivity|].
  intros H. now rewrite (H n eq_refl).
Qed.

Lemma resolvePositional_agree context context' (args : list ArgumentValue) :
  (forall n, In (VariableRef n) args ->
             Bindings.get context n = Bindings.get context' n) ->
  resolvePositional context args = resolvePositional context' args.
Proof.
  induction args as [|arg rest IH]; intros H; cbn [resolvePositional];
    [reflexivity|].
  rewrite (resolveArgument_agree context context' arg)
    by (intros n ->; apply H; now left).
  rewrite IH by (intros n Hn; apply H; now right). reflexivity.
Qed.

Lemma resolveNamed_agree context context'
  (es : list (string * ArgumentValue)) :
  (forall n, In (VariableRef n) (map snd es) ->
             Bindings.get context n = Bindings.get context' n) ->
  forall resolved,
    resolveNamed context es resolved = resolveNamed context' es resolved.
Proof.
  induction es as [|[key namedArg] rest IH]; intros H resolved;
    cbn [resolveNamed]; [reflexivity|].
  rewrite (resolveArgument_agree context context' namedArg)
    by (intros n ->; apply H; now left).
  destruct (resolveArgument context' namedArg); cbn [bind]; [|reflexivity].
  apply IH. intros n Hn. apply H. now right.
Qed.

Lemma resolveCommandArgs_agree context context' cmd :
  (forall n, In n (references cmd) ->
             Bindings.get context n = Bindings.get context' n) ->
  resolveCommandArgs context cmd = resolveCommandArgs context' cmd.
Proof.
  intros H. unfold resolveCommandArgs.
  rewrite (resolvePositional_agree context context').
  - rewrite (resolveNamed_agree context context'); [reflexivity|].
    intros n Hn. apply H. apply referenced_In, in_or_app. right.
    now apply ObjFacts.entries_values_In.
  - intros n Hn. apply H. apply referenced_In, in_or_app. now left.
Qed.

(** X13.  Resolving a command depends on the bindings only through what
    the variables the command refers to read as: two binding contexts
    that read alike at those variables give the same result, success or
    failure; so an assignment to any other variable, [__proto__] apart,
    changes nothing, and a command without references always resolves,
    its positional literals unchanged and in order. *)
Theorem resolution_depends_on_references_only :
  forall cmd,
    (forall context context',
        (forall n, In n (references cmd) ->
                   Bindings.get context n = Bindings.get context' n) ->
        resolveCommandArgs context cmd = resolveCommandArgs context' cmd)
    /\ (forall context k v,
          ~ In k (references cmd) -> k <> "__proto__" ->
          resolveCommandArgs (Bindings.set context k v) cmd
            = resolveCommandArgs context cmd)
    /\ (references cmd = [] ->
        forall context,
          exists r, resolveCommandArgs context cmd = Ok r
                    /\ resolvedPositionalArgs r
                       = map (render Bindings.empty) (positionalArgs cmd)).
Proof.
  intros cmd. split; [|split].
  - intros context context'. apply resolveCommandArgs_agree.
  - intros context k v Hk Hp. apply resolveCommandArgs_agree.
    intros n Hn. apply Bindings_get_set_other; [exact Hp|].
    intros ->. contradiction.
  - intros Hnone context.
    rewrite (resolveCommandArgs_agree context Bindings.empty)
      by (rewrite Hnone; intros n []).
    destruct (resolveCommandArgs Bindings.empty cmd) as [r|e] eqn:E.
    + exists r. split; [reflexivity|].
      unfold resolveCommandArgs in E. rewrite resolvePositional_spec in E.
      destruct (firstFailure Bindings.empty (positionalArgs cmd));
        [discriminate|]. cbn [bind] in E.
      destruct (resolveNamed Bindings.empty (Obj.entries (namedArgs cmd))
                  Obj.empty); [|discriminate].
      cbn [bind] in E. now injection E as <-.
    + apply resolveCommandArgs_Throw in E as (n & Hin & _).
      rewrite Hnone in Hin. contradiction.
Qed.


End RunnerFacts.

(* ================================================================== *)
(** * The registry *)

Lemma getOwn_Permutation {V} (o o' : Obj.t V) k :
  Permutation o o' -> NoDup (Obj.keys o) -> Obj.getOwn o k = Obj.getOwn o' k.
Proof.
  intros Hp Hnd.
  assert (Hnd' : NoDup (Obj.keys o')).
  { eapply Permutation_NoDup; [|exact Hnd]. now apply Permutation_map. }
  destruct (Obj.getOwn o k) as [v|] eqn:E.
  - symmetry. apply ObjFacts.In_getOwn; [exact Hnd'|].
    eapply Permutation_in; [exact Hp | now apply ObjFacts.getOwn_Some_In].
  - symmetry. apply ObjFacts.getOwn_None_not_In.
    apply ObjFacts.getOwn_None_not_In in E. intros Hin. apply E.
    eapply Permutation_in; [|exact Hin].
    apply Permutation_map. now symmetry.
Qed.

Lemma fold_define_getOwn {V} (es : list (string * V)) :
  forall (acc : Obj.t V) k,
    NoDup (Obj.keys es) ->
    Obj.getOwn
      (fold_left (fun copy e => Obj.define copy (fst e) (snd e)) es acc) k =
      match Obj.getOwn es k with
      | Some v => Some v
      | None => Obj.getOwn acc k
      end.
Proof.
  induction es as [|[k0 v0] rest IH]; intros acc k Hnd; [reflexivity|].
  inversion Hnd as [|? ? Hnotin Hnd']; subst.
  cbn [fold_left fst snd Obj.getOwn]. rewrite IH by exact Hnd'.
  destruct (String.eqb_spec k0 k) as [->|Hne].
  - apply ObjFacts.getOwn_None_not_In in Hnotin. rewrite Hnotin.
    apply ObjFacts.getOwn_define_same.
  - destruct (Obj.getOwn rest k); [reflexivity|].
    now apply ObjFacts.getOwn_define_other.
Qed.

(** A spread copy has the own properties of the original. *)
Lemma getOwn_spread {V} (o : Obj.t V) k :
  NoDup (Obj.keys o) -> Obj.getOwn (spread o) k = Obj.getOwn o k.
Proof.
  intros Hnd. unfold spread.
  rewrite fold_define_getOwn by now apply ObjFacts.NoDup_keys_entries.
  rewrite (getOwn_Permutation (Obj.entries o) o k (ObjFacts.entries_perm o)
             (ObjFacts.NoDup_keys_entries o Hnd)).
  now destruct (Obj.getOwn o k).
Qed.

Section RegistryFacts.
Context {World : Type}.
Implicit Types (registrations : list (string * CommandDefinition World)).
Implicit Types (commandMap : Registry.t World).

(** The key [__proto__] never becomes an own property of a command map
    that does not have it. *)
Lemma register_own_proto commandMap k (d : CommandDefinition World) :
  Obj.getOwn (Registry.own commandMap) "__proto__" = None ->
  Obj.getOwn (Registry.own (register commandMap k d)) "__proto__" = None.
Proof.
  intros H. unfold register, Registry.set.
  destruct (Obj.hasOwn (Registry.own commandMap) k) eqn:Ho;
    cbn [Registry.own].
  - rewrite ObjFacts.getOwn_define_other; [exact H|].
    intros ->. unfold Obj.hasOwn in Ho. now rewrite H in Ho.
  - destruct (String.eqb_spec k "__proto__") as [->|Hne]; cbn [Registry.own];
      [exact H|].
    now rewrite ObjFacts.getOwn_define_other.
Qed.

Lemma register_own_other commandMap k (d : CommandDefinition World) n :
  k <> n ->
  Obj.getOwn (Registry.own (register commandMap k d)) n
    = Obj.getOwn (Registry.own commandMap) n.
Proof.
  intros Hne. unfold register, Registry.set.
  destruct (Obj.hasOwn (Registry.own commandMap) k); cbn [Registry.own].
  - now apply ObjFacts.getOwn_define_other.
  - destruct (String.eqb k "__proto__"); cbn [Registry.own]; [reflexivity|].
    now apply ObjFacts.getOwn_define_other.
Qed.

Lemma register_own_same commandMap k (d : CommandDefinition World) :
  k <> "__proto__" ->
  Obj.getOwn (Registry.own (register commandMap k d)) k = Some d.
Proof.
  intros Hne. unfold register, Registry.set.
  destruct (Obj.hasOwn (Registry.own commandMap) k); cbn [Registry.own].
  - apply ObjFacts.getOwn_define_same.
  - destruct (String.eqb_spec k "__proto__"); [contradiction|].
    cbn [Registry.own]. apply ObjFacts.getOwn_define_same.
Qed.

Lemma register_proto_other commandMap k (d : CommandDefinition World) :
  k <> "__proto__" ->
  Registry.proto (register commandMap k d) = Registry.proto commandMap.
Proof.
  intros Hne. unfold register, Registry.set.
  destruct (Obj.hasOwn (Registry.own commandMap) k); [reflexivity|].
  now destruct (String.eqb_spec k "__proto__").
Qed.

Lemma register_proto_same commandMap (d : CommandDefinition World) :
  Obj.getOwn (Registry.own commandMap) "__proto__" = None ->
  Registry.proto (register commandMap "__proto__" d) = Some d.
Proof.
  intros H. unfold register, Registry.set, Obj.hasOwn. now rewrite H.
Qed.

Lemma register_NoDup commandMap k (d : CommandDefinition World) :
  NoDup (Obj.keys (Registry.own commandMap)) ->
  NoDup (Obj.keys (Registry.own (register commandMap k d))).
Proof.
  intros H. unfold register, Registry.set.
  destruct (Obj.hasOwn (Registry.own commandMap) k); cbn [Registry.own].
  - now apply ObjFacts.NoDup_keys_define.
  - destruct (String.eqb k "__proto__"); cbn [Registry.own]; [exact H|].
    now apply ObjFacts.NoDup_keys_define.
Qed.

Lemma register_fold registrations :
  forall commandMap,
    Obj.getOwn (Registry.own commandMap) "__proto__" = None ->
    NoDup (Obj.keys (Registry.own commandMap)) ->
    let commandMap' :=
      fold_left (fun m r => register m (fst r) (snd r)) registrations
        commandMap in
    Obj.getOwn (Registry.own commandMap') "__proto__" = None
    /\ NoDup (Obj.keys (Registry.own commandMap'))
    /\ Registry.proto commandMap' =
         match lastRegistered "__proto__" registrations with
         | Some d => Some d
         | None => Registry.proto commandMap
         end
    /\ forall n, n <> "__proto__" ->
         Obj.getOwn (Registry.own commandMap') n =
           match lastRegistered n registrations with
           | Some d => Some d
           | None => Obj.getOwn (Registry.own commandMap) n
           end.
Proof.
  induction registrations as [|[k d] rest IH]; intros commandMap Hp Hnd;
    cbv zeta; [now repeat split|].
  cbn [fold_left lastRegistered fst snd].
  destruct (IH (register commandMap k d) (register_own_proto _ k d Hp)
              (register_NoDup _ k d Hnd)) as (H1 & H2 & H3 & H4).
  split; [exact H1|]. split; [exact H2|]. split.
  - rewrite H3. destruct (lastRegistered "__proto__" rest); [reflexivity|].
    destruct (String.eqb_spec k "__proto__") as [->|Hne].
    + now apply register_proto_same.
    + now apply register_proto_other.
  - intros n Hn. rewrite (H4 n Hn).
    destruct (lastRegistered n rest); [reflexivity|].
    destruct (String.eqb_spec k n) as [->|Hne].
    + now apply register_own_same.
    + now apply register_own_other.
Qed.

Lemma registerAll_facts registrations :
  Obj.getOwn (Registry.own (registerAll registrations)) "__proto__" = None
  /\ NoDup (Obj.keys (Registry.own (registerAll registrations)))
  /\ Registry.proto (registerAll registrations)
       = lastRegistered "__proto__" registrations
  /\ forall n, n <> "__proto__" ->
       Obj.getOwn (Registry.own (registerAll registrations)) n
         = lastRegistered n registrations.
Proof.
  destruct (register_fold registrations Registry.empty eq_refl
              (NoDup_nil _)) as (H1 & H2 & H3 & H4).
  split; [exact H1|]. split; [exact H2|]. split.
  - unfold registerAll. rewrite H3.
    now destruct (lastRegistered "__proto__" registrations).
  - intros n Hn. unfold registerAll. rewrite (H4 n Hn).
    now destruct (lastRegistered n registrations).
Qed.

(** X15.  After any series of [register] calls on a fresh instance, the
    read of a name from the command map gives the definition registered
    last under that name.  The definitions are the own properties of the
    command map, each key once, except that a definition registered as
    [__proto__] is no own property but the prototype; the copy
    [getCommands] returns has the same own properties and the prototype of
    a fresh object, so it lacks a definition registered as [__proto__].
    Registering a name again replaces its definition; it leaves the own
    properties under every other name as they were and, unless the name
    is [__proto__], the read of every other name too.  A name never
    registered finds something exactly when [Object.prototype] defines
    it, if nothing was registered as [__proto__]. *)
Theorem registry_holds_the_last_registration :
  forall registrations n,
    (forall d, lastRegistered n registrations = Some d ->
               Registry.get (registerAll registrations) n
                 = Registry.ADefinition d)
    /\ (n <> "__proto__" ->
        Obj.getOwn (Registry.own (registerAll registrations)) n
          = lastRegistered n registrations
        /\ Obj.getOwn (Registry.own (getCommands (registerAll registrations)))
             n = lastRegistered n registrations)
    /\ NoDup (Obj.keys (Registry.own (registerAll registrations)))
    /\ Obj.getOwn (Registry.own (registerAll registrations)) "__proto__"
         = None
    /\ Registry.proto (registerAll registrations)
         = lastRegistered "__proto__" registrations
    /\ Registry.proto (getCommands (registerAll registrations)) = None
    /\ (forall d,
          Registry.get (register (registerAll registrations) n d) n
            = Registry.ADefinition d)
    /\ (forall k d,
          k <> n ->
          Obj.getOwn
            (Registry.own (register (registerAll registrations) k d)) n
            = Obj.getOwn (Registry.own (registerAll registrations)) n)
    /\ (forall k d,
          k <> n -> k <> "__proto__" ->
          Registry.get (register (registerAll registrations) k d) n
            = Registry.get (registerAll registrations) n)
    /\ (lastRegistered n registrations = None ->
        lastRegistered "__proto__" registrations = None ->
        Registry.truthy (Registry.get (registerAll registrations) n)
          = isObjectPrototypeMember n).
Proof.
  intros registrations n.
  destruct (registerAll_facts registrations) as (Hp & Hnd & Hproto & Hown).
  split; [|split; [|split; [|split; [|split; [|split;
    [|split; [|split; [|split]]]]]]]].
  - intros d Hd. unfold Registry.get.
    destruct (String.eqb_spec n "__proto__") as [->|Hne].
    + rewrite Hp, Hproto, Hd. reflexivity.
    + now rewrite (Hown n Hne), Hd.
  - intros Hne. split; [now apply Hown|].
    unfold getCommands. cbn [Registry.own].
    rewrite getOwn_spread by exact Hnd. now apply Hown.
  - exact Hnd.
  - exact Hp.
  - exact Hproto.
  - reflexivity.
  - intros d. unfold Registry.get.
    destruct (String.eqb_spec n "__proto__") as [->|Hne].
    + rewrite (register_own_proto _ _ d Hp), (register_proto_same _ d Hp).
      reflexivity.
    + now rewrite register_own_same.
  - intros k d Hk. now apply register_own_other.
  - intros k d Hk Hkp. unfold Registry.get.
    now rewrite register_own_other, register_proto_other.
  - intros Hn Hnp.
    assert (Ho : Obj.getOwn (Registry.own (registerAll registrations)) n
                 = None).
    { destruct (String.eqb_spec n "__proto__") as [->|Hne]; [exact Hp|].
      now rewrite (Hown n Hne). }
    assert (Hpr : Registry.proto (registerAll registrations) = None)
      by now rewrite Hproto.
    unfold Registry.get. rewrite Ho, Hpr.
    unfold Registry.fromObjectPrototype, isObjectPrototypeMember.
    destruct (String.eqb n "__proto__"); [reflexivity|].
    now destruct (includes n objectPrototypeFunctions).
Qed.

End RegistryFacts.

(* ================================================================== *)
(** * The command line *)

Lemma allChars_space_false x y :
  allChars (fun c => negb (Ascii.eqb c " ")) (x ++ " " ++ y) = false.
Proof.
  rewrite allChars_app. cbn [append allChars].
  change (negb (Ascii.eqb " " " ")) with false.
  now rewrite andb_false_r.
Qed.

Lemma concat_is_not_flag flag args :
  allChars (fun c => negb (Ascii.eqb c " ")) flag = true ->
  args <> [] -> includes flag args = false ->
  String.eqb flag (String.concat " " args) = false.
Proof.
  intros Hflag Hne Hinc. destruct args as [|a [|b rest]]; [contradiction| |].
  - cbn [String.concat]. unfold includes in Hinc. cbn [existsb] in Hinc.
    now apply orb_false_elim in Hinc as [-> _].
  - change (String.concat " " (a :: b :: rest))
      with (a ++ " " ++ String.concat " " (b :: rest)).
    destruct (String.eqb_spec flag
                (a ++ " " ++ String.concat " " (b :: rest))) as [E|_];
      [|reflexivity].
    rewrite E, allChars_space_false in Hflag. discriminate.
Qed.

(** X16.  [run] sees its arguments only joined by single spaces: unless
    help is asked for, running a list of arguments is running the one
    argument that is their concatenation with spaces in between, so a
    command line may be cut into arguments anywhere a space stands. *)
Theorem run_joins_its_arguments {peggy : Peggy} {engine : Engine} :
  forall (World : Type) (process : HostProcess World)
         (commandMap : Registry.t World) args w,
    wantsHelp args = false ->
    run commandMap args w = run commandMap [String.concat " " args] w.
Proof.
  intros World process commandMap args w Hh. unfold run at 1 2. rewrite Hh.
  unfold wantsHelp in *. apply orb_false_elim in Hh as [Hh Hh2].
  apply orb_false_elim in Hh as [Hlen Hh1].
  assert (Hne : args <> []) by (intros ->; discriminate).
  unfold includes at 1 2. cbn [List.length Nat.eqb existsb orb].
  rewrite (concat_is_not_flag "--help" args eq_refl Hne Hh1).
  rewrite (concat_is_not_flag "-h" args eq_refl Hne Hh2).
  reflexivity.
Qed.

(* ================================================================== *)
(** * [withDir] *)

Section WithDirFacts.
Context {Process : Type}.
Variable cwd : Process -> string.
Variable chdir : string -> Process -> result unit * Process.

(** What is assumed of [process.chdir]: when it returns, the process is in
    the directory asked for. *)
Hypothesis chdir_moves :
  forall dir w w', chdir dir w = (Ok tt, w') -> cwd w' = dir.

(** X17.  Whatever the callback does, [withDir] ends in one of three
    ways.  Either the directory could be entered, the callback ran, and
    its value or its error is passed on; or the directory could not be
    entered, the callback did not run, and that error is passed on; in
    both cases the process is back in the directory it started in.  Or
    going back failed, and then that failure is what [withDir] raises,
    whatever the callback had returned. *)
Theorem withDir_restores_the_directory :
  forall (T : Type) dirPath (callback : Process -> result T * Process) w r w',
    withDir cwd chdir dirPath callback w = (r, w') ->
    (cwd w' = cwd w
     /\ ((exists w1 w2,
            chdir dirPath w = (Ok tt, w1) /\ callback w1 = (r, w2)
            /\ chdir (cwd w) w2 = (Ok tt, w'))
         \/ (exists e w1,
               chdir dirPath w = (Throw e, w1) /\ r = Throw e
               /\ chdir (cwd w) w1 = (Ok tt, w'))))
    \/ (exists e w2, r = Throw e /\ chdir (cwd w) w2 = (Throw e, w')).
Proof.
  intros T dirPath callback w r w'. unfold withDir.
  destruct (chdir dirPath w) as [[[]|e] w1] eqn:E1.
  - destruct (callback w1) as [r0 w2] eqn:E2. cbn [fst snd].
    destruct (chdir (cwd w) w2) as [[[]|e'] w3] eqn:E3;
      intros H; injection H as <- <-.
    + left. split; [exact (chdir_moves _ _ _ E3)|].
      left. now exists w1, w2.
    + right. now exists e', w2.
  - cbn [fst snd].
    destruct (chdir (cwd w) w1) as [[[]|e'] w3] eqn:E3;
      intros H; injection H as <- <-.
    + left. split; [exact (chdir_moves _ _ _ E3)|].
      right. now exists e, w1.
    + right. now exists e', w1.
Qed.

End WithDirFacts.

(* ================================================================== *)
(** * [getCryptoRandomString] *)

Lemma toHex_length bytes : String.length (toHex bytes) = 2 * List.length bytes.
Proof.
  induction bytes as [|b rest IH]; cbn [toHex String.length List.length];
    [reflexivity | lia].
Qed.

Lemma toHex_digits bytes : allChars isHexDigit (toHex bytes) = true.
Proof.
  induction bytes as [|b rest IH]; cbn [toHex allChars]; [reflexivity|].
  rewrite IH, !andb_true_r. destruct b; reflexivity.
Qed.

Lemma substring_all s n : String.length s <= n -> substring 0 n s = s.
Proof.
  revert n. induction s as [|c s IH]; intros n H.
  - now destruct n.
  - destruct n as [|n]; cbn in H; [lia|]. cbn. rewrite IH; [reflexivity | lia].
Qed.

(** X18.  On a length that is zero or negative [getCryptoRandomString]
    throws.  On a positive length [n], given the bytes it asked for, it
    returns a string of lower-case hexadecimal digits whose length is
    [2 * n] when [n] is even and [2 * (n + 1)] when [n] is odd: the length
    is first rounded up to an even number of bytes, and each byte gives
    two digits. *)
Theorem random_string_length :
  forall (randomBytes : Z -> list Byte.byte) (n : Z),
    ((n <= 0)%Z ->
     getCryptoRandomString randomBytes n
       = Throw (Error "Length must be a positive integer"))
    /\ ((0 < n)%Z ->
        List.length (randomBytes (n + Z.rem n 2)%Z) = Z.to_nat (n + Z.rem n 2) ->
        exists s,
          getCryptoRandomString randomBytes n = Ok s
          /\ String.length s = Z.to_nat (2 * (n + Z.rem n 2))
          /\ allChars isHexDigit s = true
          /\ (Z.rem n 2 = 0 \/ Z.rem n 2 = 1)%Z).
Proof.
  intros randomBytes n. unfold getCryptoRandomString. split.
  - intros H. apply Z.leb_le in H. now rewrite H.
  - intros Hpos Hlen.
    destruct (Z.leb_spec n 0) as [Hle|_]; [lia|].
    assert (Hrem : (Z.rem n 2 = 0 \/ Z.rem n 2 = 1)%Z).
    { pose proof (Z.rem_bound_pos n 2 ltac:(lia) ltac:(lia)). lia. }
    assert (Hadj : (if negb (Z.rem n 2 =? 0)%Z then (n + 1)%Z else n)
                   = (n + Z.rem n 2)%Z).
    { destruct Hrem as [->| ->]; cbn; lia. }
    cbv zeta. rewrite Hadj.
    exists (toHex (randomBytes (n + Z.rem n 2)%Z)).
    assert (Hfull : String.length (toHex (randomBytes (n + Z.rem n 2)%Z))
                    = Z.to_nat (2 * (n + Z.rem n 2))).
    { rewrite toHex_length, Hlen. lia. }
    split; [|split; [exact Hfull | split; [apply toHex_digits | exact Hrem]]].
    f_equal. apply substring_all. rewrite Hfull. lia.
Qed.

(* ================================================================== *)
(** * The theorems at work on concrete inputs *)

(** From here on the engine, Peggy's diagnosis and the process are those
    of the examples. *)
#[local] Existing Instance oneLine.
#[local] Existing Instance terse.
#[local] Existing Instance hostProcess.

(** The parser on the inputs of the repository's test suite. *)
Example parses_mixed_arguments :
  tokenize ("(build " ++ String dquote ("app/component" ++ String dquote
              " env:production optimize:true)"))
  = Ok [ExecutableCommand
          (mkCommand "build" [Literal "app/component"]
             [("env", Literal "production"); ("optimize", Literal "true")])].
Proof. reflexivity. Qed.

Example parses_multiple_statements :
  tokenize "(command1) myVar:(command2 val) (command3 key:value)"
  = Ok [ExecutableCommand (call "command1");
        Assignment "myVar" (mkCommand "command2" [Literal "val"] []);
        ExecutableCommand (mkCommand "command3" [] [("key", Literal "value")])].
Proof. reflexivity. Qed.

Example parses_variable_reference :
  tokenize "(deploy config:$deployConfig)"
  = Ok [ExecutableCommand
          (mkCommand "deploy" [] [("config", VariableRef "deployConfig")])].
Proof. reflexivity. Qed.

Example parses_namespaced_name :
  tokenize "(server1:deploy aaa:bbb)"
  = Ok [ExecutableCommand (mkCommand "server1:deploy" [] [("aaa", Literal "bbb")])].
Proof. reflexivity. Qed.

Example rejects_missing_parentheses :
  tokenize "my-command"
    = Throw (Error "Failed to parse command: Unexpected input at line 1, column 1")
  /\ tokenize "(my-command" = Throw (parseFailure (parseError "(my-command")).
Proof. split; reflexivity. Qed.

Example skips_comments :
  tokenize ("(command1) // this is a comment" ++ char newline ++ "(command2)")
  = Ok [ExecutableCommand (call "command1"); ExecutableCommand (call "command2")].
Proof. reflexivity. Qed.

Example parses_escaped_quotes :
  tokenize ("(echo " ++ String dquote ("this is a \" ++ String dquote
              ("quoted\" ++ String dquote (" string" ++ String dquote ")"))))
  = Ok [ExecutableCommand
          (mkCommand "echo"
             [Literal ("this is a " ++ String dquote
                         ("quoted" ++ String dquote " string"))] [])].
Proof. reflexivity. Qed.

(** The runner on the inputs of the test suite. *)
Example passes_arguments :
  run registry ["(echo hello key:value)"] (home [])
  = (Ok Bindings.empty, home [mkCall "echo" ["hello"] [("key", "value")]]).
Proof. reflexivity. Qed.

Example rejects_unknown_command :
  run registry ["(unknown-command)"] (home [])
  = (Throw (Error "Validation failed: Unknown command: 'unknown-command'"),
     home []).
Proof. reflexivity. Qed.

Example shows_help :
  run registry [] (home []) = (Ok Bindings.empty, home [])
  /\ run registry ["(ok)"; "--help"] (home []) = (Ok Bindings.empty, home []).
Proof. split; reflexivity. Qed.

Example parses_binding_scenario :
  tokenize "x:(A) (B val:$x)"
  = Ok [Assignment "x" (call "A");
        ExecutableCommand (mkCommand "B" [] [("val", VariableRef "x")])].
Proof. reflexivity. Qed.

(** The members of [Object.prototype] at work.  A command name that is
    one of them passes validation and fails when its action is called; a
    reference to one of them resolves, to the text of a built-in function;
    the variable and the named argument [__proto__] are lost. *)
Example inherited_command_name :
  validateStatements [ExecutableCommand (call "toString")] registry = []
  /\ run registry ["(toString)"] (home []) = (Throw TypeError, home [])
  /\ run Registry.empty ["(constructor)"] (home [])
     = (Throw TypeError, home []).
Proof. repeat split; reflexivity. Qed.

Example inherited_variable_name :
  run registry ["(echo $toString)"] (home [])
  = (Ok Bindings.empty,
     home [mkCall "echo" ["function toString() { [native code] }"] []])
  /\ run registry ["(echo $__proto__)"] (home [])
     = (Ok Bindings.empty, home [mkCall "echo" ["[object Object]"] []]).
Proof. split; reflexivity. Qed.

Example lost_assignment :
  run registry ["__proto__:(get-config)"; "x:(A)"] (home [])
  = (Ok (Bindings.literal [("x", VString "42")]),
     home [mkCall "get-config" [] []; mkCall "A" [] []]).
Proof. reflexivity. Qed.

Example lost_named_argument :
  run registry ["(echo __proto__:1 a:2 __proto__:3)"] (home [])
  = (Ok Bindings.empty, home [mkCall "echo" [] [("a", "2")]]).
Proof. reflexivity. Qed.

(** An object assigned to [__proto__] becomes the prototype of the
    bindings, so its properties read as variables. *)
Example prototype_assignment :
  run registry ["__proto__:(get-env env:prod)"; "(echo $env)"] (home [])
  = (Ok (Bindings.mk Obj.empty
           (Bindings.PlainObject [("env", VString "prod")])),
     home [mkCall "get-env" [] [("env", "prod")]; mkCall "echo" ["prod"] []]).
Proof. reflexivity. Qed.

(** The working directory at work: an action that leaves the directory
    is followed by the return to it; when the return fails, its error is
    the error of the run, in place of the action's. *)
Example returns_to_the_directory :
  run registry ["(leave)"; "(ok)"] (home [])
  = (Ok Bindings.empty, home [mkCall "leave" [] []; mkCall "ok" [] []]).
Proof. reflexivity. Qed.

Example failed_return_replaces_the_error :
  run registry ["(raze)"] (home [])
  = (Throw (Error "ENOENT: no such file or directory, chdir /home"),
     mkHost "/tmp" ["/tmp"] [mkCall "raze" [] []]).
Proof. reflexivity. Qed.



(** Such bindings arise in a run: [ping] returns nothing, the assignment
    stores that, and the next statement cannot read [x]. *)
Example undefined_result_is_unreadable :
  executeLoop [Assignment "x" (call "ping")] registry (mkOptions None)
    Bindings.empty (home [])
    = (Ok (Bindings.literal [("x", VUndefined)]), home [mkCall "ping" [] []])
  /\ run registry ["x:(ping)"; "(echo $x)"] (home [])
     = (Throw (UndefinedVariable "x"), home [mkCall "ping" [] []]).
Proof. split; reflexivity. Qed.

(** Witness of C2: the calls the two orders make. *)
Lemma sequential_binding_witness :
  executeStatements
    [Assignment "x" (call "A");
     ExecutableCommand (mkCommand "B" [] [("val", VariableRef "x")])]
    registry (mkOptions (Some "/home")) (home [])
    = (Ok (mkExecutionResult (Bindings.literal [("x", VString "42")])),
       home [mkCall "A" [] []; mkCall "B" [] [("val", "42")]])
  /\ executeStatements
       [ExecutableCommand (mkCommand "B" [] [("val", VariableRef "x")]);
        Assignment "x" (call "A")]
       registry (mkOptions (Some "/home")) (home [])
     = (Throw (UndefinedVariable "x"), home []).
Proof.
  destruct (sequential_binding_visibility (engine := oneLine)
              (process := hostProcess) registry (mkOptions (Some "/home"))
              "A" "B"
              (returning "A" (VString "42") None)
              (returning "B" VUndefined None)
              (home []) (home [mkCall "A" [] []])
              (Ok VUndefined,
               home [mkCall "A" [] []; mkCall "B" [] [("val", "42")]])
              eq_refl eq_refl eq_refl eq_refl) as (Hforward & Hreversed & _).
  split; [exact Hforward|].
  exact (Hreversed registry (mkOptions (Some "/home")) (home [])).
Defined.

Example sequential_binding_run :
  run registry ["x:(A)"; "(B val:$x)"] (home [])
  = (Ok (Bindings.literal [("x", VString "42")]),
     home [mkCall "A" [] []; mkCall "B" [] [("val", "42")]])
  /\ run registry ["(B val:$x)"; "x:(A)"] (home [])
     = (Throw (UndefinedVariable "x"), home []).
Proof. split; reflexivity. Qed.

(** Witness of C3: [bang] fails in second position; the third statement
    is never called and the error is the action's own, without a working
    directory and with one; and [raze] fails and makes the return to the
    original directory fail, whose error then comes out. *)
Lemma action_failure_witness :
  executeStatements
    [Assignment "x" (call "ok"); ExecutableCommand (call "bang");
     ExecutableCommand (call "ok")]
    registry (mkOptions None) (home [])
    = (Throw (Error "kaput"), home [mkCall "ok" [] []; mkCall "bang" [] []])
  /\ run registry ["x:(ok)"; "(bang)"; "(ok)"] (home [])
     = (Throw (Error "kaput"), home [mkCall "ok" [] []; mkCall "bang" [] []])
  /\ executeStatements [ExecutableCommand (call "raze")] registry
       (mkOptions (Some "/home")) (home [])
     = (Throw (Error "ENOENT: no such file or directory, chdir /home"),
        mkHost "/tmp" ["/tmp"] [mkCall "raze" [] []]).
Proof.
  split; [|split].
  - exact (proj1 (action_failure_propagates_verbatim (peggy := terse)
              (engine := oneLine) (process := hostProcess) registry (mkOptions None)
              [Assignment "x" (call "ok")] (ExecutableCommand (call "bang"))
              [ExecutableCommand (call "ok")]
              (Bindings.literal [("x", VString "done")])
              (home []) (home [mkCall "ok" [] []])
              (failing "bang" (Error "kaput")) (mkResolved [] [])
              (Error "kaput") eq_refl eq_refl eq_refl)
             (home [mkCall "ok" [] []; mkCall "bang" [] []])
             eq_refl eq_refl).
  - exact (proj2 (proj2 (proj2
             (action_failure_propagates_verbatim (peggy := terse)
              (engine := oneLine) (process := hostProcess) registry
                (mkOptions (Some "/home"))
                [Assignment "x" (call "ok")] (ExecutableCommand (call "bang"))
                [ExecutableCommand (call "ok")]
                (Bindings.literal [("x", VString "done")])
                (home []) (home [mkCall "ok" [] []])
                (failing "bang" (Error "kaput")) (mkResolved [] [])
                (Error "kaput") eq_refl eq_refl eq_refl)))
             ["x:(ok)"; "(bang)"; "(ok)"]
             (home [mkCall "ok" [] []; mkCall "bang" [] []])
             eq_refl eq_refl eq_refl eq_refl eq_refl).
  - exact (proj1 (proj2
             (action_failure_propagates_verbatim (peggy := terse)
              (engine := oneLine) (process := hostProcess) registry
                (mkOptions (Some "/home"))
                [] (ExecutableCommand (call "raze")) []
                Bindings.empty (home []) (home [])
                razing (mkResolved [] [])
                (Error "razed") eq_refl eq_refl eq_refl))
             "/home" (home [])
             (mkHost "/tmp" ["/tmp"] [mkCall "raze" [] []])
             eq_refl ltac:(discriminate) eq_refl eq_refl).
Defined.

(** Counterexample to C3 as stated: [boom] failing in first position and
    [bang] failing in second position end their runs with one and the same
    error, so the error tells neither the command nor the position. *)
Lemma error_carries_no_statement_context :
  ~ exists describe, identifiesFailedStatement describe.
Proof.
  intros [describe H].
  destruct (H Host oneLine hostProcess registry (mkOptions None)
              [] (ExecutableCommand (call "boom")) []
              Bindings.empty (home []) (home []) (home [mkCall "boom" [] []])
              (failing "boom" (Error "kaput")) (mkResolved [] [])
              (Error "kaput") eq_refl eq_refl eq_refl eq_refl)
    as (e1 & w1 & Hrun1 & Hd1).
  destruct (H Host oneLine hostProcess registry (mkOptions None)
              [ExecutableCommand (call "ok")]
              (ExecutableCommand (call "bang")) []
              Bindings.empty (home []) (home [mkCall "ok" [] []])
              (home [mkCall "ok" [] []; mkCall "bang" [] []])
              (failing "bang" (Error "kaput")) (mkResolved [] [])
              (Error "kaput") eq_refl eq_refl eq_refl eq_refl)
    as (e2 & w2 & Hrun2 & Hd2).
  vm_compute in Hrun1, Hrun2.
  injection Hrun1 as <- _. injection Hrun2 as <- _.
  rewrite Hd1 in Hd2. discriminate.
Qed.

(** Witness of C4: [get-config] declares a return value; run bare it is
    refused before it is called, run as an assignment it binds [cfg]; run
    as an assignment to [__proto__] it binds nothing. *)
Lemma returns_contract_witness :
  run (register Registry.empty "get-config"
         (returning "get-config" (VString "/path") (Some "string")))
    ["(get-config)"] (home [])
    = (Throw (Error ("Validation failed: "
                       ++ mustBeAssigned "get-config" (Some "string"))),
       home [])
  /\ run (register Registry.empty "get-config"
            (returning "get-config" (VString "/path") (Some "string")))
       ["cfg:(get-config)"] (home [])
     = (Ok (Bindings.literal [("cfg", VString "/path")]),
        home [mkCall "get-config" [] []])
  /\ run (register Registry.empty "get-config"
            (returning "get-config" (VString "/path") (Some "string")))
       ["__proto__:(get-config)"] (home [])
     = (Ok Bindings.empty, home [mkCall "get-config" [] []]).
Proof.
  destruct (returns_contract_enforced (World := Host) (peggy := terse)
              (engine := oneLine) (process := hostProcess) Registry.empty
              "get-config"
              (returning "get-config" (VString "/path") (Some "string"))
              "string" (call "get-config") eq_refl
              ltac:(discriminate) eq_refl)
    as (_ & _ & _ & Hbare & _ & Hassign & _).
  split; [|split].
  - exact (proj2 (Hbare [ExecutableCommand (call "get-config")]
                    ["(get-config)"] (home []) (or_introl eq_refl)
                    eq_refl eq_refl)).
  - exact (Hassign "cfg" ["cfg:(get-config)"] (mkResolved [] [])
             (VString "/path") (home []) (home [mkCall "get-config" [] []])
             eq_refl eq_refl eq_refl eq_refl).
  - exact (Hassign "__proto__" ["__proto__:(get-config)"] (mkResolved [] [])
             (VString "/path") (home []) (home [mkCall "get-config" [] []])
             eq_refl eq_refl eq_refl eq_refl).
Defined.

(** Witness of C5: three unknown commands, three entries; a bare
    invocation of a command that declares a return value has its entry
    behind that of an unknown command; and a member name of
    [Object.prototype], registered nowhere, has none. *)
Lemma validation_witness :
  validateStatements
    [ExecutableCommand (call "alpha"); Assignment "v" (call "beta");
     ExecutableCommand (call "gamma")]
    registry
  = ["Unknown command: 'alpha'"; "Unknown command: 'beta'";
     "Unknown command: 'gamma'"]
  /\ In (mustBeAssigned "get-config" (Some "string"))
       (validateStatements
          [ExecutableCommand (call "alpha");
           ExecutableCommand (call "get-config")] registry)
  /\ validateStatements [ExecutableCommand (call "toString")]
       (@Registry.empty Host) = [].
Proof.
  split; [|split].
  - refine (proj1 (proj1 (validation_is_exhaustive registry
              [ExecutableCommand (call "alpha"); Assignment "v" (call "beta");
               ExecutableCommand (call "gamma")]) _)).
    repeat constructor.
  - exact (proj1 (proj2 (proj2 (proj2
             (validation_is_exhaustive registry
                [ExecutableCommand (call "alpha");
                 ExecutableCommand (call "get-config")]))))
             (ExecutableCommand (call "get-config"))
             (returning "get-config" (VString "/path") (Some "string"))
             (or_intror (or_introl eq_refl)) eq_refl eq_refl eq_refl).
  - exact (proj2 (proj2 (proj2 (proj2
             (validation_is_exhaustive (World := Host) Registry.empty []))))
             (ExecutableCommand (call "toString")) eq_refl eq_refl).
Defined.

(** Witness of C6: the input of the open question, and the same with the
    key [__proto__]. *)
Lemma repeated_key_witness :
  tokenize "(cmd a:1 a:2)"
    = Ok [ExecutableCommand (mkCommand "cmd" [] [("a", Literal "2")])]
  /\ Forall (fun stmt => NoDup (Obj.keys (namedArgs (command stmt))))
       [ExecutableCommand (mkCommand "cmd" [] [("a", Literal "2")])]
  /\ tokenize "(cmd __proto__:1 __proto__:2)"
     = Ok [ExecutableCommand (mkCommand "cmd" [] [])].
Proof.
  destruct repeated_named_key_last_wins
    as (_ & Hunique & Haccept & _ & Hproto).
  pose proof (Haccept "a" "1" "2" eq_refl ltac:(discriminate)
                eq_refl eq_refl) as H.
  split; [exact H|].
  split; [exact (Hunique "(cmd a:1 a:2)" _ H)|].
  exact (Hproto "1" "2" eq_refl eq_refl).
Defined.


(** Witness of C8: a quoted text with a space, and an escaped quote. *)
Lemma quoted_string_witness :
  tokenize ("(cmd " ++ String dquote ("source file.txt" ++ String dquote ")"))
    = Ok [ExecutableCommand (mkCommand "cmd" [Literal "source file.txt"] [])]
  /\ QuotedString
       (String dquote
          ("say " ++ String backslash
                       (String dquote ("hi" ++ String dquote " next"))))
     = Some ("say " ++ String dquote "hi", " next").
Proof.
  destruct quoted_string_decoding as (_ & Hcmd & Hesc & _).
  split; [exact (Hcmd "source file.txt" eq_refl)|].
  exact (Hesc dquote "say " "hi" " next" eq_refl eq_refl).
Defined.

(** Witness of C9: the comment-only input of the specification. *)
Lemma blank_input_witness :
  tokenize ("   // just a comment" ++ char newline) = Ok [].
Proof.
  refine (proj2 tokenize_blank _ _).
  do 3 (apply blank_whitespace; [reflexivity|]).
  apply (blank_comment " just a comment" (char newline)); [reflexivity|].
  apply blank_whitespace; [reflexivity | apply blank_empty].
Defined.



(** The end-to-end scenario: the object [get-env] returns is bound to
    [cfg] and reaches [greet] as the fixed text. *)
Example end_to_end_scenario :
  run registry ["cfg:(get-env env:prod)"; "(greet name:$cfg)"] (home [])
  = (Ok (Bindings.literal [("cfg", VObject [("env", VString "prod")])]),
     home [mkCall "get-env" [] [("env", "prod")];
           mkCall "greet" [] [("name", "[object Object]")]]).
Proof. reflexivity. Qed.

(** Witness of X1. *)
Lemma skip_rule_witness :
  Skip ("// note ) (" ++ String newline "  (a)") = Some (tt, "(a)")
  /\ Skip (String backslash "n (a)") = Some (tt, String backslash "n (a)")
  /\ Skip "(a)" = Some (tt, "(a)").
Proof.
  destruct skip_rule_behaviour as (Hws & _ & Hcomment & Hback & Hidem).
  split; [|split].
  - exact (eq_trans (Hcomment " note ) (" newline "  (a)" eq_refl eq_refl)
             eq_refl).
  - exact (Hback "n (a)" eq_refl).
  - exact (proj1 (Hidem "  (a)" "(a)" eq_refl)).
Defined.

(** Witness of X2. *)
Lemma leading_whitespace_witness :
  tokenize (String newline "   (a)") = Ok [ExecutableCommand (call "a")]
  /\ exists e, tokenize ("  " ++ String tab "a") = Throw e.
Proof.
  split.
  - exact (proj2 (proj1 (leading_whitespace_is_insignificant
                           (String newline "   ") "(a)" eq_refl)
                    [ExecutableCommand (call "a")]) eq_refl).
  - exact (proj2 (proj2 (leading_whitespace_is_insignificant
                           ("  " ++ String tab "") "a" eq_refl))
             (ex_intro _ (parseFailure (parseError "a")) eq_refl)).
Defined.

(** Witness of X3. *)
Lemma mixed_arguments_witness :
  exists cmd,
    tokenize "(fs:copy /src/a.txt mode:fast /dest)"
      = Ok [ExecutableCommand cmd]
    /\ name cmd = "fs:copy"
    /\ positionalArgs cmd = [Literal "/src/a.txt"; Literal "/dest"]
    /\ ("mode" <> "__proto__" -> namedArgs cmd = [("mode", Literal "fast")])
    /\ ("mode" = "__proto__" -> namedArgs cmd = []).
Proof.
  exact (proj1 mixed_arguments_keep_order "fs:copy" "/src/a.txt" "mode" "fast"
           "/dest" eq_refl eq_refl eq_refl eq_refl eq_refl).
Defined.

(** Witness of X4. *)
Lemma assignment_syntax_witness :
  tokenize "_:(db:new-user)" = Ok [Assignment "_" (call "db:new-user")]
  /\ tokenize ("cfg:" ++ String newline "  (get-config)")
     = Ok [Assignment "cfg" (call "get-config")].
Proof.
  split.
  - exact (assignment_syntax "_" "" "db:new-user" eq_refl eq_refl eq_refl).
  - exact (assignment_syntax "cfg" (String newline "  ") "get-config"
             eq_refl eq_refl eq_refl).
Defined.

(** Witness of X5. *)
Lemma rejected_inputs_witness :
  tokenize "my-command" = Throw (parseFailure (parseError "my-command"))
  /\ tokenize "x :(A)" = Throw (parseFailure (parseError "x :(A)"))
  /\ tokenize "(my-command" = Throw (parseFailure (parseError "(my-command"))
  /\ tokenize "() (a)" = Throw (parseFailure (parseError "() (a)")).
Proof.
  destruct rejected_inputs as (H1 & H2 & H3 & H4).
  split; [exact (H1 "my-command" eq_refl)|].
  split; [exact (H2 "x" ":(A)" eq_refl)|].
  split; [exact (H3 "my-command" eq_refl) | exact (H4 " (a)")].
Defined.

(** Witness of X6. *)
Lemma well_formed_output_witness :
  Forall wellFormedStatement
    [Assignment "cfg" (mkCommand "get:config" [] [("env", VariableRef "e-1")])].
Proof.
  exact (tokenize_output_is_well_formed "cfg:(get:config env:$e-1)" _ eq_refl).
Defined.

(** Witness of X7. *)
Lemma dollar_sign_witness :
  Argument "$cfg.json)" = Some (positional (VariableRef "cfg"), ".json)")
  /\ Argument "config:$cfg)" = Some (named "config" (VariableRef "cfg"), ")")
  /\ Argument "$)" = None.
Proof.
  destruct dollar_sign_syntax as (H1 & H2 & H3).
  split; [exact (H1 "cfg" ".json)" eq_refl eq_refl)|].
  split; [exact (H2 "config" "cfg" ")" eq_refl eq_refl eq_refl)|].
  exact (proj2 (H3 ")" eq_refl)).
Defined.

(** Witness of X8. *)
Lemma unterminated_quote_witness :
  tokenize ("(echo " ++ String dquote "abc)")
  = Ok [ExecutableCommand (mkCommand "echo" [Literal (String dquote "abc")] [])].
Proof.
  exact (proj2 unterminated_quote_is_a_bare_word "abc" eq_refl eq_refl).
Defined.

(** Witness of X9: an assigned command with a return value passes, a bare
    one does not; and a member name of [Object.prototype] passes. *)
Lemma validation_accepts_witness :
  validateStatements
    [Assignment "cfg" (call "get-config"); ExecutableCommand (call "ok");
     ExecutableCommand (call "valueOf")]
    registry = []
  /\ ~ Forall (accepted registry)
         [ExecutableCommand (call "get-config"); ExecutableCommand (call "ok")].
Proof.
  split.
  - apply (proj1 (validation_accepts_exactly registry _)).
    repeat constructor; discriminate.
  - intros H.
    apply (proj1 (validation_accepts_exactly registry _)) in H. discriminate.
Defined.


(** Witness of X11: two assignments to [x], one to [y] and one to
    [__proto__] leave two bindings. *)
Lemma bindings_witness :
  (forall k,
      Obj.hasOwn [("x", VString "done"); ("y", VString "42")] k = true ->
      In k ["x"; "y"; "__proto__"; "x"])
  /\ (forall k,
        In k ["x"; "y"; "__proto__"; "x"] -> k <> "__proto__" ->
        Obj.hasOwn [("x", VString "done"); ("y", VString "42")] k = true)
  /\ NoDup (Obj.keys [("x", VString "done"); ("y", VString "42")]).
Proof.
  exact (proj2 (bindings_are_the_assigned_variables (engine := oneLine)
                  (process := hostProcess) registry (mkOptions None)
                  [Assignment "x" (call "A"); Assignment "y" (call "A");
                   Assignment "__proto__" (call "ping");
                   Assignment "x" (call "ok")])
           (home [])
           (mkExecutionResult
              (Bindings.literal [("x", VString "done"); ("y", VString "42")]))
           _ eq_refl).
Defined.

(** Witness of X12: [x] is assigned twice and ends with the second
    value. *)
Lemma last_assignment_witness :
  exists context1 w1 definition args r w2,
    executeLoop [Assignment "x" (call "A")] registry (mkOptions None)
      Bindings.empty (home []) = (Ok context1, w1)
    /\ Registry.get registry "ok" = Registry.ADefinition definition
    /\ resolveCommandArgs context1 (call "ok") = Ok args
    /\ inWorkingDir (mkOptions None)
         (action definition (resolvedPositionalArgs args)
            (resolvedNamedArgs args)) w1 = (Ok r, w2)
    /\ Obj.getOwn [("x", VString "done")] "x" = Some r
    /\ Bindings.get (Bindings.literal [("x", VString "done")]) "x" = Data r.
Proof.
  exact (last_assignment_wins (engine := oneLine) (process := hostProcess)
           registry (mkOptions None) [Assignment "x" (call "A")] "x"
           (call "ok") [ExecutableCommand (call "ping")] (home [])
           (Bindings.literal [("x", VString "done")]) _ eq_refl
           ltac:(cbn; tauto) ltac:(discriminate)).
Defined.

(** Witness of X13. *)
Lemma resolution_frame_witness :
  resolveCommandArgs
    (Bindings.set (Bindings.literal [("cfg", VString "/p")]) "other"
       (VNumber one))
    (mkCommand "deploy" [VariableRef "cfg"] [("env", Literal "prod")])
  = resolveCommandArgs (Bindings.literal [("cfg", VString "/p")])
      (mkCommand "deploy" [VariableRef "cfg"] [("env", Literal "prod")]).
Proof.
  refine (proj1 (proj2 (resolution_depends_on_references_only
            (mkCommand "deploy" [VariableRef "cfg"] [("env", Literal "prod")])))
            (Bindings.literal [("cfg", VString "/p")]) "other" (VNumber one)
            _ _).
  - cbn. intros [H|[]]. discriminate.
  - discriminate.
Defined.


(** Witness of X15: the second registration of [a] is the one found, in
    the command map and in the copy; a definition registered as
    [__proto__] is found in the command map, too. *)
Lemma registry_witness :
  Registry.get
    (registerAll [("a", returning "a1" VNull None);
                  ("__proto__", returning "p" VNull None);
                  ("a", returning "a2" VNull None)]) "a"
  = Registry.ADefinition (returning "a2" VNull None)
  /\ Registry.get
       (registerAll [("a", returning "a1" VNull None);
                     ("__proto__", returning "p" VNull None);
                     ("a", returning "a2" VNull None)]) "__proto__"
     = Registry.ADefinition (returning "p" VNull None)
  /\ Obj.getOwn
       (Registry.own
          (getCommands
             (registerAll [("a", returning "a1" VNull None);
                           ("__proto__", returning "p" VNull None);
                           ("a", returning "a2" VNull None)]))) "a"
     = Some (returning "a2" VNull None).
Proof.
  split; [|split].
  - exact (proj1 (registry_holds_the_last_registration
             [("a", returning "a1" VNull None);
              ("__proto__", returning "p" VNull None);
              ("a", returning "a2" VNull None)] "a")
             (returning "a2" VNull None) eq_refl).
  - exact (proj1 (registry_holds_the_last_registration
             [("a", returning "a1" VNull None);
              ("__proto__", returning "p" VNull None);
              ("a", returning "a2" VNull None)] "__proto__")
             (returning "p" VNull None) eq_refl).
  - refine (proj2 (proj1 (proj2 (registry_holds_the_last_registration
             [("a", returning "a1" VNull None);
              ("__proto__", returning "p" VNull None);
              ("a", returning "a2" VNull None)] "a")) _)).
    discriminate.
Defined.

(** Witness of X16. *)
Lemma run_joins_witness :
  run registry ["x:(A)"; "(B"; "val:$x)"] (home [])
  = run registry ["x:(A) (B val:$x)"] (home []).
Proof.
  exact (run_joins_its_arguments Host hostProcess registry
           ["x:(A)"; "(B"; "val:$x)"] (home []) eq_refl).
Defined.

(** Witness of X17: the callback wanders off and fails; its error comes
    out and the process is back where it started. *)
Lemma withDir_witness :
  withDir procDir procChdir "/work" wander homeProc
    = (Throw (Error "boom"), mkProc "/home" (procDirs homeProc) ["ran"])
  /\ procDir (mkProc "/home" (procDirs homeProc) ["ran"]) = procDir homeProc.
Proof.
  split; [reflexivity|].
  assert (Hmoves : forall dir w w',
             procChdir dir w = (Ok tt, w') -> procDir w' = dir).
  { intros dir w w'. unfold procChdir.
    destruct (existsb (String.eqb dir) (procDirs w)); [|discriminate].
    intros H. now injection H as <-. }
  destruct (withDir_restores_the_directory procDir procChdir Hmoves nat
              "/work" wander homeProc (Throw (Error "boom"))
              (mkProc "/home" (procDirs homeProc) ["ran"]) eq_refl)
    as [[Hback _]|(e & w2 & _ & Hfail)]; [exact Hback|].
  exfalso. unfold procChdir in Hfail.
  destruct (existsb (String.eqb (procDir homeProc)) (procDirs w2)) eqn:E;
    [discriminate|].
  injection Hfail as _ ->. discriminate.
Defined.

Lemma random_string_witness :
  exists s,
    getCryptoRandomString
      (fun k => repeat Byte.xab (Z.to_nat k)) 3 = Ok s
    /\ String.length s = 8
    /\ allChars isHexDigit s = true
    /\ (Z.rem 3 2 = 0 \/ Z.rem 3 2 = 1)%Z.
Proof.
  exact (proj2 (random_string_length
                  (fun k => repeat Byte.xab (Z.to_nat k)) 3)
           eq_refl eq_refl).
Defined.
